(** * EPUB ingestion and catalog of the reader backend (backend/store.go)

    A shallow embedding of the Go backend: the helpers of [store.go]
    ([normJoin], [between], [stripTags], [extractNav], [findNavItem],
    [findRootfile], [parseOPF], [unzipFile], [ingest]) and the read
    handlers ([GetBookByID], [GetSpine], [GetTOC], ...), together with
    models of the Go standard-library functions they call.

    Conventions.
    - A Go [string] is a byte sequence: Rocq's [string] (one [ascii] per
      byte).  Text is UTF-8 where the Go code decodes it ([range] over a
      string, [strings.TrimSpace]).
    - Go [int] values that can be negative ([strings.Index]) are [Z];
      [int64] sizes and clock readings are [Z] as well.
    - Paths use the Unix separator, so [filepath.Join] is [path.Join] and
      [filepath.FromSlash] is the identity.
    - A nil slice and an empty slice are both the empty [list].
    - [map[string]T] is [gmap string T]; a lookup of an absent key gives
      the zero value of [T].
    - The disk holds regular files by cleaned path.  The decoders of
      [archive/zip] and [encoding/xml], the clock and the failures of the
      disk are given from outside ([Codecs], [Env]); [sort.Slice] is any
      function that meets its contract ([SortSlice]).
    - The handlers are modelled by the value they encode; [None] is the
      not-found response. *)

From Stdlib Require Import ZArith NArith Ascii String List Lia Bool.
From Stdlib Require Import Permutation Sorted DecimalString.
From stdpp Require Import gmap strings list fin_maps.

Local Open Scope Z_scope.

(** The double-quote byte, written by its code so that no literal needs it. *)
Definition dq : ascii := ascii_of_nat 34.
Definition dqs : string := String dq "".

(* ================================================================== *)
(** ** Byte strings: slicing *)
(* ================================================================== *)

Module Str.

Definition len (s : string) : Z := Z.of_nat (String.length s).

(** [s[n:]] *)
Fixpoint drop (n : nat) (s : string) : string :=
  match n, s with
  | O, _ => s
  | S _, EmptyString => EmptyString
  | S k, String _ r => drop k r
  end.

(** [s[:n]] *)
Fixpoint take (n : nat) (s : string) : string :=
  match n, s with
  | O, _ => EmptyString
  | S _, EmptyString => EmptyString
  | S k, String c r => String c (take k r)
  end.

Definition byte_at (s : string) (i : nat) : N :=
  match String.get i s with
  | Some c => N_of_ascii c
  | None => 0%N
  end.

Definition is_empty (s : string) : bool :=
  match s with EmptyString => true | _ => false end.

Definition concat_all (l : list string) : string :=
  fold_right String.append EmptyString l.

End Str.

(* ================================================================== *)
(** ** unicode/utf8 and unicode.IsSpace *)
(* ================================================================== *)

Module utf8.

Definition RuneError : N := 0xFFFD%N.
Definition RuneSelf : N := 0x80%N.

Definition in_range (lo hi b : N) : bool := ((lo <=? b) && (b <=? hi))%N.

(** Continuation bytes, [locb..hicb]. *)
Definition is_cont (b : N) : bool := in_range 0x80 0xBF b.

(** The table [first] with [acceptRanges]: for a leading byte, the
    length of the sequence and the range accepted for the second byte. *)
Definition first (b : N) : option (nat * N * N) :=
  if in_range 0xC2 0xDF b then Some (2%nat, 0x80, 0xBF)%N
  else if (b =? 0xE0)%N then Some (3%nat, 0xA0, 0xBF)%N
  else if in_range 0xE1 0xEC b then Some (3%nat, 0x80, 0xBF)%N
  else if (b =? 0xED)%N then Some (3%nat, 0x80, 0x9F)%N
  else if in_range 0xEE 0xEF b then Some (3%nat, 0x80, 0xBF)%N
  else if (b =? 0xF0)%N then Some (4%nat, 0x90, 0xBF)%N
  else if in_range 0xF1 0xF3 b then Some (4%nat, 0x80, 0xBF)%N
  else if (b =? 0xF4)%N then Some (4%nat, 0x80, 0x8F)%N
  else None.

Definition bits (mask : N) (sh : N) (b : N) : N := N.shiftl (N.land b mask) sh.

(** [utf8.DecodeRuneInString]: the first rune of [s] and its width;
    [(RuneError, 0)] on the empty string and [(RuneError, 1)] on an
    invalid or truncated sequence. *)
Definition DecodeRuneInString (s : string) : N * nat :=
  match s with
  | EmptyString => (RuneError, 0%nat)
  | String c0 _ =>
    let s0 := N_of_ascii c0 in
    if (s0 <? RuneSelf)%N then (s0, 1%nat) else
    match first s0 with
    | None => (RuneError, 1%nat)
    | Some (sz, lo, hi) =>
      if (String.length s <? sz)%nat then (RuneError, 1%nat) else
      let s1 := Str.byte_at s 1 in
      if negb (in_range lo hi s1) then (RuneError, 1%nat) else
      if (sz <=? 2)%nat then
        (N.lor (bits 0x1F 6 s0) (bits 0x3F 0 s1), 2%nat)
      else
      let s2 := Str.byte_at s 2 in
      if negb (is_cont s2) then (RuneError, 1%nat) else
      if (sz <=? 3)%nat then
        (N.lor (bits 0x0F 12 s0) (N.lor (bits 0x3F 6 s1) (bits 0x3F 0 s2)), 3%nat)
      else
      let s3 := Str.byte_at s 3 in
      if negb (is_cont s3) then (RuneError, 1%nat) else
      (N.lor (bits 0x07 18 s0)
         (N.lor (bits 0x3F 12 s1) (N.lor (bits 0x3F 6 s2) (bits 0x3F 0 s3))),
       4%nat)
    end
  end.

(** [utf8.RuneStart]. *)
Definition RuneStart (b : N) : bool := negb (N.land b 0xC0 =? 0x80)%N.

(** The backwards scan of [utf8.DecodeLastRuneInString]: from [start],
    at most down to [lim], stopping on a byte that can start a rune. *)
Fixpoint look_back (fuel : nat) (s : string) (lim start : Z) : Z :=
  match fuel with
  | O => start
  | S f =>
    if start <? lim then start
    else if RuneStart (Str.byte_at s (Z.to_nat start)) then start
    else look_back f s lim (start - 1)
  end.

(** [utf8.DecodeLastRuneInString]. *)
Definition DecodeLastRuneInString (s : string) : N * nat :=
  let e := Str.len s in
  if e =? 0 then (RuneError, 0%nat) else
  let r := Str.byte_at s (Z.to_nat (e - 1)) in
  if (r <? RuneSelf)%N then (r, 1%nat) else
  let lim := Z.max 0 (e - 4) in
  let start := Z.max 0 (look_back 4 s lim (e - 2)) in
  let '(r, size) := DecodeRuneInString (Str.drop (Z.to_nat start) s) in
  if start + Z.of_nat size =? e then (r, size) else (RuneError, 1%nat).

Definition byte (n : N) : ascii := ascii_of_N (n mod 256).

(** [utf8.AppendRune] on an empty buffer: the encoding of one rune. *)
Definition EncodeRune (r : N) : string :=
  if (r <=? 0x7F)%N then String (byte r) ""
  else if (r <=? 0x7FF)%N then
    String (byte (N.lor 0xC0 (N.shiftr r 6)))
      (String (byte (N.lor 0x80 (N.land r 0x3F))) "")
  else if ((0x10FFFF <? r) || in_range 0xD800 0xDFFF r)%N then
    String (byte 0xEF) (String (byte 0xBF) (String (byte 0xBD) ""))
  else if (r <=? 0xFFFF)%N then
    String (byte (N.lor 0xE0 (N.shiftr r 12)))
      (String (byte (N.lor 0x80 (N.land (N.shiftr r 6) 0x3F)))
         (String (byte (N.lor 0x80 (N.land r 0x3F))) ""))
  else
    String (byte (N.lor 0xF0 (N.shiftr r 18)))
      (String (byte (N.lor 0x80 (N.land (N.shiftr r 12) 0x3F)))
         (String (byte (N.lor 0x80 (N.land (N.shiftr r 6) 0x3F)))
            (String (byte (N.lor 0x80 (N.land r 0x3F))) ""))).

(** The runes a [for _, r := range s] loop visits: an invalid byte is
    visited as [RuneError] and the loop advances by one byte.  [skip]
    counts the bytes of the current rune still to pass over. *)
Fixpoint runes_from (skip : nat) (s : string) : list N :=
  match s with
  | EmptyString => []
  | String _ rest =>
    match skip with
    | S k => runes_from k rest
    | O =>
      let '(r, w) := DecodeRuneInString s in
      r :: runes_from (Nat.pred w) rest
    end
  end.

Definition runes (s : string) : list N := runes_from 0 s.

(** [string(rs)] for a rune slice [rs]. *)
Definition string_of_runes (rs : list N) : string :=
  Str.concat_all (map EncodeRune rs).

(** [unicode.IsSpace]: the Latin-1 spaces and the White_Space table. *)
Definition IsSpace (r : N) : bool :=
  if (r <=? 0xFF)%N then
    (in_range 0x09 0x0D r || (r =? 0x20) || (r =? 0x85) || (r =? 0xA0))%N
  else
    ((r =? 0x1680) || in_range 0x2000 0x200A r || in_range 0x2028 0x2029 r
     || (r =? 0x202F) || (r =? 0x205F) || (r =? 0x3000))%N.

End utf8.


(* ================================================================== *)
(** ** Package strings *)
(* ================================================================== *)

Module GoStrings.

(** [strings.HasPrefix]. *)
Fixpoint HasPrefix (s p : string) : bool :=
  match p with
  | EmptyString => true
  | String c p' =>
    match s with
    | EmptyString => false
    | String d s' => Ascii.eqb c d && HasPrefix s' p'
    end
  end.

(** [strings.Index]: the index of the first instance of [sub] in [s],
    or [-1]. *)
Fixpoint Index (s sub : string) : Z :=
  if HasPrefix s sub then 0
  else match s with
       | EmptyString => -1
       | String _ r => let i := Index r sub in if i <? 0 then -1 else i + 1
       end.

(** [strings.Contains]. *)
Definition Contains (s sub : string) : bool := 0 <=? Index s sub.

(** [strings.Split] for a non-empty separator: cut at each instance of
    [sep], found with [Index] from the left.  The loop runs at most
    once per byte of [s]. *)
Fixpoint Split_loop (fuel : nat) (s sep : string) : list string :=
  let i := Index s sep in
  if i <? 0 then [s]
  else match fuel with
       | O => [s]
       | S f =>
         Str.take (Z.to_nat i) s
           :: Split_loop f (Str.drop (Z.to_nat (i + Str.len sep)) s) sep
       end.

Definition Split (s sep : string) : list string :=
  Split_loop (String.length s) s sep.

(** [strings.ReplaceAll] for a non-empty [old]: instances are replaced
    from the left and do not overlap.  [skip] counts the bytes of the
    instance just replaced that are still to pass over. *)
Fixpoint Replace_from (skip : nat) (s old new : string) : string :=
  match s with
  | EmptyString => EmptyString
  | String c r =>
    match skip with
    | S k => Replace_from k r old new
    | O =>
      if HasPrefix s old
      then new +:+ Replace_from (Nat.pred (String.length old)) r old new
      else String c (Replace_from 0 r old new)
    end
  end.

Definition ReplaceAll (s old new : string) : string := Replace_from 0 s old new.

(** [strings.TrimLeftFunc s unicode.IsSpace]: runes are decoded from the
    front and dropped while they are spaces. *)
Fixpoint TrimLeft_from (skip : nat) (s : string) : string :=
  match s with
  | EmptyString => EmptyString
  | String _ r =>
    match skip with
    | S k => TrimLeft_from k r
    | O =>
      let '(rn, w) := utf8.DecodeRuneInString s in
      if utf8.IsSpace rn then TrimLeft_from (Nat.pred w) r else s
    end
  end.

Definition TrimLeftSpace (s : string) : string := TrimLeft_from 0 s.

(** [strings.TrimRightFunc s unicode.IsSpace]: runes are decoded from the
    back and dropped while they are spaces. *)
Fixpoint TrimRight_loop (fuel : nat) (s : string) : string :=
  match fuel with
  | O => s
  | S f =>
    let '(rn, w) := utf8.DecodeLastRuneInString s in
    if utf8.IsSpace rn
    then TrimRight_loop f (Str.take (String.length s - w) s)
    else s
  end.

Definition TrimRightSpace (s : string) : string :=
  TrimRight_loop (String.length s) s.

(** [strings.TrimSpace]: leading and trailing white space, as defined
    by Unicode, is removed.  (Go takes a fast path over ASCII bytes and
    falls back to the two functions above on the first byte that is not
    ASCII; the result is the same.) *)
Definition TrimSpace (s : string) : string := TrimRightSpace (TrimLeftSpace s).

End GoStrings.

(* ================================================================== *)
(** ** Package path *)
(* ================================================================== *)

Module GoPath.

Definition slash : ascii := "/"%char.

(** The elements of a path: the pieces between slashes. *)
Fixpoint elems (s : string) : list string :=
  match s with
  | EmptyString => [EmptyString]
  | String c r =>
    if Ascii.eqb c slash then EmptyString :: elems r
    else match elems r with
         | e :: es => String c e :: es
         | [] => [String c EmptyString]
         end
  end.

Fixpoint join_elems (es : list string) : string :=
  match es with
  | [] => EmptyString
  | [e] => e
  | e :: rest => e +:+ String slash (join_elems rest)
  end.

Definition is_rooted (s : string) : bool :=
  match s with
  | String c _ => Ascii.eqb c slash
  | EmptyString => false
  end.

Definition is_dotdot (e : string) : bool := String.eqb e "..".

(** One element of the scan of [path.Clean].  [out] is the output so
    far, last element first.  An empty element and [.] are dropped; [..]
    removes the last ordinary element when there is one ("can
    backtrack"), is appended when the path is not rooted, and is
    dropped at the root; any other element is appended. *)
Definition clean_step (rooted : bool) (out : list string) (e : string)
  : list string :=
  if String.eqb e "" then out
  else if String.eqb e "." then out
  else if is_dotdot e then
    match out with
    | top :: rest =>
      if negb (is_dotdot top) then rest
      else if negb rooted then e :: out else out
    | [] => if negb rooted then [e] else out
    end
  else e :: out.

(** [path.Clean]: the shortest path equivalent to [p] by purely lexical
    processing.  The empty result is written [.]. *)
Definition Clean (p : string) : string :=
  if Str.is_empty p then "."
  else
    let rooted := is_rooted p in
    let out := fold_left (clean_step rooted) (elems p) [] in
    if rooted then String slash (join_elems (rev out))
    else match out with
         | [] => "."
         | _ => join_elems (rev out)
         end.

(** The buffer [path.Join] builds: once the buffer is non-empty every
    further element is appended after a slash. *)
Definition join_buf (buf e : string) : string :=
  if negb (Str.is_empty buf) then buf +:+ String slash e
  else e.

(** [path.Join]. *)
Definition Join (elem : list string) : string :=
  if forallb Str.is_empty elem then EmptyString
  else Clean (fold_left join_buf elem EmptyString).

(** Index of the last slash of [s], or [-1]. *)
Fixpoint LastIndexSlash (s : string) : Z :=
  match s with
  | EmptyString => -1
  | String c r =>
    let i := LastIndexSlash r in
    if 0 <=? i then i + 1
    else if Ascii.eqb c slash then 0 else -1
  end.

(** [path.Dir]: all but the last element of [p], cleaned. *)
Definition Dir (p : string) : string :=
  Clean (Str.take (Z.to_nat (LastIndexSlash p + 1)) p).

End GoPath.

(** [filepath.Join] on a Unix system. *)
Definition filepath_Join (elem : list string) : string := GoPath.Join elem.

(* ================================================================== *)
(** ** store.go: path resolver *)
(* ================================================================== *)

(** store.go:397-403. *)
Definition normJoin (base rel : string) : string :=
  if String.eqb rel "" then base
  else
    let p := GoPath.Clean (GoPath.Join [base; rel]) in
    p.

(* ================================================================== *)
(** ** crypto/sha1, encoding/hex, fmt *)
(* ================================================================== *)

Module sha1.

Local Open Scope N_scope.

Definition mask32 : N := 0xFFFFFFFF.
Definition add32 (a b : N) : N := N.land (a + b) mask32.
Definition rotl (n x : N) : N :=
  N.land (N.lor (N.shiftl x n) (N.shiftr x (32 - n))) mask32.
Definition not32 (x : N) : N := N.lxor x mask32.

(** Big-endian bytes of a word of [k] bytes. *)
Fixpoint be_bytes (k : nat) (x : N) : list N :=
  match k with
  | O => []
  | S j => N.land (N.shiftr x (8 * N.of_nat j)) 0xFF :: be_bytes j x
  end.

(** The message followed by the bit 1, zeros up to 56 modulo 64, and the
    bit length as a 64-bit big-endian integer. *)
Definition pad (msg : list N) : list N :=
  let n := N.of_nat (List.length msg) in
  let zeros := N.to_nat ((119 - n mod 64) mod 64) in
  msg ++ 0x80 :: repeat 0 zeros ++ be_bytes 8 (8 * n).

Fixpoint words (bs : list N) : list N :=
  match bs with
  | a :: b :: c :: d :: rest =>
    N.lor (N.shiftl a 24) (N.lor (N.shiftl b 16) (N.lor (N.shiftl c 8) d))
      :: words rest
  | _ => []
  end.

(** The message schedule, most recent word first. *)
Fixpoint extend (k : nat) (ws : list N) : list N :=
  match k with
  | O => ws
  | S j =>
    let w := rotl 1 (N.lxor (nth 2 ws 0)
               (N.lxor (nth 7 ws 0) (N.lxor (nth 13 ws 0) (nth 15 ws 0)))) in
    extend j (w :: ws)
  end.

Definition schedule (block : list N) : list N := rev (extend 64 (rev block)).

Definition state : Type := N * N * N * N * N.

Definition round (st : state * N) (w : N) : state * N :=
  let '((a, b, c, d, e), t) := st in
  let '(f, k) :=
    if t <? 20 then (N.lor (N.land b c) (N.land (not32 b) d), 0x5A827999)
    else if t <? 40 then (N.lxor b (N.lxor c d), 0x6ED9EBA1)
    else if t <? 60 then
      (N.lor (N.land b c) (N.lor (N.land b d) (N.land c d)), 0x8F1BBCDC)
    else (N.lxor b (N.lxor c d), 0xCA62C1D6) in
  let tmp := add32 (add32 (add32 (add32 (rotl 5 a) f) e) k) w in
  ((tmp, a, rotl 30 b, c, d), t + 1).

Definition compress (h : state) (block : list N) : state :=
  let '(h0, h1, h2, h3, h4) := h in
  let '((a, b, c, d, e), _) := fold_left round (schedule block) (h, 0) in
  (add32 h0 a, add32 h1 b, add32 h2 c, add32 h3 d, add32 h4 e).

Fixpoint blocks (fuel : nat) (h : state) (ws : list N) : state :=
  match fuel with
  | O => h
  | S f =>
    match ws with
    | [] => h
    | _ => blocks f (compress h (firstn 16 ws)) (skipn 16 ws)
    end
  end.

Definition init : state :=
  (0x67452301, 0xEFCDAB89, 0x98BADCFE, 0x10325476, 0xC3D2E1F0).

Definition bytes_of_string (s : string) : list N :=
  map N_of_ascii (list_ascii_of_string s).

(** [h := sha1.New(); io.WriteString(h, s); h.Sum(nil)]: the 20 bytes of
    the digest. *)
Definition Sum (s : string) : list N :=
  let ws := words (pad (bytes_of_string s)) in
  let '(h0, h1, h2, h3, h4) := blocks (List.length ws) init ws in
  be_bytes 4 h0 ++ be_bytes 4 h1 ++ be_bytes 4 h2 ++ be_bytes 4 h3
    ++ be_bytes 4 h4.

End sha1.

Module hex.

Definition hextable : string := "0123456789abcdef".

Definition digit (n : N) : ascii :=
  match String.get (N.to_nat n) hextable with
  | Some c => c
  | None => "0"%char
  end.

(** [hex.EncodeToString]: two lower-case digits per byte. *)
Fixpoint EncodeToString (bs : list N) : string :=
  match bs with
  | [] => EmptyString
  | b :: rest =>
    String (digit (N.shiftr b 4)) (String (digit (N.land b 0x0F))
      (EncodeToString rest))
  end.

End hex.

(** [fmt.Sprintf("%d", z)]. *)
Definition Sprintf_d (z : Z) : string :=
  DecimalString.NilZero.string_of_int (Z.to_int z).

(* ================================================================== *)
(** ** encoding/xml: documents *)
(* ================================================================== *)

Module xml.

(** [xml.Name]: name space and local name. *)
Record Name := mkName { Space : string; Local : string }.

(** [xml.Attr]. *)
Record Attr := mkAttr { AttrName : Name; Value : string }.

(** An element with its attributes and content, or character data. *)
#[local] Unset Elimination Schemes.
Inductive Node : Type :=
| Element (name : Name) (attrs : list Attr) (content : list Node)
| CharData (data : string).
#[local] Set Elimination Schemes.

(** A field tag matches a name: the local names agree, and the name
    spaces agree when the tag gives one. *)
Definition matches (xmlns local : string) (n : Name) : bool :=
  (String.eqb xmlns "" || String.eqb xmlns (Space n))
  && String.eqb local (Local n).

(** A string field tagged [local,attr]: the attributes are visited in
    order and each one that matches is copied into the field. *)
Definition attr_field (local : string) (attrs : list Attr) : string :=
  fold_left
    (λ v a, if matches "" local (AttrName a) then Value a else v)
    attrs "".

(** A string field filled from an element: the character data directly
    inside it, in order; elements inside are skipped. *)
Definition chardata (content : list Node) : string :=
  fold_left
    (λ data n,
       match n with
       | CharData d => data +:+ d
       | Element _ _ _ => data
       end)
    content "".

(** A slice field tagged [parent>child]: in every element [parent] of
    the content, every element [child] is decoded and appended. *)
Definition path_field {A} (parent child : string) (decode : Node → A)
    (content : list Node) : list A :=
  fold_left
    (λ acc n,
       match n with
       | Element name _ inner =>
         if matches "" parent name then
           fold_left
             (λ acc m,
                match m with
                | Element name' _ _ =>
                  if matches "" child name' then acc ++ [decode m] else acc
                | CharData _ => acc
                end)
             inner acc
         else acc
       | CharData _ => acc
       end)
    content [].

End xml.

(* ================================================================== *)
(** ** store.go: data models *)
(* ================================================================== *)

Module OPFItem.
Record t := mk { ID : string; Href : string; MediaType : string }.
(** The zero value, which a Go map yields for an absent key. *)
Definition zero : t := mk "" "" "".
End OPFItem.

Module OPFItemref.
Record t := mk { IDRef : string }.
End OPFItemref.

Module OPFMetadata.
Record t := mk { Title : string; Creator : string }.
End OPFMetadata.

Module OPFPackage.
Record t := mk {
  Meta : OPFMetadata.t;
  Manifest : list OPFItem.t;
  Spine : list OPFItemref.t }.
End OPFPackage.

Module containerXML.
Record rootfile := mkRootfile { FullPath : string }.
Record t := mk { Rootfiles : list rootfile }.
End containerXML.

Module NavItem.
Record t := mk { Href : string; Text : string }.
End NavItem.

Module NavDoc.
Record t := mk { Items : list NavItem.t }.
End NavDoc.

Module BookInfo.
Record t := mk {
  ID : string;
  Title : string;
  Author : string;
  RootFile : string;
  RootFS : string;
  OPF : OPFPackage.t;
  TOC : NavDoc.t }.
End BookInfo.

Module SpineItem.
(** [Type_] is the Go field [Type] (JSON [mediaType]). *)
Record t := mk { IDRef : string; Href : string; Type_ : string; Title : string }.
End SpineItem.

(** store.go:86-90; the lock is not modelled. *)
Record Store := mkStore {
  rootDir : string;
  books : gmap string BookInfo.t }.

Definition NewStore (root : string) : Store := mkStore root ∅.

(* ================================================================== *)
(** ** The world outside the process *)
(* ================================================================== *)

(** An [io.Reader]: the bytes it yields, and whether reading ends with an
    error instead of EOF. *)
Record reader := mkReader { bytes : string; fails : bool }.

(** An entry of a zip archive: its name, whether it is a directory, and
    what [f.Open()] gives ([None]: an error). *)
Record zipFile := mkZipFile {
  Name : string;
  IsDir : bool;
  Open : option reader }.

(** [multipart.FileHeader]. *)
Record FileHeader := mkFileHeader { Filename : string; Size : Z }.

(** What one call of [ingest] meets: the clock ([time.Now().UnixNano()])
    and the paths at which directory creation or file creation fails. *)
Record Env := mkEnv {
  now : Z;
  mkdir_fails : string → bool;
  create_fails : string → bool }.

(** The readers of [archive/zip] and [encoding/xml]: [None] is an error.
    [zip_Reader] decodes the bytes of a stored archive into its entries;
    [xml_Decoder] reads the root element of a document, with the names
    of elements and attributes resolved to their name spaces. *)
Class Codecs := {
  zip_Reader : string → option (list zipFile);
  xml_Decoder : string → option xml.Node }.

(** A strict weak ordering, as [sort.Slice] requires of [less]. *)
Definition strict_weak {A} (less : A → A → bool) : Prop :=
  (∀ x y, less x y = true → less y x = false) ∧
  (∀ x y z, less x y = false → less y z = false → less x z = false).

(** [sort.Slice]: the result is a reordering of the slice in which no
    element is less than an earlier one.  The sort is not stable: the
    order of elements that compare equal is not specified. *)
Class SortSlice := {
  sort_Slice : list string → (string → string → bool) → list string;
  sort_Slice_perm : ∀ l less, Permutation (sort_Slice l less) l;
  sort_Slice_sorted : ∀ l less, strict_weak less →
    StronglySorted (λ a b, less b a = false) (sort_Slice l less) }.

Inductive error : Type :=
| ErrIO (op path : string)
| ErrZip
| ErrXML
| ErrNoRootfile.

(** The disk (regular files by path) and the store. *)
Record World := mkWorld {
  disk : gmap string string;
  store : Store }.

(** The result of a computation: its value or error, the world it
    leaves, and the catalog as it stood after each of its atomic steps
    (what a reader holding the lock in between would have seen). *)
Record Outcome (A : Type) := mkOutcome {
  res : error + A;
  final : World;
  seen : list (gmap string BookInfo.t) }.
Arguments mkOutcome {A}.
Arguments res {A}.
Arguments final {A}.
Arguments seen {A}.

Definition M (A : Type) : Type := World → Outcome A.

Definition ret {A} (a : A) : M A := λ w, mkOutcome (inr a) w [].

Definition bind {A B} (m : M A) (k : A → M B) : M B := λ w,
  let o := m w in
  match res o with
  | inl e => mkOutcome (inl e) (final o) (seen o)
  | inr a =>
    let o' := k a (final o) in
    mkOutcome (res o') (final o') (seen o ++ seen o')
  end.

Global Instance M_ret : MRet M := @ret.
Global Instance M_bind : MBind M := λ A B k m, bind m k.

(** One atomic step: a change of the world and a value or error. *)
Definition atomic {A} (f : World → (error + A) * World) : M A := λ w,
  let '(r, w') := f w in mkOutcome r w' [books (store w')].

Definition on_disk {A} (f : gmap string string → (error + A) * gmap string string)
  : M A :=
  atomic (λ w, let '(r, d) := f (disk w) in (r, mkWorld d (store w))).

(** [x, _ := m]: the error is dropped and the value defaults to [dflt]. *)
Definition ignore_err {A} (dflt : A) (m : M A) : M A := λ w,
  let o := m w in
  mkOutcome (inr match res o with inr a => a | inl _ => dflt end)
            (final o) (seen o).

Definition os_MkdirAll (env : Env) (p : string) : M unit :=
  on_disk (λ d, if mkdir_fails env p then (inl (ErrIO "mkdir" p), d)
                else (inr tt, d)).

(** [os.Create], and [os.OpenFile] with [O_CREATE|O_TRUNC|O_WRONLY]. *)
Definition os_Create (env : Env) (p : string) : M unit :=
  on_disk (λ d, if create_fails env p then (inl (ErrIO "open" p), d)
                else (inr tt, <[p := ""]> d)).

(** [io.Copy(out, r)] for the file [out] opened at [p]. *)
Definition io_Copy (p : string) (r : reader) : M unit :=
  on_disk (λ d, (if fails r then inl (ErrIO "copy" p) else inr tt,
                 <[p := bytes r]> d)).

Definition os_ReadFile (p : string) : M string :=
  on_disk (λ d, match d !! p with
                | Some data => (inr data, d)
                | None => (inl (ErrIO "read" p), d)
                end).

Definition fail {A} (e : error) : M A := λ w, mkOutcome (inl e) w [].

Definition of_option {A} (e : error) (o : option A) : M A :=
  match o with Some a => ret a | None => fail e end.

(* ================================================================== *)
(** ** store.go: EPUB helpers *)
(* ================================================================== *)

Section store.
Context {codecs : Codecs} {sorter : SortSlice}.

(** The name space of the Dublin-Core elements, as in the tags of
    [OPFMetadata]. *)
Definition dc : string := "http://purl.org/dc/elements/1.1/".

Definition attrs_of (n : xml.Node) : list xml.Attr :=
  match n with
  | xml.Element _ attrs _ => attrs
  | xml.CharData _ => []
  end.

Definition content_of (n : xml.Node) : list xml.Node :=
  match n with
  | xml.Element _ _ content => content
  | xml.CharData _ => []
  end.

(** store.go:48-50: a rootfile, with its [full-path] attribute. *)
Definition unmarshal_rootfile (n : xml.Node) : containerXML.rootfile :=
  containerXML.mkRootfile (xml.attr_field "full-path" (attrs_of n)).

(** store.go:65-69. *)
Definition unmarshal_OPFItem (n : xml.Node) : OPFItem.t :=
  OPFItem.mk (xml.attr_field "id" (attrs_of n))
    (xml.attr_field "href" (attrs_of n))
    (xml.attr_field "media-type" (attrs_of n)).

(** store.go:71-73. *)
Definition unmarshal_OPFItemref (n : xml.Node) : OPFItemref.t :=
  OPFItemref.mk (xml.attr_field "idref" (attrs_of n)).

(** store.go:60-63: the elements inside [metadata] are visited in
    order; a Dublin-Core [title] sets [Title] and a Dublin-Core
    [creator] sets [Creator]. *)
Definition unmarshal_OPFMetadata (m : OPFMetadata.t) (content : list xml.Node)
  : OPFMetadata.t :=
  fold_left
    (λ m n,
       match n with
       | xml.Element name _ inner =>
         if xml.matches dc "title" name then
           OPFMetadata.mk (xml.chardata inner) (OPFMetadata.Creator m)
         else if xml.matches dc "creator" name then
           OPFMetadata.mk (OPFMetadata.Title m) (xml.chardata inner)
         else m
       | xml.CharData _ => m
       end)
    content m.

(** The field [Meta], tagged [metadata]: every element [metadata] of
    the content is decoded into it in turn. *)
Definition meta_field (content : list xml.Node) : OPFMetadata.t :=
  fold_left
    (λ m n,
       match n with
       | xml.Element name _ inner =>
         if xml.matches "" "metadata" name
         then unmarshal_OPFMetadata m inner
         else m
       | xml.CharData _ => m
       end)
    content (OPFMetadata.mk "" "").

(** [xml.Unmarshal(data, &c)] for [c containerXML] (store.go:46-51):
    the root element must be [container]. *)
Definition xml_Unmarshal_container (data : string) : option containerXML.t :=
  match xml_Decoder data with
  | Some (xml.Element name _ content) =>
    if xml.matches "" "container" name then
      Some (containerXML.mk
              (xml.path_field "rootfiles" "rootfile" unmarshal_rootfile content))
    else None
  | _ => None
  end.

(** [xml.Unmarshal(data, &p)] for [p OPFPackage] (store.go:53-58): the
    root element must be [package]. *)
Definition xml_Unmarshal_package (data : string) : option OPFPackage.t :=
  match xml_Decoder data with
  | Some (xml.Element name _ content) =>
    if xml.matches "" "package" name then
      Some (OPFPackage.mk (meta_field content)
              (xml.path_field "manifest" "item" unmarshal_OPFItem content)
              (xml.path_field "spine" "itemref" unmarshal_OPFItemref content))
    else None
  | _ => None
  end.

(** store.go:270-294, the loop of [unzipFile] over the entries. *)
Fixpoint unzip_loop (env : Env) (dest : string) (files : list zipFile)
  : M unit :=
  match files with
  | [] => mret tt
  | f :: rest =>
    let p := filepath_Join [dest; Name f] in
    if IsDir f then
      _ ← ignore_err tt (os_MkdirAll env p);
      unzip_loop env dest rest
    else
      _ ← os_MkdirAll env (GoPath.Dir p);
      rc ← of_option (ErrIO "open entry" (Name f)) (Open f);
      _ ← os_Create env p;
      _ ← io_Copy p rc;
      unzip_loop env dest rest
  end.

(** store.go:264-296. *)
Definition unzipFile (env : Env) (zipPath dest : string) : M unit :=
  data ← os_ReadFile zipPath;
  files ← of_option ErrZip (zip_Reader data);
  unzip_loop env dest files.

(** store.go:298-311. *)
Definition findRootfile (root : string) : M string :=
  data ← os_ReadFile (filepath_Join [root; "META-INF"; "container.xml"]);
  c ← of_option ErrXML (xml_Unmarshal_container data);
  if (List.length (containerXML.Rootfiles c) =? 0)%nat then
    fail ErrNoRootfile
  else
    mret (containerXML.FullPath
            (nth 0 (containerXML.Rootfiles c) (containerXML.mkRootfile ""))).

(** store.go:313-323. *)
Definition parseOPF (path : string) : M OPFPackage.t :=
  data ← os_ReadFile path;
  of_option ErrXML (xml_Unmarshal_package data).

(** The [less] of [findNavItem]: the first string is the shorter. *)
Definition shorter (a b : string) : bool :=
  (String.length a <? String.length b)%nat.

(** store.go:325-340. *)
Definition findNavItem (p : OPFPackage.t) : string :=
  let candidates :=
    fold_left
      (λ candidates it,
         if GoStrings.Contains (OPFItem.Href it) "nav"
            || GoStrings.Contains (OPFItem.Href it) "toc"
         then candidates ++ [OPFItem.Href it]
         else candidates)
      (OPFPackage.Manifest p) [] in
  if (List.length candidates =? 0)%nat then ""
  else
    let candidates := sort_Slice candidates shorter in
    nth 0 candidates "".

(** store.go:365-376. *)
Definition between (s a b : string) : string :=
  let i := GoStrings.Index s a in
  if i <? 0 then ""
  else
    let s := Str.drop (Z.to_nat (i + Str.len a)) s in
    let j := GoStrings.Index s b in
    if j <? 0 then ""
    else Str.take (Z.to_nat j) s.

Definition lt_rune : N := 60%N.
Definition gt_rune : N := 62%N.

(** The body of the loop of [stripTags]: the state is [(out, in)]. *)
Definition stripTags_step (st : list N * bool) (r : N) : list N * bool :=
  let '(out, inside) := st in
  if (r =? lt_rune)%N then (out, true)
  else if (r =? gt_rune)%N then (out, false)
  else if negb inside then (out ++ [r], inside)
  else (out, inside).

Definition nbsp : string := utf8.EncodeRune 0xA0.

(** store.go:378-395. *)
Definition stripTags (s : string) : string :=
  let '(out, _) := fold_left stripTags_step (utf8.runes s) ([], false) in
  GoStrings.TrimSpace
    (GoStrings.ReplaceAll (utf8.string_of_runes out) nbsp " ").

Definition newline : string := String (ascii_of_nat 10) "".

(** store.go:350-361, the body of the loop of [extractNav] over the
    lines. *)
Definition extractNav_step (items : list NavItem.t) (line : string)
  : list NavItem.t :=
  let line := GoStrings.TrimSpace line in
  if negb (GoStrings.Contains line "<a ") then items
  else
    let href := between line ("href=" +:+ dqs) dqs in
    let text := stripTags line in
    if negb (String.eqb href "") && negb (String.eqb text "")
    then items ++ [NavItem.mk href text]
    else items.

(** The scan of [extractNav] once the file is read. *)
Definition scanNav (t : string) : list NavItem.t :=
  fold_left extractNav_step (GoStrings.Split t newline) [].

(** store.go:342-363. *)
Definition extractNav (navPath : string) : M (list NavItem.t) :=
  b ← os_ReadFile navPath;
  mret (scanNav b).

(* ================================================================ *)
(** ** store.go: ingestion *)
(* ================================================================ *)

(** store.go:200-204: [sha1(filename + size + time)], hex, first 12
    characters. *)
Definition deriveID (header : FileHeader) (nano : Z) : string :=
  Str.take 12
    (hex.EncodeToString
       (sha1.Sum (Filename header
                  +:+ ("-" +:+ Sprintf_d (Size header)
                       +:+ "-" +:+ Sprintf_d nano)))).

(** store.go:256-258: [s.books[id] = info], under the lock. *)
Definition insert_book (id : string) (info : BookInfo.t) : M unit :=
  atomic (λ w,
    (inr tt,
     mkWorld (disk w)
       (mkStore (rootDir (store w)) (<[id := info]> (books (store w)))))).

(** [s.rootDir]. *)
Definition get_rootDir : M string := λ w, mkOutcome (inr (rootDir (store w))) w [].

(** store.go:199-260. *)
Definition ingest (env : Env) (file : reader) (header : FileHeader)
  : M (string * BookInfo.t) :=
  let id := deriveID header (now env) in
  s_rootDir ← get_rootDir;
  let bookDir := filepath_Join [s_rootDir; id] in
  _ ← os_MkdirAll env bookDir;
  let epubPath := filepath_Join [bookDir; "book.epub"] in
  _ ← os_Create env epubPath;
  _ ← io_Copy epubPath file;
  let root := filepath_Join [bookDir; "unpacked"] in
  _ ← unzipFile env epubPath root;
  rootfile ← findRootfile root;
  opf ← parseOPF (filepath_Join [root; rootfile]);
  toc ← (let nav := findNavItem opf in
         if negb (String.eqb nav "") then
           ignore_err []
             (extractNav
                (filepath_Join [root; normJoin (GoPath.Dir rootfile) nav]))
         else mret []);
  let info :=
    BookInfo.mk id
      (GoStrings.TrimSpace (OPFMetadata.Title (OPFPackage.Meta opf)))
      (GoStrings.TrimSpace (OPFMetadata.Creator (OPFPackage.Meta opf)))
      rootfile root opf (NavDoc.mk toc) in
  _ ← insert_book id info;
  mret (id, info).

(* ================================================================ *)
(** ** store.go: read operations *)
(* ================================================================ *)

(** store.go:191-196. *)
Definition GetBookByID (s : Store) (id : string) : option BookInfo.t :=
  books s !! id.

(** The public part of a record, as [ListBooks] and [GetBook] encode it. *)
Definition public (b : BookInfo.t) : string * string * string * string :=
  (BookInfo.ID b, BookInfo.Title b, BookInfo.Author b, BookInfo.RootFile b).

(** store.go:118-127; the order of a Go map iteration is not
    specified. *)
Definition ListBooks (s : Store) : list (string * string * string * string) :=
  (λ kv, public (snd kv)) <$> map_to_list (books s).

(** store.go:129-139; [None] is the not-found response. *)
Definition GetBook (s : Store) (id : string)
  : option (string * string * string * string) :=
  public <$> GetBookByID s id.

(** store.go:141-154. *)
Definition GetMetadata (s : Store) (id : string) : option (string * string) :=
  (λ b, (BookInfo.Title b, BookInfo.Author b)) <$> GetBookByID s id.

(** store.go:166-169: the manifest items by identifier; of two items
    with one identifier the later stays. *)
Definition itemsByID (manifest : list OPFItem.t) : gmap string OPFItem.t :=
  fold_left (λ m it, <[OPFItem.ID it := it]> m) manifest ∅.

(** store.go:165-174: the list [GetSpine] builds for a book. *)
Definition spineOf (b : BookInfo.t) : list SpineItem.t :=
  let items := itemsByID (OPFPackage.Manifest (BookInfo.OPF b)) in
  fold_left
    (λ out sp,
       let it := default OPFItem.zero (items !! OPFItemref.IDRef sp) in
       out ++ [SpineItem.mk (OPFItemref.IDRef sp)
                 (normJoin (GoPath.Dir (BookInfo.RootFile b)) (OPFItem.Href it))
                 (OPFItem.MediaType it) ""])
    (OPFPackage.Spine (BookInfo.OPF b)) [].

(** store.go:156-177. *)
Definition GetSpine (s : Store) (id : string) : option (list SpineItem.t) :=
  spineOf <$> GetBookByID s id.

(** store.go:179-189. *)
Definition GetTOC (s : Store) (id : string) : option NavDoc.t :=
  BookInfo.TOC <$> GetBookByID s id.

End store.

(* ================================================================== *)
(** * Specification-side definitions *)
(* ================================================================== *)

(** ** Shapes of paths *)

Module PathSpec.
Import GoPath.

Fixpoint no_slash (s : string) : bool :=
  match s with
  | EmptyString => true
  | String c r => negb (Ascii.eqb c slash) && no_slash r
  end.

(** An ordinary element: not empty, not [.], not [..]. *)
Definition ordinary (e : string) : bool :=
  negb (String.eqb e "") && negb (String.eqb e ".") && negb (is_dotdot e).

Fixpoint drop_dotdots (es : list string) : list string :=
  match es with
  | e :: r => if is_dotdot e then drop_dotdots r else es
  | [] => []
  end.

(** The shape of a cleaned path: [.], or the root followed by ordinary
    elements only, or a run of [..] elements followed by ordinary
    elements only.  No element is empty, so no slash is doubled and none
    trails. *)
Definition normal_form (p : string) : bool :=
  String.eqb p "."
  || (if is_rooted p
      then String.eqb p "/" || forallb ordinary (elems (Str.drop 1 p))
      else forallb ordinary (drop_dotdots (elems p))).

(** A path none of whose elements is [.] or [..]. *)
Definition dot_free (p : string) : bool :=
  forallb (λ e, negb (String.eqb e ".") && negb (is_dotdot e)) (elems p).

(** The output stack of the scan of [Clean], last element first:
    ordinary elements on top of a run of [..] elements, which is empty
    for a rooted path. *)
Definition stack_ok (rooted : bool) (out : list string) : Prop :=
  ∃ ords k,
    out = ords ++ repeat ".." k
    ∧ Forall (λ e, ordinary e = true) ords
    ∧ (rooted = true → k = 0%nat).

End PathSpec.

(** ** The table of contents, as the specification words it *)

Module NavSpec.

(** The lines of a text: the pieces between line feeds. *)
Fixpoint lines (t : string) : list string :=
  match t with
  | EmptyString => [EmptyString]
  | String c r =>
    if Ascii.eqb c (ascii_of_nat 10) then EmptyString :: lines r
    else match lines r with
         | l :: ls => String c l :: ls
         | [] => [String c EmptyString]
         end
  end.

(** What follows the first instance of [pat] in [s], if there is one. *)
Fixpoint after_first (pat s : string) : option string :=
  if GoStrings.HasPrefix s pat then Some (Str.drop (String.length pat) s)
  else match s with
       | EmptyString => None
       | String _ r => after_first pat r
       end.

(** What precedes the first byte [c] of [s], if there is one. *)
Fixpoint upto (c : ascii) (s : string) : option string :=
  match s with
  | EmptyString => None
  | String d r =>
    if Ascii.eqb c d then Some EmptyString
    else option_map (String d) (upto c r)
  end.

(** The value of the first double-quoted [href] attribute of a line:
    the text between the first [href=] followed by a double quote and
    the next double quote; empty when either is missing. *)
Definition first_href (line : string) : string :=
  match after_first ("href=" +:+ dqs) line with
  | None => ""
  | Some rest =>
    match upto dq rest with
    | None => ""
    | Some v => v
    end
  end.

(** The runes outside tag markup: [<] opens markup and [>] closes it;
    both are markup themselves. *)
Fixpoint text_outside (inside : bool) (rs : list N) : list N :=
  match rs with
  | [] => []
  | r :: rest =>
    if (r =? lt_rune)%N then text_outside true rest
    else if (r =? gt_rune)%N then text_outside false rest
    else if inside then text_outside inside rest
    else r :: text_outside inside rest
  end.

(** The visible text of a line: markup removed, non-breaking spaces
    turned into spaces, surrounding white space trimmed. *)
Definition visible_text (line : string) : string :=
  GoStrings.TrimSpace
    (GoStrings.ReplaceAll
       (utf8.string_of_runes (text_outside false (utf8.runes line)))
       nbsp " ").

(** A line has an anchor-opening tag. *)
Definition has_anchor (line : string) : bool := GoStrings.Contains line "<a ".

(** A line yields an entry: it has an anchor, and neither its href nor
    its visible text is empty. *)
Definition emits (line : string) : bool :=
  has_anchor line
  && negb (String.eqb (first_href line) "")
  && negb (String.eqb (visible_text line) "").

Definition toc_entry (line : string) : NavItem.t :=
  NavItem.mk (first_href line) (visible_text line).

(** The entries of a navigation document: one per emitting line, in
    line order.  Lines are taken without their surrounding white space. *)
Definition toc_of (t : string) : list NavItem.t :=
  map toc_entry (List.filter emits (map GoStrings.TrimSpace (lines t))).

End NavSpec.

(** ** Stages of ingestion *)

Section IngestSpec.
Context {codecs : Codecs} {sorter : SortSlice}.

(** [ingest] up to the upload written to disk: the path of the stored
    archive and the root of the tree to unpack it into. *)
Definition ingest_upload (env : Env) (file : reader) (header : FileHeader)
  : M (string * string) :=
  let id := deriveID header (now env) in
  s_rootDir ← get_rootDir;
  let bookDir := filepath_Join [s_rootDir; id] in
  _ ← os_MkdirAll env bookDir;
  let epubPath := filepath_Join [bookDir; "book.epub"] in
  _ ← os_Create env epubPath;
  _ ← io_Copy epubPath file;
  mret (epubPath, filepath_Join [bookDir; "unpacked"]).

(** [ingest] up to and including the parse of the package document
    (archive extraction, container location, package parsing): the
    root of the unpacked tree, the rootfile path and the package. *)
Definition ingest_parse (env : Env) (file : reader) (header : FileHeader)
  : M (string * string * OPFPackage.t) :=
  let id := deriveID header (now env) in
  s_rootDir ← get_rootDir;
  let bookDir := filepath_Join [s_rootDir; id] in
  _ ← os_MkdirAll env bookDir;
  let epubPath := filepath_Join [bookDir; "book.epub"] in
  _ ← os_Create env epubPath;
  _ ← io_Copy epubPath file;
  let root := filepath_Join [bookDir; "unpacked"] in
  _ ← unzipFile env epubPath root;
  rootfile ← findRootfile root;
  opf ← parseOPF (filepath_Join [root; rootfile]);
  mret (root, rootfile, opf).

(** Where [ingest] unpacks the book with identifier [id]. *)
Definition unpacked_root (s : Store) (id : string) : string :=
  filepath_Join [filepath_Join [rootDir s; id]; "unpacked"].

(** Where [ingest] looks for the navigation document. *)
Definition nav_path (root rootfile nav : string) : string :=
  filepath_Join [root; normJoin (GoPath.Dir rootfile) nav].

(** The entries [ingest] stores: none without a candidate or when the
    candidate cannot be read, else the scan of the candidate. *)
Definition toc_items (d : gmap string string) (root rootfile : string)
    (opf : OPFPackage.t) : list NavItem.t :=
  let nav := findNavItem opf in
  if String.eqb nav "" then []
  else match d !! nav_path root rootfile nav with
       | Some b => scanNav b
       | None => []
       end.

(** The record [ingest] builds. *)
Definition book_record (id root rootfile : string) (opf : OPFPackage.t)
    (toc : list NavItem.t) : BookInfo.t :=
  BookInfo.mk id
    (GoStrings.TrimSpace (OPFMetadata.Title (OPFPackage.Meta opf)))
    (GoStrings.TrimSpace (OPFMetadata.Creator (OPFPackage.Meta opf)))
    rootfile root opf (NavDoc.mk toc).

(** The rest of [ingest] after the parse stage. *)
Definition ingest_finish (id : string) (r : string * string * OPFPackage.t)
  : M (string * BookInfo.t) :=
  let '(root, rootfile, opf) := r in
  toc ← (let nav := findNavItem opf in
         if negb (String.eqb nav "") then
           ignore_err []
             (extractNav
                (filepath_Join [root; normJoin (GoPath.Dir rootfile) nav]))
         else mret []);
  _ ← insert_book id (book_record id root rootfile opf toc);
  mret (id, book_record id root rootfile opf toc).

(** The candidates of [findNavItem]: the manifest hrefs that contain
    [nav] or [toc], in manifest order. *)
Definition nav_candidates (p : OPFPackage.t) : list string :=
  List.filter
    (λ h, GoStrings.Contains h "nav" || GoStrings.Contains h "toc")
    (map OPFItem.Href (OPFPackage.Manifest p)).

End IngestSpec.

(** A computation that leaves the store alone, at every step. *)
Definition quiet {A} (m : M A) : Prop :=
  ∀ w, store (final (m w)) = store w
       ∧ Forall (λ c, c = books (store w)) (seen (m w)).

Definition is_ok {A} (r : error + A) : bool :=
  match r with inr _ => true | inl _ => false end.

(** The identifier a successful ingestion returns. *)
Definition ok_id (o : Outcome (string * BookInfo.t)) : option string :=
  match res o with
  | inr (id, _) => Some id
  | inl _ => None
  end.

(** ** An implementation of the sorting contract *)

(** Insertion sort, which [sort.Slice] runs on slices of at most twelve
    elements: each element moves left past the elements it is less than.
    [racc] is the sorted prefix, last element first. *)
Fixpoint insert_left (less : string → string → bool) (x : string)
    (racc : list string) : list string :=
  match racc with
  | [] => [x]
  | y :: r => if less x y then y :: insert_left less x r else x :: racc
  end.

Definition insertion_sort (l : list string) (less : string → string → bool)
  : list string :=
  rev (fold_left (λ racc x, insert_left less x racc) l []).

(** ** Documents, as the specification words it *)

Module DocSpec.

(** The elements of a content with a given name. *)
Definition elements (xmlns local : string) (content : list xml.Node)
  : list xml.Node :=
  List.filter
    (λ n, match n with
          | xml.Element name _ _ => xml.matches xmlns local name
          | xml.CharData _ => false
          end)
    content.

(** The texts of the Dublin-Core elements [local] of the package
    document [doc], in document order: those directly inside a
    [metadata] element directly inside the root. *)
Definition dc_texts (local : string) (doc : xml.Node) : list string :=
  map (λ n, xml.chardata (content_of n))
    (flat_map (λ m, elements dc local (content_of m))
       (elements "" "metadata" (content_of doc))).

(** The value of an attribute: that of the last attribute with this
    local name, or the empty string. *)
Definition attribute (local : string) (n : xml.Node) : string :=
  match find (λ a, xml.matches "" local (xml.AttrName a)) (rev (attrs_of n)) with
  | Some a => xml.Value a
  | None => ""
  end.

(** The rootfiles a container document declares, in document order:
    the [full-path] of each [rootfile] directly inside a [rootfiles]
    directly inside the root. *)
Definition declared_rootfiles (doc : xml.Node) : list string :=
  map (attribute "full-path")
    (flat_map (λ r, elements "" "rootfile" (content_of r))
       (elements "" "rootfiles" (content_of doc))).

(** The root element is named [local]. *)
Definition root_is (local : string) (doc : xml.Node) : bool :=
  match doc with
  | xml.Element name _ _ => xml.matches "" local name
  | xml.CharData _ => false
  end.

End DocSpec.

(** ** The spine, as the specification words it *)

(** The manifest item a spine entry refers to: the last item of the
    manifest with that identifier, or the zero item when there is none. *)
Definition manifest_item (p : OPFPackage.t) (idref : string) : OPFItem.t :=
  default OPFItem.zero
    (find (λ it, String.eqb (OPFItem.ID it) idref) (rev (OPFPackage.Manifest p))).

(** The spine entry served for an itemref of a package whose document is
    at [rootfile]: the href is the path resolver applied to the directory
    of the package document and the href of the manifest item. *)
Definition spine_entry (rootfile : string) (p : OPFPackage.t)
    (sp : OPFItemref.t) : SpineItem.t :=
  let it := manifest_item p (OPFItemref.IDRef sp) in
  SpineItem.mk (OPFItemref.IDRef sp)
    (normJoin (GoPath.Dir rootfile) (OPFItem.Href it))
    (OPFItem.MediaType it) "".

(** A spine entry whose idref matches no manifest item. *)
Definition dangling (p : OPFPackage.t) (sp : OPFItemref.t) : Prop :=
  ∀ it, In it (OPFPackage.Manifest p) → OPFItem.ID it ≠ OPFItemref.IDRef sp.

(** ** Identifiers *)

Definition is_lower_hex (c : ascii) : bool :=
  match String.index 0 (String c "") hex.hextable with
  | Some _ => true
  | None => false
  end.

Fixpoint all_chars (f : ascii → bool) (s : string) : bool :=
  match s with
  | EmptyString => true
  | String c r => f c && all_chars f r
  end.

(** ** A worked example: one small book *)

Module Demo.

Definition chapter_type : string := "application/xhtml+xml".

(** The anchor line of the navigation document. *)
Definition anchor_line : string :=
  "<a href=" +:+ dqs +:+ "chap1.xhtml" +:+ dqs +:+ ">Chapter 1</a>".

Definition nav_xhtml : string :=
  "<nav>" +:+ newline +:+ anchor_line +:+ newline +:+ "</nav>".

Definition c1 : OPFItem.t := OPFItem.mk "c1" "chap1.xhtml" chapter_type.
Definition nav : OPFItem.t := OPFItem.mk "nav" "nav.xhtml" chapter_type.

(** The package document: title and creator with white space around,
    the two manifest items, and the given spine. *)
Definition package (spine : list OPFItemref.t) : OPFPackage.t :=
  OPFPackage.mk (OPFMetadata.mk "  Moby-Dick " " Herman Melville")
    [c1; nav] spine.

Definition spine1 : list OPFItemref.t := [OPFItemref.mk "c1"].

(** A spine with an entry that matches no manifest item. *)
Definition spine_ghost : list OPFItemref.t :=
  [OPFItemref.mk "c1"; OPFItemref.mk "ghost"].

Definition file (name data : string) : zipFile :=
  mkZipFile name false (Some (mkReader data false)).

Definition archive : list zipFile :=
  [ file "mimetype" "application/epub+zip";
    file "META-INF/container.xml" "container.xml";
    file "OEBPS/content.opf" "content.opf";
    file "OEBPS/nav.xhtml" nav_xhtml;
    file "OEBPS/chap1.xhtml" "<html><body>Call me Ishmael.</body></html>" ].

Definition opf_ns : string := "http://www.idpf.org/2007/opf".
Definition ocf_ns : string := "urn:oasis:names:tc:opendocument:xmlns:container".

Definition elem (ns local : string) (attrs : list (string * string))
    (content : list xml.Node) : xml.Node :=
  xml.Element (xml.mkName ns local)
    (map (λ kv, xml.mkAttr (xml.mkName "" (fst kv)) (snd kv)) attrs)
    content.

(** The container document: one rootfile, [OEBPS/content.opf]. *)
Definition container_doc : xml.Node :=
  elem ocf_ns "container" [("version", "1.0")]
    [ elem ocf_ns "rootfiles" []
        [ elem ocf_ns "rootfile"
            [("full-path", "OEBPS/content.opf");
             ("media-type", "application/oebps-package+xml")] [] ] ].

Definition item_doc (it : OPFItem.t) : xml.Node :=
  elem opf_ns "item"
    [("id", OPFItem.ID it); ("href", OPFItem.Href it);
     ("media-type", OPFItem.MediaType it)] [].

Definition itemref_doc (r : OPFItemref.t) : xml.Node :=
  elem opf_ns "itemref" [("idref", OPFItemref.IDRef r)] [].

(** The package document of [pkg]: its title and creator as
    Dublin-Core elements when they are not empty, its manifest and its
    spine. *)
Definition package_doc (pkg : OPFPackage.t) : xml.Node :=
  let m := OPFPackage.Meta pkg in
  elem opf_ns "package" [("version", "3.0")]
    [ xml.CharData newline;
      elem opf_ns "metadata" []
        ((if String.eqb (OPFMetadata.Title m) "" then []
          else [elem dc "title" [] [xml.CharData (OPFMetadata.Title m)]])
         ++ [elem dc "language" [] [xml.CharData "en"]]
         ++ (if String.eqb (OPFMetadata.Creator m) "" then []
             else [elem dc "creator" [] [xml.CharData (OPFMetadata.Creator m)]]));
      elem opf_ns "manifest" [] (map item_doc (OPFPackage.Manifest pkg));
      elem opf_ns "spine" [] (map itemref_doc (OPFPackage.Spine pkg)) ].

(** The readers on the documents of the example: the upload is the
    archive above, the container declares [OEBPS/content.opf] as its
    only rootfile, and the package document is that of [pkg]. *)
Definition codecs (pkg : OPFPackage.t) : Codecs :=
  {| zip_Reader := λ data,
       if String.eqb data "book.epub bytes" then Some archive else None;
     xml_Decoder := λ data,
       if String.eqb data "container.xml" then Some container_doc
       else if String.eqb data "content.opf" then Some (package_doc pkg)
       else None |}.

Definition upload : reader := mkReader "book.epub bytes" false.
Definition header : FileHeader := mkFileHeader "book.epub" 204800.

(** No disk failure, and the clock at [t]. *)
Definition env (t : Z) : Env := mkEnv t (λ _, false) (λ _, false).

Definition world0 : World := mkWorld ∅ (NewStore "data/books").

(** Two instants, about nine seconds apart. *)
Definition t1 : Z := 1793520007071756000.
Definition t2 : Z := 1793520015975605000.

Definition id1 : string := "41983bc5e4c8".

Section run.
Context {sorter : SortSlice}.

(** One upload of the book, at [t], into world [w]. *)
Definition run (pkg : OPFPackage.t) (t : Z) (w : World)
  : Outcome (string * BookInfo.t) :=
  @ingest (codecs pkg) sorter (env t) upload header w.

End run.

(** The record cataloged for the book under identifier [id]. *)
Definition record (id : string) (pkg : OPFPackage.t) : BookInfo.t :=
  book_record id ("data/books/" +:+ id +:+ "/unpacked") "OEBPS/content.opf"
    pkg [NavItem.mk "chap1.xhtml" "Chapter 1"].

(** The identifier at the instant after [t1]. *)
Definition id1' : string := "4e9554d00b48".

(** A manifest with no candidate: the names differ in case. *)
Definition no_candidate : OPFPackage.t :=
  OPFPackage.mk (OPFMetadata.mk "" "")
    [ OPFItem.mk "n" "NAV.XHTML" chapter_type;
      OPFItem.mk "t" "Toc.html" chapter_type ]
    [].

(** A manifest with three candidates for the navigation document. *)
Definition three_candidates : OPFPackage.t :=
  OPFPackage.mk (OPFMetadata.mk "" "")
    [ OPFItem.mk "t" "text/toc-extra.xhtml" chapter_type;
      OPFItem.mk "n" "nav.xhtml" chapter_type;
      OPFItem.mk "c" "chap1.xhtml" chapter_type;
      OPFItem.mk "x" "toc.ncx" "application/x-dtbncx+xml" ]
    [].

End Demo.

(* ================================================================== *)
(** * The handlers around the store *)
(* ================================================================== *)

(** The backslash byte, written by its code. *)
Definition bs : ascii := ascii_of_nat 92.
Definition bss : string := String bs "".

(** store.go:405-409. *)
Definition jsonEscape (s : string) : string :=
  let s := GoStrings.ReplaceAll s bss (bss +:+ bss) in
  let s := GoStrings.ReplaceAll s dqs (bss +:+ dqs) in
  s.

(** A string between double quotes. *)
Definition quoted (s : string) : string := dqs +:+ s +:+ dqs.

(** store.go:115: [fmt.Sprintf] with the format of the upload response;
    the identifier is written as it is, title and author escaped. *)
Definition upload_body (id : string) (info : BookInfo.t) : string :=
  "{" +:+ quoted "id" +:+ ":" +:+ quoted id
  +:+ "," +:+ quoted "title" +:+ ":" +:+ quoted (jsonEscape (BookInfo.Title info))
  +:+ "," +:+ quoted "author" +:+ ":"
  +:+ quoted (jsonEscape (BookInfo.Author info)) +:+ "}".

(** What [r.ParseMultipartForm] and [r.FormFile] make of a request: an
    error with its text, a form without a part named [file], or that
    part with its header. *)
Inductive form : Type :=
| FormError (msg : string)
| FormNoFile
| FormFile (file : reader) (header : FileHeader).

(** What a handler answers: [http.Error] with status 400 and the text of
    an error ([inl]: the text of that error of [ingest]), [http.NotFound],
    a JSON body, or the file that [http.ServeFile] is given. *)
Inductive response : Type :=
| BadRequest (msg : error + string)
| NotFound
| OK (body : string)
| ServeFile (path : string).

(** [v, err := m]: the error becomes a value. *)
Definition catch {A} (m : M A) : M (error + A) := λ w,
  let o := m w in mkOutcome (inr (res o)) (final o) (seen o).

Section handlers.
Context {codecs : Codecs} {sorter : SortSlice}.

(** store.go:96-116. *)
Definition UploadEPUB (env : Env) (f : form) : M response :=
  match f with
  | FormError msg => mret (BadRequest (inr msg))
  | FormNoFile => mret (BadRequest (inr "missing file field"))
  | FormFile file header =>
    r ← catch (ingest env file header);
    match r with
    | inl err => mret (BadRequest (inl err))
    | inr (id, info) => mret (OK (upload_body id info))
    end
  end.

(** main.go, the handler of [/api/books/{id}/file/]: [id] is the
    variable of the route and [urlPath] is [r.URL.Path], which the
    route has matched, so that it is at least as long as the prefix. *)
Definition file_handler (s : Store) (id urlPath : string) : response :=
  match GetBookByID s id with
  | None => NotFound
  | Some book =>
    let prefix := "/api/books/" +:+ id +:+ "/file/" in
    let rel := Str.drop (String.length prefix) urlPath in
    let p := filepath_Join [BookInfo.RootFS book; rel] in
    ServeFile p
  end.

End handlers.

(* ================================================================== *)
(** * The reader page (App.tsx): choice of the chapter *)
(* ================================================================== *)

Module App.

(** The state of the page that the chapter handlers read and write. *)
Record state := mkState {
  activeId : option string;
  spine : list SpineItem.t;
  toc : option NavDoc.t;
  chapterUrl : option string }.

Definition setChapterUrl (st : state) (url : string) : state :=
  mkState (activeId st) (spine st) (toc st) (Some url).

(** A string or null used as a condition: null and the empty string
    count as false. *)
Definition truthy (s : option string) : bool :=
  match s with
  | Some (String _ _) => true
  | _ => false
  end.

(** The template [`${API}/api/books/${activeId}/file/${href}`]. *)
Definition fileUrl (API id href : string) : string :=
  API +:+ "/api/books/" +:+ id +:+ "/file/" +:+ href.

(** [Array.prototype.findIndex]: the first index at which the test
    holds, or [-1]. *)
Fixpoint findIndex {A} (test : A → bool) (l : list A) : Z :=
  match l with
  | [] => -1
  | x :: r =>
    if test x then 0
    else let i := findIndex test r in if i <? 0 then -1 else i + 1
  end.

(** [spine[i].href]. *)
Definition href_at (sp : list SpineItem.t) (i : Z) : string :=
  SpineItem.Href (nth (Z.to_nat i) sp (SpineItem.mk "" "" "" "")).

(** [openFirst]. *)
Definition openFirst (API : string) (st : state) : state :=
  if negb (truthy (activeId st)) || (List.length (spine st) =? 0)%nat then st
  else
    let href := href_at (spine st) 0 in
    setChapterUrl st (fileUrl API (default "" (activeId st)) href).

(** The index of the chapter shown, as the buttons compute it. *)
Definition shown (API : string) (st : state) : Z :=
  findIndex
    (λ s, String.eqb (fileUrl API (default "" (activeId st)) (SpineItem.Href s))
            (default "" (chapterUrl st)))
    (spine st).

(** The buttons are there when [activeId && chapterUrl]. *)
Definition has_buttons (st : state) : bool :=
  truthy (activeId st) && truthy (chapterUrl st).

(** The handler of the button Prev. *)
Definition prev (API : string) (st : state) : state :=
  if negb (has_buttons st) then st
  else
    let idx := shown API st in
    if 0 <? idx
    then setChapterUrl st
           (fileUrl API (default "" (activeId st)) (href_at (spine st) (idx - 1)))
    else st.

(** The handler of the button Next. *)
Definition next (API : string) (st : state) : state :=
  if negb (has_buttons st) then st
  else
    let idx := shown API st in
    if (0 <=? idx) && (idx <? Z.of_nat (List.length (spine st)) - 1)
    then setChapterUrl st
           (fileUrl API (default "" (activeId st)) (href_at (spine st) (idx + 1)))
    else st.

(** [spine[0]?.href + href]: an undefined operand of [+] is written
    [undefined]. *)
Definition first_href_plus (sp : list SpineItem.t) (href : string) : string :=
  match sp with
  | s :: _ => SpineItem.Href s +:+ href
  | [] => "undefined" +:+ href
  end.

(** The handler of an entry of the table of contents, which is there
    when [activeId && toc && toc.items.length > 0]. *)
Definition openEntry (API : string) (st : state) (i : NavItem.t) : state :=
  if negb (truthy (activeId st)) then st
  else
    let target :=
      if GoStrings.HasPrefix (NavItem.Href i) "#"
      then first_href_plus (spine st) (NavItem.Href i)
      else NavItem.Href i in
    setChapterUrl st (fileUrl API (default "" (activeId st)) target).

End App.

(* ================================================================== *)
(** * Specification-side definitions for the handlers *)
(* ================================================================== *)

Module JsonSpec.

(** The escape of one byte: a backslash before a backslash and before
    a double quote, any other byte as it is. *)
Definition esc_byte (c : ascii) : string :=
  if Ascii.eqb c bs then String bs (String bs "")
  else if Ascii.eqb c dq then String bs (String dq "")
  else String c "".

(** Byte by byte. *)
Fixpoint escaped (s : string) : string :=
  match s with
  | EmptyString => EmptyString
  | String c r => esc_byte c +:+ escaped r
  end.

(** A reader of a JSON string from after its opening quote: the text
    up to the closing quote, with the escapes of the backslash and of
    the double quote undone, and what follows the closing quote. *)
Fixpoint read_string (s : string) : option (string * string) :=
  match s with
  | EmptyString => None
  | String c r =>
    if Ascii.eqb c dq then Some (EmptyString, r)
    else if Ascii.eqb c bs then
      match r with
      | String d r' =>
        if Ascii.eqb d dq || Ascii.eqb d bs
        then match read_string r' with
             | Some (v, rest) => Some (String d v, rest)
             | None => None
             end
        else None
      | EmptyString => None
      end
    else match read_string r with
         | Some (v, rest) => Some (String c v, rest)
         | None => None
         end
  end.

(** [s] without the prefix [p], when it has it. *)
Definition expect (p s : string) : option string :=
  if GoStrings.HasPrefix s p then Some (Str.drop (String.length p) s)
  else None.

(** A reader of the upload response: the three members in order. *)
Definition read_upload (body : string) : option (string * string * string) :=
  match expect ("{" +:+ quoted "id" +:+ ":" +:+ dqs) body with
  | None => None
  | Some s =>
  match read_string s with
  | None => None
  | Some (id, s) =>
  match expect ("," +:+ quoted "title" +:+ ":" +:+ dqs) s with
  | None => None
  | Some s =>
  match read_string s with
  | None => None
  | Some (title, s) =>
  match expect ("," +:+ quoted "author" +:+ ":" +:+ dqs) s with
  | None => None
  | Some s =>
  match read_string s with
  | None => None
  | Some (author, s) =>
    if String.eqb s "}" then Some (id, title, author) else None
  end end end end end end.

(** A control byte: below the space. *)
Definition control (c : ascii) : bool := (N_of_ascii c <? 32)%N.

(** The bytes between the quotes of a JSON string: no control byte,
    no double quote but after a backslash, and every backslash
    followed by one of the bytes an escape may begin with (for [u],
    four hexadecimal digits are not asked for). *)
Fixpoint string_body (s : string) : bool :=
  match s with
  | EmptyString => true
  | String c r =>
    if Ascii.eqb c bs then
      match r with
      | String d r' =>
        match String.index 0 (String d "") (String dq (String bs "/bfnrtu")) with
        | Some _ => string_body r'
        | None => false
        end
      | EmptyString => false
      end
    else negb (Ascii.eqb c dq) && negb (control c) && string_body r
  end.

End JsonSpec.

(** No byte of [s] is [c]. *)
Definition without (c : ascii) (s : string) : bool :=
  all_chars (λ d, negb (Ascii.eqb d c)) s.

(** ** Extraction of an archive *)

(** Where [unzipFile] writes an entry. *)
Definition entry_path (dest : string) (f : zipFile) : string :=
  filepath_Join [dest; Name f].

(** The bytes of an entry that opens. *)
Definition entry_bytes (f : zipFile) : string :=
  match Open f with
  | Some rc => bytes rc
  | None => ""
  end.

(** An entry [unzipFile] gets past: a directory, or a regular entry
    whose parent directory can be made, which opens, whose file can be
    created, and which is read to its end. *)
Definition entry_ok (env : Env) (dest : string) (f : zipFile) : bool :=
  IsDir f
  || (negb (mkdir_fails env (GoPath.Dir (entry_path dest f)))
      && match Open f with
         | Some rc => negb (fails rc)
         | None => false
         end
      && negb (create_fails env (entry_path dest f))).

(** What the entries of an archive have written at [path]: the bytes of
    the last regular entry whose place it is, if there is one. *)
Definition written (dest : string) (files : list zipFile) (path : string)
  : option string :=
  match find (λ f, negb (IsDir f) && String.eqb (entry_path dest f) path)
          (rev files) with
  | Some f => Some (entry_bytes f)
  | None => None
  end.

(** The disk once the entries have been written over [d]. *)
Definition extracted (dest : string) (files : list zipFile)
    (d : gmap string string) (path : string) : option string :=
  match written dest files path with
  | Some b => Some b
  | None => d !! path
  end.

(** What the loop of [unzipFile] writes for one entry: the bytes of a
    regular entry that opens, once its parent directory and its file
    are made, even when reading it then fails. *)
Definition write_entry (env : Env) (dest : string) (f : zipFile)
    (d : gmap string string) : gmap string string :=
  if IsDir f then d
  else if mkdir_fails env (GoPath.Dir (entry_path dest f)) then d
  else match Open f with
       | None => d
       | Some rc =>
         if create_fails env (entry_path dest f) then d
         else <[entry_path dest f := bytes rc]> d
       end.


(** ** Joined paths *)

Module JoinSpec.
Import GoPath.

(** The output stack of the scan of [Clean] over a path, last element
    first. *)
Definition stack (rooted : bool) (p : string) : list string :=
  fold_left (clean_step rooted) (elems p) [].

(** The path [Clean] writes for an output stack. *)
Definition render (rooted : bool) (out : list string) : string :=
  if rooted then String slash (join_elems (rev out))
  else match out with
       | [] => "."
       | _ => join_elems (rev out)
       end.

(** The stack of a base directory; an empty base counts for nothing in
    a join. *)
Definition base_stack (b : string) : list string :=
  if Str.is_empty b then [] else stack (is_rooted b) b.

(** What [Join] cleans for a base and a non-empty element. *)
Definition joined (b e : string) : string :=
  if Str.is_empty b then e else b +:+ String slash e.

(** A relative path that stays below where it is joined: every one of
    its elements is ordinary. *)
Definition below (rel : string) : bool :=
  forallb PathSpec.ordinary (elems rel).

End JoinSpec.

(** ** The catalog over time *)

Section CatalogSpec.
Context {codecs : Codecs} {sorter : SortSlice}.

(** The worlds the server can be in: [main] makes the store, empty,
    with its root directory; the store then changes by [ingest] only;
    the disk may hold and come to hold anything. *)
Inductive reachable (root : string) : World → Prop :=
| reach_new d : reachable root (mkWorld d (NewStore root))
| reach_ingest env file header w :
    reachable root w → reachable root (final (ingest env file header w))
| reach_disk d w : reachable root w → reachable root (mkWorld d (store w)).

(** Every record is filed under its own identifier, which has the
    shape of an identifier, and has its root where [ingest] unpacks the
    book of that identifier. *)
Definition filed (s : Store) : Prop :=
  ∀ id b, books s !! id = Some b →
    BookInfo.ID b = id
    ∧ String.length id = 12%nat
    ∧ all_chars is_lower_hex id = true
    ∧ BookInfo.RootFS b = unpacked_root s id.

(** The identifier of a listed record. *)
Definition listed_id (r : string * string * string * string) : string :=
  r.1.1.1.

End CatalogSpec.

(** ** Text without markup *)

(** A byte that is neither of the angle brackets. *)
Definition not_angle (c : ascii) : bool :=
  negb (Ascii.eqb c "<") && negb (Ascii.eqb c ">").

(** An entry of a table of contents as [extractNav] lets it through: an
    href that is not empty and holds no double quote, a text that is not
    empty and holds no angle bracket. *)
Definition entry_clean (i : NavItem.t) : Prop :=
  NavItem.Href i ≠ ""
  ∧ without dq (NavItem.Href i) = true
  ∧ NavItem.Text i ≠ ""
  ∧ all_chars not_angle (NavItem.Text i) = true.

(** ** More of the worked example *)

Module Demo2.

(** The readers of the example, on a given archive. *)
Definition codecs (files : list zipFile) (pkg : OPFPackage.t) : Codecs :=
  {| zip_Reader := λ data,
       if String.eqb data "book.epub bytes" then Some files else None;
     xml_Decoder := @xml_Decoder (Demo.codecs pkg) |}.


(** An entry that does not open. *)
Definition unreadable : zipFile := mkZipFile "OEBPS/broken.xhtml" false None.

Definition first_entries : list zipFile :=
  [ Demo.file "mimetype" "application/epub+zip";
    mkZipFile "OEBPS/" true None ].

Definition last_entries : list zipFile :=
  [ Demo.file "OEBPS/late.xhtml" "late" ].

(** A world with the archive of the example stored at [in.zip]. *)
Definition stored : World :=
  mkWorld {[ "in.zip" := "book.epub bytes" ]} (NewStore "data/books").

Definition pkg : OPFPackage.t := Demo.package Demo.spine1.

Definition chapter : string := "<html><body>Call me Ishmael.</body></html>".

(** The page with the book of the example chosen: a spine of three
    chapters, and the table of contents as cataloged. *)
Definition page : App.state :=
  App.mkState (Some Demo.id1)
    [ SpineItem.mk "c1" "OEBPS/chap1.xhtml" Demo.chapter_type "";
      SpineItem.mk "c2" "OEBPS/chap2.xhtml" Demo.chapter_type "";
      SpineItem.mk "c3" "OEBPS/chap3.xhtml" Demo.chapter_type "" ]
    (Some (NavDoc.mk [NavItem.mk "chap1.xhtml" "Chapter 1"]))
    None.

Definition API : string := "http://localhost:8080".

(** A record whose manifest has two items with the identifier [c1]. *)
Definition twice : BookInfo.t :=
  BookInfo.mk "0123456789ab" "" "" "OEBPS/content.opf"
    "data/books/0123456789ab/unpacked"
    (OPFPackage.mk (OPFMetadata.mk "" "")
       [ OPFItem.mk "c1" "old.xhtml" Demo.chapter_type;
         OPFItem.mk "c1" "new.xhtml" Demo.chapter_type;
         Demo.nav ]
       [ OPFItemref.mk "c1" ])
    (NavDoc.mk []).

Definition shelf : Store :=
  mkStore "data/books" {[ "0123456789ab" := twice ]}.

End Demo2.

(** ** Manifest and spine, as the package document declares them *)

Module PackageSpec.

(** The elements [child] directly inside an element [parent] directly
    inside the root of [doc], in document order. *)
Definition at_path (parent child : string) (doc : xml.Node) : list xml.Node :=
  flat_map (λ r, DocSpec.elements "" child (content_of r))
    (DocSpec.elements "" parent (content_of doc)).

(** The manifest item an [item] element declares: an attribute that is
    not there gives the empty string. *)
Definition declared_item (n : xml.Node) : OPFItem.t :=
  OPFItem.mk (DocSpec.attribute "id" n) (DocSpec.attribute "href" n)
    (DocSpec.attribute "media-type" n).

Definition declared_itemref (n : xml.Node) : OPFItemref.t :=
  OPFItemref.mk (DocSpec.attribute "idref" n).

End PackageSpec.

(** ** Trimmed text *)

Module TrimSpec.

(** The first rune of the text, as Go decodes it, is white space. *)
Definition starts_with_space (s : string) : bool :=
  utf8.IsSpace (fst (utf8.DecodeRuneInString s)).

(** The last rune of the text, as Go decodes it, is white space. *)
Definition ends_with_space (s : string) : bool :=
  utf8.IsSpace (fst (utf8.DecodeLastRuneInString s)).

(** A text with no white space at either end. *)
Definition trimmed (s : string) : bool :=
  negb (starts_with_space s) && negb (ends_with_space s).

End TrimSpec.

(** ** Well-formed text *)

Module Utf8Spec.

(** A Unicode scalar value: at most [U+10FFFF] and not a surrogate. *)
Definition valid_rune (r : N) : bool :=
  ((r <=? 0x10FFFF) && negb (utf8.in_range 0xD800 0xDFFF r))%N.

(** [f] holds of every number below [n]. *)
Fixpoint all_below (n : nat) (f : N → bool) : bool :=
  match n with
  | O => true
  | S k => f (N.of_nat k) && all_below k f
  end.

(** The entry of the table [first] for a leading byte is that of a
    sequence of [sz] bytes whose second byte [b1] it accepts. *)
Definition leads (sz : nat) (b0 b1 : N) : bool :=
  negb (b0 <? utf8.RuneSelf)%N
  && match utf8.first b0 with
     | Some (sz', lo, hi) => (sz' =? sz)%nat && utf8.in_range lo hi b1
     | None => false
     end.

(** The byte written for a number. *)
Definition wr (x : N) : N := (x mod 256)%N.

End Utf8Spec.

(* ================================================================== *)
(** * Properties *)
(* ================================================================== *)

(** ** Byte strings *)


Lemma app_cons_str (c : ascii) (s t : string) :
  String c s +:+ t = String c (s +:+ t).
Proof. reflexivity. Qed.






Lemma is_empty_true (s : string) : Str.is_empty s = true ↔ s = "".
Proof. destruct s; simpl; split; congruence. Qed.

(** ** path.Clean *)

Module PathFacts.
Import GoPath PathSpec.


Lemma elems_no_slash s : Forall (λ e, no_slash e = true) (elems s).
Proof.
  induction s as [|c r IH]; simpl.
  - repeat constructor.
  - destruct (Ascii.eqb c slash) eqn:E.
    + constructor; [reflexivity | exact IH].
    + destruct (elems r) as [|e es].
      * repeat constructor. simpl. rewrite E. reflexivity.
      * inversion IH as [|? ? He Hes]; subst.
        constructor; [simpl; rewrite E, He; reflexivity | exact Hes].
Qed.

Lemma elems_single e : no_slash e = true → elems e = [e].
Proof.
  induction e as [|c r IH]; simpl; [reflexivity|].
  intros [Hc Hr]%andb_true_iff.
  apply negb_true_iff in Hc. rewrite Hc, (IH Hr). reflexivity.
Qed.

Lemma elems_app_slash e rest :
  no_slash e = true →
  elems (e +:+ String slash rest) = e :: elems rest.
Proof.
  induction e as [|c r IH]; intros H.
  - reflexivity.
  - simpl in H. apply andb_true_iff in H as [Hc Hr].
    apply negb_true_iff in Hc.
    rewrite app_cons_str. simpl. rewrite Hc, (IH Hr). reflexivity.
Qed.

Lemma elems_join l :
  l ≠ [] → Forall (λ e, no_slash e = true) l → elems (join_elems l) = l.
Proof.
  induction l as [|e rest IH]; intros Hne Hall; [congruence|].
  inversion Hall as [|? ? He Hrest]; subst.
  destruct rest as [|e' rest'].
  - simpl. apply elems_single, He.
  - change (join_elems (e :: e' :: rest'))
      with (e +:+ String slash (join_elems (e' :: rest'))).
    rewrite elems_app_slash by exact He.
    rewrite IH; [reflexivity | discriminate | exact Hrest].
Qed.

Lemma ordinary_not_dotdot e : ordinary e = true → is_dotdot e = false.
Proof.
  unfold ordinary. intros H. apply andb_true_iff in H as [_ H].
  apply negb_true_iff in H. exact H.
Qed.

Lemma ordinary_step rooted out e :
  ordinary e = true → clean_step rooted out e = e :: out.
Proof.
  unfold ordinary, clean_step. intros H.
  apply andb_true_iff in H as [H H3]. apply andb_true_iff in H as [H1 H2].
  apply negb_true_iff in H1, H2, H3. rewrite H1, H2, H3. reflexivity.
Qed.

Lemma step_cases e :
  String.eqb e "" = true ∨ String.eqb e "." = true ∨ is_dotdot e = true
  ∨ ordinary e = true.
Proof.
  unfold ordinary.
  destruct (String.eqb e ""), (String.eqb e "."), (is_dotdot e); simpl; auto.
Qed.

Lemma clean_step_dotdot rooted out :
  clean_step rooted out ".." =
  match out with
  | top :: rest =>
    if negb (is_dotdot top) then rest
    else if negb rooted then ".." :: out else out
  | [] => if negb rooted then [".."] else out
  end.
Proof. reflexivity. Qed.

Lemma clean_step_ok rooted out e :
  stack_ok rooted out → stack_ok rooted (clean_step rooted out e).
Proof.
  intros (ords & k & -> & Hord & Hk).
  destruct (step_cases e) as [H|[H|[H|H]]].
  - unfold clean_step. rewrite H. exists ords, k. auto.
  - unfold clean_step. rewrite H.
    destruct (String.eqb e ""); exists ords, k; auto.
  - assert (He : e = "..") by (apply String.eqb_eq; exact H). subst e.
    rewrite clean_step_dotdot.
    destruct ords as [|top rest].
    + destruct k as [|k]; destruct rooted; simpl.
      * exists [], 0%nat. auto.
      * exists [], 1%nat. repeat split; auto. discriminate.
      * exists [], (S k). auto.
      * exists [], (S (S k)). repeat split; auto. discriminate.
    + inversion Hord as [|? ? Htop Hrest]; subst.
      change ((top :: rest) ++ repeat ".." k)
        with (top :: (rest ++ repeat ".." k)).
      cbv beta iota. rewrite (ordinary_not_dotdot _ Htop). simpl.
      exists rest, k. auto.
  - rewrite ordinary_step by exact H.
    exists (e :: ords), k. repeat split; auto.
Qed.

Lemma fold_clean_ok rooted es out :
  stack_ok rooted out → stack_ok rooted (fold_left (clean_step rooted) es out).
Proof.
  revert out. induction es as [|e es IH]; intros out H; simpl; [exact H|].
  apply IH, clean_step_ok, H.
Qed.

Lemma stack_ok_nil rooted : stack_ok rooted [].
Proof. exists [], 0%nat. repeat split; auto. Qed.

Lemma clean_step_no_slash rooted out e :
  no_slash e = true →
  Forall (λ x, no_slash x = true) out →
  Forall (λ x, no_slash x = true) (clean_step rooted out e).
Proof.
  intros He Hout. unfold clean_step.
  destruct (String.eqb e ""); [exact Hout|].
  destruct (String.eqb e "."); [exact Hout|].
  destruct (is_dotdot e).
  - destruct out as [|top rest].
    + destruct (negb rooted); [repeat constructor; exact He | exact Hout].
    + inversion Hout; subst.
      destruct (negb (is_dotdot top)); [assumption|].
      destruct (negb rooted); [constructor; assumption | exact Hout].
  - constructor; assumption.
Qed.

Lemma fold_clean_no_slash rooted es out :
  Forall (λ x, no_slash x = true) es →
  Forall (λ x, no_slash x = true) out →
  Forall (λ x, no_slash x = true) (fold_left (clean_step rooted) es out).
Proof.
  revert out. induction es as [|e es IH]; intros out Hes Hout; simpl.
  - exact Hout.
  - inversion Hes; subst. apply IH; [assumption|].
    apply clean_step_no_slash; assumption.
Qed.

Lemma rev_repeat_eq {A} (x : A) k : rev (repeat x k) = repeat x k.
Proof.
  induction k as [|k IH]; [reflexivity|].
  simpl. rewrite IH. symmetry. apply repeat_cons.
Qed.

(** What [Clean] returns on a non-empty path. *)
Lemma Clean_shape p :
  p ≠ "" →
  ∃ ords k,
    Forall (λ e, ordinary e = true) ords
    ∧ Forall (λ e, no_slash e = true) ords
    ∧ (is_rooted p = true → k = 0%nat)
    ∧ Clean p =
      if is_rooted p then String slash (join_elems ords)
      else match repeat ".." k ++ ords with
           | [] => "."
           | l => join_elems l
           end.
Proof.
  intros Hne. unfold Clean.
  destruct (Str.is_empty p) eqn:E; [apply is_empty_true in E; congruence|].
  pose proof (fold_clean_ok (is_rooted p) (elems p) [] (stack_ok_nil _))
    as (ords & k & Hout & Hord & Hk).
  pose proof (fold_clean_no_slash (is_rooted p) (elems p) []
                (elems_no_slash p) ltac:(constructor)) as Hns.
  rewrite Hout in Hns |- *.
  apply Forall_app in Hns as [Hns _].
  exists (rev ords), k. repeat split.
  - apply Forall_rev, Hord.
  - apply Forall_rev, Hns.
  - exact Hk.
  - rewrite rev_app_distr, rev_repeat_eq.
    destruct (is_rooted p) eqn:R.
    + rewrite (Hk eq_refl). reflexivity.
    + destruct (ords ++ repeat ".." k) eqn:E1.
      * apply app_eq_nil in E1 as [-> E2]. rewrite E2. reflexivity.
      * destruct (repeat ".." k ++ rev ords) eqn:E2; [|reflexivity].
        apply app_eq_nil in E2 as [E2 E3].
        apply (f_equal (@rev string)) in E3. rewrite rev_involutive in E3.
        simpl in E3. subst ords. rewrite E2 in E1. discriminate.
Qed.

Lemma join_head_not_rooted e rest :
  e ≠ "" → no_slash e = true → is_rooted (join_elems (e :: rest)) = false.
Proof.
  intros He Hs. destruct e as [|c r]; [congruence|].
  simpl in Hs. apply andb_true_iff in Hs as [Hc _].
  apply negb_true_iff in Hc.
  destruct rest; simpl; exact Hc.
Qed.

Lemma join_head_not_empty e rest :
  e ≠ "" → join_elems (e :: rest) ≠ "".
Proof.
  intros He. destruct e as [|c r]; [congruence|].
  destruct rest; simpl; discriminate.
Qed.

Lemma ordinary_not_empty e : ordinary e = true → e ≠ "".
Proof. intros H ->. discriminate. Qed.

Lemma drop_dotdots_run k ords :
  Forall (λ e, ordinary e = true) ords →
  drop_dotdots (repeat ".." k ++ ords) = ords.
Proof.
  intros H. induction k as [|k IH]; simpl.
  - destruct ords as [|e r]; [reflexivity|].
    inversion H; subst. simpl.
    rewrite ordinary_not_dotdot by assumption. reflexivity.
  - exact IH.
Qed.

Lemma Forall_forallb {A} (f : A → bool) l :
  Forall (λ x, f x = true) l → forallb f l = true.
Proof.
  induction 1 as [|x l Hx _ IH]; [reflexivity|].
  simpl. rewrite Hx, IH. reflexivity.
Qed.

Lemma run_head k ords e l :
  Forall (λ e, ordinary e = true) ords →
  Forall (λ e, no_slash e = true) ords →
  repeat ".." k ++ ords = e :: l →
  e ≠ "" ∧ no_slash e = true
  ∧ Forall (λ e, no_slash e = true) (e :: l).
Proof.
  intros Ho Hs E.
  assert (Hall : Forall (λ e, no_slash e = true) (repeat ".." k ++ ords)).
  { apply Forall_app. split; [|exact Hs].
    clear. induction k; simpl; constructor; [reflexivity | assumption]. }
  rewrite E in Hall. inversion Hall; subst. repeat split; try assumption.
  destruct k; simpl in E.
  - subst ords. inversion Ho; subst. apply ordinary_not_empty. assumption.
  - inversion E. discriminate.
Qed.

(** [Clean] returns a path in normal form. *)
Lemma Clean_normal_form p : normal_form (Clean p) = true.
Proof.
  destruct (decide (p = "")) as [->|Hne]; [reflexivity|].
  destruct (Clean_shape p Hne) as (ords & k & Ho & Hs & Hk & ->).
  unfold normal_form.
  destruct (is_rooted p).
  - simpl.
    destruct ords as [|e l]; [reflexivity|].
    rewrite elems_join; [|discriminate|exact Hs].
    rewrite (Forall_forallb _ _ Ho). apply orb_true_r.
  - destruct (repeat ".." k ++ ords) as [|e l] eqn:E; [reflexivity|].
    destruct (run_head _ _ _ _ Ho Hs E) as (He & Hse & Hall).
    rewrite (join_head_not_rooted e l He Hse).
    rewrite elems_join; [|discriminate|exact Hall].
    rewrite <- E, drop_dotdots_run by exact Ho.
    rewrite (Forall_forallb _ _ Ho). apply orb_true_r.
Qed.

Lemma fold_ordinary rooted l st :
  Forall (λ e, ordinary e = true) l →
  fold_left (clean_step rooted) l st = rev l ++ st.
Proof.
  revert st. induction l as [|e l IH]; intros st H; [reflexivity|].
  inversion H; subst. simpl.
  rewrite ordinary_step by assumption. rewrite IH by assumption.
  rewrite <- app_assoc. reflexivity.
Qed.

Lemma fold_dotdots k j :
  fold_left (clean_step false) (repeat ".." k) (repeat ".." j)
  = repeat ".." (k + j).
Proof.
  revert j. induction k as [|k IH]; intros j; [reflexivity|].
  simpl repeat. simpl fold_left.
  assert (E : clean_step false (repeat ".." j) ".." = repeat ".." (S j))
    by (destruct j; reflexivity).
  rewrite E, IH, Nat.add_succ_r. reflexivity.
Qed.

Lemma fold_dotdots_nil k :
  fold_left (clean_step false) (repeat ".." k) [] = repeat ".." k.
Proof.
  pose proof (fold_dotdots k 0) as H. rewrite Nat.add_0_r in H. exact H.
Qed.

(** [Clean] is idempotent. *)
Lemma Clean_idempotent p : Clean (Clean p) = Clean p.
Proof.
  destruct (decide (p = "")) as [->|Hne]; [reflexivity|].
  destruct (Clean_shape p Hne) as (ords & k & Ho & Hs & Hk & ->).
  destruct (is_rooted p).
  - unfold Clean at 1. cbn [Str.is_empty is_rooted].
    rewrite Ascii.eqb_refl.
    cbn [elems]. rewrite Ascii.eqb_refl. cbn [fold_left].
    change (clean_step true [] "") with (@nil string).
    destruct ords as [|e l]; [reflexivity|].
    rewrite elems_join; [|discriminate|exact Hs].
    rewrite fold_ordinary by exact Ho.
    rewrite app_nil_r, rev_involutive. reflexivity.
  - destruct (repeat ".." k ++ ords) as [|e l] eqn:E; [reflexivity|].
    destruct (run_head _ _ _ _ Ho Hs E) as (He & Hse & Hall).
    unfold Clean.
    destruct (Str.is_empty (join_elems (e :: l))) eqn:Em.
    { apply is_empty_true in Em. exfalso.
      exact (join_head_not_empty e l He Em). }
    rewrite (join_head_not_rooted e l He Hse).
    rewrite elems_join; [|discriminate|exact Hall].
    rewrite <- E. rewrite fold_left_app.
    rewrite fold_dotdots_nil. rewrite fold_ordinary by exact Ho.
    destruct (rev ords ++ repeat ".." k) eqn:E2.
    + apply app_eq_nil in E2 as [E2 E3].
      apply (f_equal (@rev string)) in E2. rewrite rev_involutive in E2.
      simpl in E2. subst ords. rewrite E3 in E. discriminate.
    + rewrite <- E2, rev_app_distr, rev_repeat_eq, rev_involutive.
      reflexivity.
Qed.

(** [Clean] never returns the empty string. *)
Lemma Clean_not_empty p : Clean p ≠ "".
Proof.
  intros H. pose proof (Clean_normal_form p) as N. rewrite H in N.
  discriminate.
Qed.

End PathFacts.

(** ** strings.Index, strings.Split and the scan of the navigation document *)

Module NavFacts.
Import GoStrings NavSpec.

Lemma HasPrefix_byte c s :
  HasPrefix s (String c "") =
  match s with
  | EmptyString => false
  | String d _ => Ascii.eqb c d
  end.
Proof.
  destruct s as [|d r]; simpl; [reflexivity|].
  destruct r; apply andb_true_r.
Qed.

Lemma Index_cons s sub :
  Index s sub =
  if HasPrefix s sub then 0
  else match s with
       | EmptyString => -1
       | String _ r => let i := Index r sub in if i <? 0 then -1 else i + 1
       end.
Proof. destruct s; reflexivity. Qed.

(** [Index] is [-1] or a position. *)
Lemma Index_range s sub : Index s sub = -1 ∨ 0 ≤ Index s sub.
Proof.
  induction s as [|d r IH]; rewrite Index_cons.
  - destruct (HasPrefix "" sub); [right; lia | left; reflexivity].
  - destruct (HasPrefix (String d r) sub); [right; lia|].
    cbv zeta. destruct (Index r sub <? 0) eqn:E; [left; reflexivity|].
    right. apply Z.ltb_ge in E. lia.
Qed.

Lemma to_nat_len pat : Z.to_nat (0 + Str.len pat) = String.length pat.
Proof. unfold Str.len. lia. Qed.

Lemma Index_after_first pat s :
  match after_first pat s with
  | None => Index s pat = -1
  | Some rest =>
    0 ≤ Index s pat ∧ rest = Str.drop (Z.to_nat (Index s pat + Str.len pat)) s
  end.
Proof.
  induction s as [|d r IH].
  - rewrite Index_cons. cbn [after_first].
    destruct (HasPrefix "" pat) eqn:E; [|reflexivity].
    split; [lia|]. rewrite to_nat_len. reflexivity.
  - rewrite Index_cons. cbn [after_first].
    destruct (HasPrefix (String d r) pat) eqn:E.
    + split; [lia|]. rewrite to_nat_len. reflexivity.
    + cbv zeta. destruct (after_first pat r) as [rest|].
      * destruct IH as [Hi ->].
        destruct (Index r pat <? 0) eqn:E2; [apply Z.ltb_lt in E2; lia|].
        split; [lia|].
        replace (Z.to_nat (Index r pat + 1 + Str.len pat))
          with (S (Z.to_nat (Index r pat + Str.len pat)))
          by (unfold Str.len; lia).
        reflexivity.
      * rewrite IH. reflexivity.
Qed.

Lemma Index_upto c s :
  match upto c s with
  | None => Index s (String c "") = -1
  | Some v =>
    0 ≤ Index s (String c "")
    ∧ v = Str.take (Z.to_nat (Index s (String c ""))) s
  end.
Proof.
  induction s as [|d r IH].
  - reflexivity.
  - rewrite Index_cons, HasPrefix_byte. cbn [upto].
    destruct (Ascii.eqb c d); [split; [lia | reflexivity]|].
    cbv zeta. destruct (upto c r) as [v|]; simpl option_map.
    + destruct IH as [Hi ->].
      destruct (Index r (String c "") <? 0) eqn:E2;
        [apply Z.ltb_lt in E2; lia|].
      split; [lia|].
      replace (Z.to_nat (Index r (String c "") + 1))
        with (S (Z.to_nat (Index r (String c "")))) by lia.
      reflexivity.
    + rewrite IH. reflexivity.
Qed.

(** [between] with the delimiters of [extractNav] picks the first href. *)
Lemma between_first_href line :
  between line ("href=" +:+ dqs) dqs = first_href line.
Proof.
  unfold between, first_href.
  pose proof (Index_after_first ("href=" +:+ dqs) line) as H1.
  destruct (after_first ("href=" +:+ dqs) line) as [rest|].
  - destruct H1 as [Hi Hrest].
    destruct (Index line ("href=" +:+ dqs) <? 0) eqn:E;
      [apply Z.ltb_lt in E; lia|].
    cbv zeta. rewrite <- Hrest.
    pose proof (Index_upto dq rest) as H2.
    fold dqs in H2.
    destruct (upto dq rest) as [v|].
    + destruct H2 as [Hj ->].
      destruct (Index rest dqs <? 0) eqn:E2;
        [apply Z.ltb_lt in E2; lia|].
      reflexivity.
    + rewrite H2. reflexivity.
  - rewrite H1. reflexivity.
Qed.

Lemma length_drop_str n s :
  String.length (Str.drop n s) = (String.length s - n)%nat.
Proof.
  revert s. induction n as [|n IH]; intros s.
  - simpl. lia.
  - destruct s as [|c r]; simpl; [reflexivity | apply IH].
Qed.

Lemma lines_index s :
  let i := Index s newline in
  (i = -1 → lines s = [s])
  ∧ (0 ≤ i →
     (Z.to_nat i < String.length s)%nat
     ∧ lines s
       = Str.take (Z.to_nat i) s :: lines (Str.drop (Z.to_nat (i + 1)) s)).
Proof.
  induction s as [|d r IH]; cbv zeta.
  - split; [reflexivity|]. intros H. exfalso. revert H. cbn. lia.
  - unfold newline in *. rewrite Index_cons, HasPrefix_byte.
    cbn [lines]. rewrite (Ascii.eqb_sym d).
    destruct (Ascii.eqb (ascii_of_nat 10) d).
    + split; [discriminate|]. intros _. split; [simpl; lia | reflexivity].
    + cbv zeta in IH |- *. destruct IH as [IH1 IH2].
      destruct (Index_range r (String (ascii_of_nat 10) "")) as [E|E].
      * rewrite E. split; [|intros H; exfalso; revert H; cbn; lia].
        intros _. rewrite (IH1 E). reflexivity.
      * destruct (Index r (String (ascii_of_nat 10) "") <? 0) eqn:E2;
          [apply Z.ltb_lt in E2; lia|].
        split; [lia|]. intros _.
        destruct (IH2 E) as [Hlt ->].
        set (i := Index r (String (ascii_of_nat 10) "")) in *.
        assert (A1 : Z.to_nat (i + 1) = S (Z.to_nat i)) by lia.
        assert (A2 : Z.to_nat (i + 1 + 1) = S (Z.to_nat (i + 1))) by lia.
        rewrite A2. cbn [Str.drop]. rewrite A1.
        split; [simpl; lia | reflexivity].
Qed.

(** The loop of [Split] has fuel enough, and cuts a text into its lines. *)
Lemma Split_loop_lines fuel s :
  (String.length s ≤ fuel)%nat → Split_loop fuel s newline = lines s.
Proof.
  revert s. induction fuel as [|f IH]; intros s Hlen.
  - destruct s; [reflexivity | simpl in Hlen; lia].
  - cbn [Split_loop]. cbv zeta.
    destruct (lines_index s) as [H1 H2].
    destruct (Index_range s newline) as [E|E].
    + rewrite E. cbn [Z.ltb Z.compare]. symmetry. apply H1, E.
    + destruct (Index s newline <? 0) eqn:E2; [apply Z.ltb_lt in E2; lia|].
      destruct (H2 E) as [Hlt ->].
      change (Str.len newline) with 1.
      rewrite IH; [reflexivity|].
      rewrite length_drop_str. lia.
Qed.

Lemma Split_lines t : Split t newline = lines t.
Proof. apply Split_loop_lines. lia. Qed.

Lemma fold_stripTags rs out b :
  fst (fold_left stripTags_step rs (out, b)) = out ++ text_outside b rs.
Proof.
  revert out b. induction rs as [|r rest IH]; intros out b.
  - simpl. rewrite app_nil_r. reflexivity.
  - cbn [fold_left text_outside]. unfold stripTags_step at 2.
    destruct (r =? lt_rune)%N; [apply IH|].
    destruct (r =? gt_rune)%N; [apply IH|].
    destruct b; cbn [negb].
    + apply IH.
    + rewrite IH, <- app_assoc. reflexivity.
Qed.

(** [stripTags] returns the visible text. *)
Lemma stripTags_visible s : stripTags s = visible_text s.
Proof.
  unfold stripTags, visible_text.
  pose proof (fold_stripTags (utf8.runes s) [] false) as H.
  destruct (fold_left stripTags_step (utf8.runes s) ([], false)) as [out b'].
  simpl in H. rewrite H. reflexivity.
Qed.

Lemma extractNav_step_spec items line :
  extractNav_step items line =
  items ++ (if emits (TrimSpace line) then [toc_entry (TrimSpace line)] else []).
Proof.
  unfold extractNav_step, emits, has_anchor, toc_entry.
  rewrite between_first_href, stripTags_visible.
  destruct (Contains (TrimSpace line) "<a "); cbn [negb andb].
  - destruct (negb (String.eqb (first_href (TrimSpace line)) "")
              && negb (String.eqb (visible_text (TrimSpace line)) ""));
      [reflexivity | rewrite app_nil_r; reflexivity].
  - rewrite app_nil_r. reflexivity.
Qed.

Lemma fold_extractNav ls items :
  fold_left extractNav_step ls items
  = items ++ map toc_entry (List.filter emits (map TrimSpace ls)).
Proof.
  revert items. induction ls as [|l ls IH]; intros items.
  - simpl. rewrite app_nil_r. reflexivity.
  - cbn [fold_left map List.filter]. rewrite IH, extractNav_step_spec.
    destruct (emits (TrimSpace l)).
    + rewrite <- app_assoc. reflexivity.
    + rewrite app_nil_r. reflexivity.
Qed.

Lemma scanNav_toc_of t : scanNav t = toc_of t.
Proof.
  unfold scanNav, toc_of. rewrite Split_lines, fold_extractNav. reflexivity.
Qed.

End NavFacts.

(** ** The monad of world-changing computations *)

Lemma run_bind {A B} (m : M A) (k : A → M B) w :
  (m ≫= k) w =
  match res (m w) with
  | inl e => mkOutcome (inl e) (final (m w)) (seen (m w))
  | inr a =>
    mkOutcome (res (k a (final (m w)))) (final (k a (final (m w))))
      (seen (m w) ++ seen (k a (final (m w))))
  end.
Proof. reflexivity. Qed.

Lemma outcome_eta {A} (o : Outcome A) : mkOutcome (res o) (final o) (seen o) = o.
Proof. destruct o; reflexivity. Qed.

Lemma world_eta (w : World) : mkWorld (disk w) (store w) = w.
Proof. destruct w; reflexivity. Qed.

Lemma bind_assoc {A B C} (m : M A) (k : A → M B) (k' : B → M C) w :
  ((m ≫= k) ≫= k') w = (m ≫= (λ a, k a ≫= k')) w.
Proof.
  rewrite !run_bind. destruct (res (m w)) as [e|a]; cbn [res final seen].
  - reflexivity.
  - rewrite run_bind.
    destruct (res (k a (final (m w)))) as [e|b]; cbn [res final seen].
    + reflexivity.
    + rewrite app_assoc. reflexivity.
Qed.

Lemma bind_ext {A B} (m : M A) (k k' : A → M B) w :
  (∀ a w', k a w' = k' a w') → (m ≫= k) w = (m ≫= k') w.
Proof. intros H. rewrite !run_bind. destruct (res (m w)); [|rewrite H]; reflexivity. Qed.

Lemma ret_bind {A B} (a : A) (k : A → M B) w : (mret a ≫= k) w = k a w.
Proof. rewrite run_bind. cbn. apply outcome_eta. Qed.

(** A bind that succeeds: both parts succeeded, one after the other. *)
Lemma bind_ok_inv {A B} (m : M A) (k : A → M B) w b :
  res ((m ≫= k) w) = inr b →
  ∃ a, res (m w) = inr a
       ∧ res (k a (final (m w))) = inr b
       ∧ final ((m ≫= k) w) = final (k a (final (m w))).
Proof.
  rewrite run_bind. destruct (res (m w)) as [e|a]; cbn [res final].
  - discriminate.
  - intros H. exists a. auto.
Qed.

Lemma quiet_ret {A} (a : A) : quiet (mret a : M A).
Proof. intros w. split; [reflexivity | constructor]. Qed.

Lemma quiet_fail {A} e : quiet (fail e : M A).
Proof. intros w. split; [reflexivity | constructor]. Qed.

Lemma quiet_bind {A B} (m : M A) (k : A → M B) :
  quiet m → (∀ a, quiet (k a)) → quiet (m ≫= k).
Proof.
  intros Hm Hk w. rewrite run_bind. destruct (Hm w) as [Hs Hseen].
  destruct (res (m w)) as [e|a]; cbn [res final seen].
  - split; assumption.
  - destruct (Hk a (final (m w))) as [Hs' Hseen']. split.
    + rewrite Hs'. exact Hs.
    + apply Forall_app. split; [exact Hseen|]. rewrite Hs in Hseen'. exact Hseen'.
Qed.

Lemma quiet_on_disk {A} (f : gmap string string → (error + A) * gmap string string) :
  quiet (on_disk f).
Proof.
  intros w. unfold on_disk, atomic. destruct (f (disk w)) as [r d].
  cbn. split; [reflexivity | repeat constructor].
Qed.

Lemma quiet_ignore_err {A} (d : A) (m : M A) : quiet m → quiet (ignore_err d m).
Proof. intros H w. exact (H w). Qed.

Lemma quiet_of_option {A} e (o : option A) : quiet (of_option e o).
Proof. destruct o; [apply quiet_ret | apply quiet_fail]. Qed.

Lemma quiet_get_rootDir : quiet get_rootDir.
Proof. intros w. split; [reflexivity | constructor]. Qed.

Lemma run_ReadFile p w :
  os_ReadFile p w =
  mkOutcome (match disk w !! p with
             | Some data => inr data
             | None => inl (ErrIO "read" p)
             end) w [books (store w)].
Proof.
  unfold os_ReadFile, on_disk, atomic.
  destruct (disk w !! p); cbn; rewrite world_eta; reflexivity.
Qed.

Section StoreFacts.
Context {codecs : Codecs} {sorter : SortSlice}.

Lemma quiet_unzip_loop env dest files : quiet (unzip_loop env dest files).
Proof.
  induction files as [|f rest IH]; cbn [unzip_loop].
  - apply quiet_ret.
  - destruct (IsDir f).
    + apply quiet_bind; [apply quiet_ignore_err, quiet_on_disk|].
      intros _. exact IH.
    + apply quiet_bind; [apply quiet_on_disk|]. intros _.
      apply quiet_bind; [apply quiet_of_option|]. intros rc.
      apply quiet_bind; [apply quiet_on_disk|]. intros _.
      apply quiet_bind; [apply quiet_on_disk|]. intros _. exact IH.
Qed.

Lemma quiet_unzipFile env zipPath dest : quiet (unzipFile env zipPath dest).
Proof.
  apply quiet_bind; [apply quiet_on_disk|]. intros data.
  apply quiet_bind; [apply quiet_of_option|]. intros files.
  apply quiet_unzip_loop.
Qed.

(** What [findRootfile] returns, case by case; it changes nothing. *)
Lemma run_findRootfile root w :
  let p := filepath_Join [root; "META-INF"; "container.xml"] in
  findRootfile root w =
  mkOutcome
    (match disk w !! p with
     | None => inl (ErrIO "read" p)
     | Some data =>
       match xml_Unmarshal_container data with
       | None => inl ErrXML
       | Some c =>
         match containerXML.Rootfiles c with
         | [] => inl ErrNoRootfile
         | r :: _ => inr (containerXML.FullPath r)
         end
       end
     end) w [books (store w)].
Proof.
  cbv zeta. unfold findRootfile. rewrite run_bind, run_ReadFile.
  cbn [res final seen].
  destruct (disk w !! _) as [data|]; [|reflexivity].
  rewrite run_bind.
  destruct (xml_Unmarshal_container data) as [c|]; cbn; [|reflexivity].
  destruct (containerXML.Rootfiles c) as [|r rest]; reflexivity.
Qed.

Lemma run_parseOPF path w :
  parseOPF path w =
  mkOutcome
    (match disk w !! path with
     | None => inl (ErrIO "read" path)
     | Some data =>
       match xml_Unmarshal_package data with
       | None => inl ErrXML
       | Some p => inr p
       end
     end) w [books (store w)].
Proof.
  unfold parseOPF. rewrite run_bind, run_ReadFile. cbn [res final seen].
  destruct (disk w !! path) as [data|]; [|reflexivity].
  destruct (xml_Unmarshal_package data); reflexivity.
Qed.

Lemma run_extractNav path w :
  extractNav path w =
  mkOutcome
    (match disk w !! path with
     | None => inl (ErrIO "read" path)
     | Some b => inr (scanNav b)
     end) w [books (store w)].
Proof.
  unfold extractNav. rewrite run_bind, run_ReadFile. cbn [res final seen].
  destruct (disk w !! path) as [data|]; reflexivity.
Qed.

Lemma quiet_of_run {A} (m : M A) :
  (∀ w, ∃ r, m w = mkOutcome r w [books (store w)]) → quiet m.
Proof.
  intros H w. destruct (H w) as [r ->]. cbn.
  split; [reflexivity | repeat constructor].
Qed.

Lemma quiet_findRootfile root : quiet (findRootfile root).
Proof. apply quiet_of_run. intros w. eexists. apply run_findRootfile. Qed.

Lemma quiet_parseOPF path : quiet (parseOPF path).
Proof. apply quiet_of_run. intros w. eexists. apply run_parseOPF. Qed.

Lemma quiet_ingest_parse env file header : quiet (ingest_parse env file header).
Proof.
  unfold ingest_parse.
  apply quiet_bind; [apply quiet_get_rootDir|]. intros rd.
  apply quiet_bind; [apply quiet_on_disk|]. intros _.
  apply quiet_bind; [apply quiet_on_disk|]. intros _.
  apply quiet_bind; [apply quiet_on_disk|]. intros _.
  apply quiet_bind; [apply quiet_unzipFile|]. intros _.
  apply quiet_bind; [apply quiet_findRootfile|]. intros rootfile.
  apply quiet_bind; [apply quiet_parseOPF|]. intros opf.
  apply quiet_ret.
Qed.

(** [ingest] is the parse stage followed by the navigation scan, the
    construction of the record and its insertion. *)
Lemma ingest_stages env file header w :
  ingest env file header w =
  (ingest_parse env file header
     ≫= ingest_finish (deriveID header (now env))) w.
Proof.
  symmetry. unfold ingest, ingest_parse.
  do 7 (rewrite bind_assoc; apply bind_ext; intros ? ?).
  rewrite ret_bind. reflexivity.
Qed.

(** The parse stage is the upload, then extraction, container location
    and package parsing. *)
Lemma ingest_parse_stages env file header w :
  ingest_parse env file header w =
  (ingest_upload env file header ≫= λ er,
     _ ← unzipFile env er.1 er.2;
     rootfile ← findRootfile er.2;
     opf ← parseOPF (filepath_Join [er.2; rootfile]);
     mret (er.2, rootfile, opf)) w.
Proof.
  symmetry. unfold ingest_parse, ingest_upload.
  do 4 (rewrite bind_assoc; apply bind_ext; intros ? ?).
  rewrite ret_bind. reflexivity.
Qed.

Lemma run_toc_stage root rootfile opf w :
  (let nav := findNavItem opf in
   if negb (String.eqb nav "") then
     ignore_err []
       (extractNav (filepath_Join [root; normJoin (GoPath.Dir rootfile) nav]))
   else mret []) w
  = mkOutcome (inr (toc_items (disk w) root rootfile opf)) w
      (if String.eqb (findNavItem opf) "" then [] else [books (store w)]).
Proof.
  cbv zeta. unfold toc_items, nav_path.
  destruct (String.eqb (findNavItem opf) ""); cbn [negb]; [reflexivity|].
  unfold ignore_err. rewrite run_extractNav. cbn [res final seen].
  destruct (disk w !! _); reflexivity.
Qed.

Lemma run_insert_book id info w :
  insert_book id info w =
  mkOutcome (inr tt)
    (mkWorld (disk w)
       (mkStore (rootDir (store w)) (<[id := info]> (books (store w)))))
    [<[id := info]> (books (store w))].
Proof. reflexivity. Qed.

(** What [ingest] does, from the outcome of its parse stage: an error of
    that stage is returned as it is, with the world of that stage; else
    the record is built and inserted, and that insertion is the last
    step and the only one that changes the catalog. *)
Lemma ingest_run env file header w :
  let id := deriveID header (now env) in
  let p := ingest_parse env file header w in
  let o := ingest env file header w in
  match res p with
  | inl e => o = mkOutcome (inl e) (final p) (seen p)
  | inr (root, rootfile, opf) =>
    let info :=
      book_record id root rootfile opf
        (toc_items (disk (final p)) root rootfile opf) in
    res o = inr (id, info)
    ∧ final o
      = mkWorld (disk (final p))
          (mkStore (rootDir (store w)) (<[id := info]> (books (store w))))
    ∧ ∃ mid,
        seen o = seen p ++ mid ++ [<[id := info]> (books (store w))]
        ∧ Forall (λ c, c = books (store w)) mid
  end.
Proof.
  cbv zeta. rewrite ingest_stages, run_bind.
  destruct (quiet_ingest_parse env file header w) as [Hst _].
  destruct (res (ingest_parse env file header w)) as [e|[[root rootfile] opf]].
  - reflexivity.
  - cbn [res final seen]. unfold ingest_finish.
    rewrite run_bind, run_toc_stage. cbn [res final seen].
    rewrite run_bind, run_insert_book.
    cbn [res final seen disk store books rootDir]. rewrite Hst.
    split; [reflexivity|]. split; [reflexivity|].
    eexists. split; [reflexivity|].
    destruct (String.eqb (findNavItem opf) ""); repeat constructor.
Qed.

Lemma run_io_Copy p r w :
  io_Copy p r w =
  mkOutcome (if fails r then inl (ErrIO "copy" p) else inr tt)
    (mkWorld (<[p := bytes r]> (disk w)) (store w))
    [books (store w)].
Proof. reflexivity. Qed.

Lemma unzipFile_ok env zipPath dest w u :
  res (unzipFile env zipPath dest w) = inr u →
  ∃ data files, disk w !! zipPath = Some data ∧ zip_Reader data = Some files.
Proof.
  unfold unzipFile. rewrite run_bind, run_ReadFile. cbn [res final seen].
  destruct (disk w !! zipPath) as [data|]; [|discriminate].
  rewrite run_bind.
  destruct (zip_Reader data) as [files|] eqn:E; [|discriminate].
  intros _. exists data, files. auto.
Qed.

Lemma final_findRootfile root w : final (findRootfile root w) = w.
Proof. rewrite run_findRootfile. reflexivity. Qed.

Lemma final_parseOPF path w : final (parseOPF path w) = w.
Proof. rewrite run_parseOPF. reflexivity. Qed.

Lemma findRootfile_ok root w rootfile :
  res (findRootfile root w) = inr rootfile →
  ∃ cdata c r rest,
    disk w !! filepath_Join [root; "META-INF"; "container.xml"] = Some cdata
    ∧ xml_Unmarshal_container cdata = Some c
    ∧ containerXML.Rootfiles c = r :: rest
    ∧ rootfile = containerXML.FullPath r.
Proof.
  rewrite run_findRootfile. cbn [res].
  destruct (disk w !! _) as [cdata|]; [|discriminate].
  destruct (xml_Unmarshal_container cdata) as [c|] eqn:Ex; [|discriminate].
  destruct (containerXML.Rootfiles c) as [|r rest] eqn:Er; [discriminate|].
  intros H. injection H as <-. exists cdata, c, r, rest. auto.
Qed.

Lemma parseOPF_ok path w opf :
  res (parseOPF path w) = inr opf →
  ∃ data, disk w !! path = Some data ∧ xml_Unmarshal_package data = Some opf.
Proof.
  rewrite run_parseOPF. cbn [res].
  destruct (disk w !! path) as [data|]; [|discriminate].
  destruct (xml_Unmarshal_package data) as [p|] eqn:Ex; [|discriminate].
  intros H. injection H as <-. exists data. auto.
Qed.

(** What a successful upload stage leaves: the archive at its path. *)
Lemma ingest_upload_ok env file header w epub root :
  res (ingest_upload env file header w) = inr (epub, root) →
  root = unpacked_root (store w) (deriveID header (now env))
  ∧ fails file = false
  ∧ disk (final (ingest_upload env file header w)) !! epub = Some (bytes file).
Proof.
  unfold ingest_upload. intros H.
  apply bind_ok_inv in H as (rd & E0 & H & F0). rewrite F0. clear F0.
  unfold get_rootDir in E0. cbn [res] in E0. injection E0 as <-.
  change (final (get_rootDir w)) with w in H |- *.
  apply bind_ok_inv in H as (u1 & _ & H & F1). rewrite F1. clear F1.
  apply bind_ok_inv in H as (u2 & _ & H & F2). rewrite F2. clear F2.
  apply bind_ok_inv in H as (u3 & E3 & H & F3). rewrite F3. clear F3.
  rewrite run_io_Copy in E3, H |- *. cbn [res final] in E3, H |- *.
  unfold mret, M_ret, ret in H |- *. cbn [res final disk] in H |- *.
  injection H as <- <-.
  split; [reflexivity|]. split.
  - destruct (fails file); [discriminate E3 | reflexivity].
  - apply lookup_insert_eq.
Qed.

(** What a successful parse stage has met: the upload was read to its
    end and is a zip archive; the container file of the unpacked tree
    decodes and declares a rootfile, the first of which is returned;
    the package document at that path decodes to the package returned. *)
Lemma ingest_parse_ok env file header w root rootfile opf :
  res (ingest_parse env file header w) = inr (root, rootfile, opf) →
  let d := disk (final (ingest_parse env file header w)) in
  root = unpacked_root (store w) (deriveID header (now env))
  ∧ (fails file = false ∧ ∃ files, zip_Reader (bytes file) = Some files)
  ∧ (∃ cdata c r rest,
       d !! filepath_Join [root; "META-INF"; "container.xml"] = Some cdata
       ∧ xml_Unmarshal_container cdata = Some c
       ∧ containerXML.Rootfiles c = r :: rest
       ∧ rootfile = containerXML.FullPath r)
  ∧ (∃ data,
       d !! filepath_Join [root; rootfile] = Some data
       ∧ xml_Unmarshal_package data = Some opf).
Proof.
  intros H. cbv zeta. rewrite ingest_parse_stages in H |- *.
  apply bind_ok_inv in H as ([epub root'] & Eu & H & F0). rewrite F0. clear F0.
  cbn [fst snd] in H |- *.
  apply bind_ok_inv in H as ([] & Ez & H & F1). rewrite F1. clear F1.
  apply bind_ok_inv in H as (rootfile' & Er & H & F2). rewrite F2. clear F2.
  rewrite final_findRootfile in H |- *.
  apply bind_ok_inv in H as (opf' & Ep & H & F3). rewrite F3. clear F3.
  rewrite final_parseOPF in H |- *.
  unfold mret, M_ret, ret in H |- *. cbn [res final] in H |- *.
  injection H as <- <- <-.
  destruct (ingest_upload_ok env file header w epub root' Eu)
    as (Hroot & Hfails & Hepub).
  apply unzipFile_ok in Ez as (data & files & Hd & Hz).
  rewrite Hepub in Hd. injection Hd as <-.
  split; [exact Hroot|]. split; [split; [exact Hfails | eauto]|].
  split; [apply findRootfile_ok, Er | apply parseOPF_ok, Ep].
Qed.

Lemma ingest_res_of_parse env file header w :
  match res (ingest_parse env file header w) with
  | inl e => res (ingest env file header w) = inl e
  | inr _ => is_ok (res (ingest env file header w)) = true
  end.
Proof.
  pose proof (ingest_run env file header w) as H. cbv zeta in H.
  destruct (res (ingest_parse env file header w)) as [e|[[root rootfile] opf]].
  - rewrite H. reflexivity.
  - destruct H as (-> & _). reflexivity.
Qed.

(** A failure of any stage is the failure of [ingest]. *)
Lemma ingest_stage_errors env file header w :
  let o := ingest env file header w in
  let u := ingest_upload env file header w in
  match res u with
  | inl e => res o = inl e
  | inr (epub, root) =>
    let x := unzipFile env epub root (final u) in
    match res x with
    | inl e => res o = inl e
    | inr _ =>
      match res (findRootfile root (final x)) with
      | inl e => res o = inl e
      | inr rootfile =>
        match res (parseOPF (filepath_Join [root; rootfile]) (final x)) with
        | inl e => res o = inl e
        | inr opf => is_ok (res o) = true
        end
      end
    end
  end.
Proof.
  cbv zeta.
  pose proof (ingest_res_of_parse env file header w) as H.
  rewrite ingest_parse_stages, run_bind in H.
  destruct (res (ingest_upload env file header w)) as [e|[epub root]];
    cbn [res final seen fst snd] in H; [exact H|].
  rewrite run_bind in H.
  destruct (res (unzipFile env epub root _)) as [e|[]];
    cbn [res final seen] in H; [exact H|].
  rewrite run_bind in H. rewrite final_findRootfile in H.
  destruct (res (findRootfile root _)) as [e|rootfile];
    cbn [res final seen] in H; [exact H|].
  rewrite run_bind in H.
  destruct (res (parseOPF _ _)) as [e|opf]; cbn [res final seen] in H;
    exact H.
Qed.

End StoreFacts.

(** ** Decoding of the container and package documents *)

Module DocFacts.
Import DocSpec.

Lemma last_cons {A} (x : A) l d : List.last (x :: l) d = List.last l x.
Proof.
  revert d x. induction l as [|y l IH]; intros d x; [reflexivity|].
  change (List.last (x :: y :: l) d) with (List.last (y :: l) d).
  rewrite (IH d y), (IH x y). reflexivity.
Qed.

Lemma last_app_default {A} (l1 l2 : list A) d :
  List.last (l1 ++ l2) d = List.last l2 (List.last l1 d).
Proof.
  revert d. induction l1 as [|x l1 IH]; intros d; [reflexivity|].
  cbn [app]. rewrite !last_cons. apply IH.
Qed.

Lemma find_last {A} (p : A → bool) l x :
  find p (l ++ [x]) =
  match find p l with
  | Some y => Some y
  | None => if p x then Some x else None
  end.
Proof.
  induction l as [|y l IH]; simpl; [reflexivity|].
  destruct (p y); [reflexivity | exact IH].
Qed.

Lemma attr_fold local attrs v0 :
  fold_left
    (λ v a, if xml.matches "" local (xml.AttrName a) then xml.Value a else v)
    attrs v0
  = match find (λ a, xml.matches "" local (xml.AttrName a)) (rev attrs) with
    | Some a => xml.Value a
    | None => v0
    end.
Proof.
  revert v0. induction attrs as [|a attrs IH]; intros v0; [reflexivity|].
  cbn [fold_left rev]. rewrite IH, find_last.
  destruct (find _ (rev attrs)); [reflexivity|].
  destruct (xml.matches "" local (xml.AttrName a)); reflexivity.
Qed.

(** An attribute field holds the value of the last matching attribute. *)
Lemma attr_field_attribute local n :
  xml.attr_field local (attrs_of n) = attribute local n.
Proof. unfold xml.attr_field, attribute. apply attr_fold. Qed.

Lemma inner_fold {A} child (decode : xml.Node → A) inner acc :
  fold_left
    (λ acc m,
       match m with
       | xml.Element name' _ _ =>
         if xml.matches "" child name' then acc ++ [decode m] else acc
       | xml.CharData _ => acc
       end)
    inner acc
  = acc ++ map decode (elements "" child inner).
Proof.
  revert acc. induction inner as [|m inner IH]; intros acc.
  - simpl. rewrite app_nil_r. reflexivity.
  - cbn [fold_left]. rewrite IH. unfold elements. cbn [List.filter].
    destruct m as [name attrs content|d].
    + destruct (xml.matches "" child name);
        [cbn [map]; rewrite <- app_assoc|]; reflexivity.
    + reflexivity.
Qed.

Lemma outer_fold {A} parent child (decode : xml.Node → A) content acc :
  fold_left
    (λ acc n,
       match n with
       | xml.Element name _ inner =>
         if xml.matches "" parent name then
           fold_left
             (λ acc m,
                match m with
                | xml.Element name' _ _ =>
                  if xml.matches "" child name' then acc ++ [decode m] else acc
                | xml.CharData _ => acc
                end)
             inner acc
         else acc
       | xml.CharData _ => acc
       end)
    content acc
  = acc ++ map decode
             (flat_map (λ r, elements "" child (content_of r))
                (elements "" parent content)).
Proof.
  revert acc. induction content as [|n content IH]; intros acc.
  - simpl. rewrite app_nil_r. reflexivity.
  - cbn [fold_left]. rewrite IH.
    destruct n as [name attrs inner|d].
    + change (elements "" parent (xml.Element name attrs inner :: content))
        with (if xml.matches "" parent name
              then xml.Element name attrs inner :: elements "" parent content
              else elements "" parent content).
      destruct (xml.matches "" parent name).
      * rewrite inner_fold. cbn [flat_map content_of].
        rewrite List.map_app, <- app_assoc. reflexivity.
      * reflexivity.
    + reflexivity.
Qed.

(** A path field holds the decoded elements at that path, in document
    order. *)
Lemma path_field_elements {A} parent child (decode : xml.Node → A) content :
  xml.path_field parent child decode content
  = map decode
      (flat_map (λ r, elements "" child (content_of r))
         (elements "" parent content)).
Proof. unfold xml.path_field. rewrite outer_fold. reflexivity. Qed.

Lemma matches_title_creator name :
  xml.matches dc "title" name = true → xml.matches dc "creator" name = false.
Proof.
  unfold xml.matches. intros H. apply andb_true_iff in H as [_ H].
  apply String.eqb_eq in H. rewrite <- H. apply andb_false_r.
Qed.

Lemma metadata_fold m inner :
  let m' := unmarshal_OPFMetadata m inner in
  OPFMetadata.Title m'
  = List.last (map (λ n, xml.chardata (content_of n)) (elements dc "title" inner))
      (OPFMetadata.Title m)
  ∧ OPFMetadata.Creator m'
    = List.last
        (map (λ n, xml.chardata (content_of n)) (elements dc "creator" inner))
        (OPFMetadata.Creator m).
Proof.
  cbv zeta. unfold unmarshal_OPFMetadata.
  revert m. induction inner as [|n inner IH]; intros m; [split; reflexivity|].
  cbn [fold_left]. unfold elements. cbn [List.filter].
  destruct n as [name attrs content|d]; [|apply IH].
  destruct (xml.matches dc "title" name) eqn:Et.
  - rewrite (matches_title_creator name Et).
    destruct (IH (OPFMetadata.mk (xml.chardata content) (OPFMetadata.Creator m)))
      as [IH1 IH2].
    split; [|exact IH2].
    cbn [map content_of]. rewrite last_cons. exact IH1.
  - destruct (xml.matches dc "creator" name) eqn:Ec; [|apply IH].
    destruct (IH (OPFMetadata.mk (OPFMetadata.Title m) (xml.chardata content)))
      as [IH1 IH2].
    split; [exact IH1|].
    cbn [map content_of]. rewrite last_cons. exact IH2.
Qed.

Lemma meta_fold content m :
  let m' :=
    fold_left
      (λ m n,
         match n with
         | xml.Element name _ inner =>
           if xml.matches "" "metadata" name
           then unmarshal_OPFMetadata m inner
           else m
         | xml.CharData _ => m
         end)
      content m in
  OPFMetadata.Title m'
  = List.last
      (map (λ n, xml.chardata (content_of n))
         (flat_map (λ x, elements dc "title" (content_of x))
            (elements "" "metadata" content)))
      (OPFMetadata.Title m)
  ∧ OPFMetadata.Creator m'
    = List.last
        (map (λ n, xml.chardata (content_of n))
           (flat_map (λ x, elements dc "creator" (content_of x))
              (elements "" "metadata" content)))
        (OPFMetadata.Creator m).
Proof.
  cbv zeta. revert m.
  induction content as [|n content IH]; intros m; [split; reflexivity|].
  cbn [fold_left].
  destruct n as [name attrs inner|d]; [|apply IH].
  change (elements "" "metadata" (xml.Element name attrs inner :: content))
    with (if xml.matches "" "metadata" name
          then xml.Element name attrs inner :: elements "" "metadata" content
          else elements "" "metadata" content).
  destruct (xml.matches "" "metadata" name); [|apply IH].
  cbn [flat_map content_of]. rewrite !List.map_app.
  destruct (IH (unmarshal_OPFMetadata m inner)) as [IH1 IH2].
  destruct (metadata_fold m inner) as [M1 M2]. cbv zeta in M1, M2.
  rewrite IH1, IH2, M1, M2. clear.
  split; symmetry; apply last_app_default.
Qed.

Section Decode.
Context {codecs : Codecs}.

(** What decoding a container document gives: its declared rootfiles
    when the document is read and its root is [container]. *)
Lemma container_cases data :
  match xml_Unmarshal_container data with
  | Some c =>
    ∃ doc, xml_Decoder data = Some doc
           ∧ root_is "container" doc = true
           ∧ map containerXML.FullPath (containerXML.Rootfiles c)
             = declared_rootfiles doc
  | None =>
    xml_Decoder data = None
    ∨ ∃ doc, xml_Decoder data = Some doc ∧ root_is "container" doc = false
  end.
Proof.
  unfold xml_Unmarshal_container.
  destruct (xml_Decoder data) as [[name attrs content|d]|]; [| |auto].
  - destruct (xml.matches "" "container" name) eqn:E.
    + eexists. split; [reflexivity|]. split; [exact E|].
      cbn [containerXML.Rootfiles]. rewrite path_field_elements.
      unfold declared_rootfiles. rewrite List.map_map. cbn [content_of].
      apply map_ext. intros n. cbn [containerXML.FullPath unmarshal_rootfile].
      apply attr_field_attribute.
    + right. eexists. split; [reflexivity | exact E].
  - right. eexists. split; reflexivity.
Qed.

(** What decoding a package document gives: the title is the text of
    the last Dublin-Core title of the metadata, the creator likewise,
    and each is empty when there is no such element. *)
Lemma package_cases data opf :
  xml_Unmarshal_package data = Some opf →
  ∃ doc,
    xml_Decoder data = Some doc
    ∧ root_is "package" doc = true
    ∧ OPFMetadata.Title (OPFPackage.Meta opf)
      = List.last (dc_texts "title" doc) ""
    ∧ OPFMetadata.Creator (OPFPackage.Meta opf)
      = List.last (dc_texts "creator" doc) "".
Proof.
  unfold xml_Unmarshal_package.
  destruct (xml_Decoder data) as [[name attrs content|d]|]; [|discriminate..].
  destruct (xml.matches "" "package" name) eqn:E; [|discriminate].
  intros H. injection H as <-. eexists.
  split; [reflexivity|]. split; [exact E|].
  cbn [OPFPackage.Meta]. unfold meta_field, dc_texts. cbn [content_of].
  apply (meta_fold content (OPFMetadata.mk "" "")).
Qed.

End Decode.

End DocFacts.

(** ** Sorting and the choice of the navigation document *)

Lemma insert_left_perm less x racc : Permutation (insert_left less x racc) (x :: racc).
Proof.
  induction racc as [|y r IH]; simpl; [reflexivity|].
  destruct (less x y); [|reflexivity].
  rewrite IH. apply perm_swap.
Qed.

Lemma insert_fold_perm less l racc :
  Permutation (fold_left (λ racc x, insert_left less x racc) l racc) (l ++ racc).
Proof.
  revert racc. induction l as [|x l IH]; intros racc; simpl; [reflexivity|].
  rewrite IH, insert_left_perm. symmetry. apply Permutation_middle.
Qed.

Lemma insertion_sort_perm l less : Permutation (insertion_sort l less) l.
Proof.
  unfold insertion_sort. rewrite <- Permutation_rev, insert_fold_perm.
  rewrite app_nil_r. reflexivity.
Qed.

Lemma insert_left_sorted less x racc :
  strict_weak less →
  StronglySorted (λ a b, less a b = false) racc →
  StronglySorted (λ a b, less a b = false) (insert_left less x racc).
Proof.
  intros [Hasym Hneg]. induction 1 as [|y r Hr IH Hy]; simpl.
  - repeat constructor.
  - destruct (less x y) eqn:E.
    + constructor; [exact IH|].
      apply List.Forall_forall. intros z Hz.
      apply (Permutation_in _ (insert_left_perm less x r)) in Hz.
      destruct Hz as [<-|Hz]; [apply Hasym, E|].
      rewrite List.Forall_forall in Hy. apply Hy, Hz.
    + constructor; [constructor; assumption|].
      constructor; [exact E|].
      rewrite List.Forall_forall in Hy |- *. intros z Hz.
      apply (Hneg x y z E), Hy, Hz.
Qed.

Lemma StronglySorted_snoc {A} (R : A → A → Prop) l x :
  StronglySorted R l → List.Forall (λ y, R y x) l → StronglySorted R (l ++ [x]).
Proof.
  induction 1 as [|y r Hr IH Hy]; intros Hx; simpl.
  - repeat constructor.
  - inversion Hx as [|? ? Hyx Hrx]; subst.
    constructor; [apply IH, Hrx|].
    apply Forall_app. split; [exact Hy | repeat constructor; exact Hyx].
Qed.

Lemma StronglySorted_rev {A} (R : A → A → Prop) l :
  StronglySorted R l → StronglySorted (λ a b, R b a) (rev l).
Proof.
  induction 1 as [|x l Hl IH Hx]; simpl; [constructor|].
  apply StronglySorted_snoc; [exact IH|].
  rewrite List.Forall_forall in Hx |- *. intros y Hy.
  apply Hx, in_rev, Hy.
Qed.

Lemma insertion_sort_sorted l less :
  strict_weak less →
  StronglySorted (λ a b, less b a = false) (insertion_sort l less).
Proof.
  intros Hsw. unfold insertion_sort.
  apply (StronglySorted_rev (λ a b, less a b = false)).
  generalize (@nil string) (SSorted_nil (λ a b : string, less a b = false)).
  induction l as [|x l IH]; intros racc Hracc; simpl; [exact Hracc|].
  apply IH, insert_left_sorted; assumption.
Qed.

(** Insertion sort meets the contract of [sort.Slice]. *)
Definition insertion_sorter : SortSlice :=
  {| sort_Slice := insertion_sort;
     sort_Slice_perm := insertion_sort_perm;
     sort_Slice_sorted := insertion_sort_sorted |}.

Lemma shorter_strict_weak : strict_weak shorter.
Proof.
  unfold shorter. split.
  - intros x y H. apply Nat.ltb_lt in H. apply Nat.ltb_ge. lia.
  - intros x y z H1 H2. apply Nat.ltb_ge in H1, H2. apply Nat.ltb_ge. lia.
Qed.

Section NavChoice.
Context {sorter : SortSlice}.

Lemma fold_candidates items acc :
  fold_left
    (λ candidates it,
       if GoStrings.Contains (OPFItem.Href it) "nav"
          || GoStrings.Contains (OPFItem.Href it) "toc"
       then candidates ++ [OPFItem.Href it]
       else candidates) items acc
  = acc ++ List.filter
             (λ h, GoStrings.Contains h "nav" || GoStrings.Contains h "toc")
             (map OPFItem.Href items).
Proof.
  revert acc. induction items as [|it items IH]; intros acc; simpl.
  - rewrite app_nil_r. reflexivity.
  - rewrite IH.
    destruct (GoStrings.Contains (OPFItem.Href it) "nav"
              || GoStrings.Contains (OPFItem.Href it) "toc");
      [rewrite <- app_assoc|]; reflexivity.
Qed.

Lemma findNavItem_candidates p :
  findNavItem p =
  match nav_candidates p with
  | [] => ""
  | _ => nth 0 (sort_Slice (nav_candidates p) shorter) ""
  end.
Proof.
  unfold findNavItem, nav_candidates. rewrite fold_candidates.
  cbn [app]. destruct (List.filter _ _); reflexivity.
Qed.

(** The head of a sorted slice is one of the elements, and none is shorter. *)
Lemma sorted_head (l : list string) :
  l ≠ [] →
  let c := nth 0 (sort_Slice l shorter) "" in
  In c l ∧ ∀ x, In x l → (String.length c ≤ String.length x)%nat.
Proof.
  intros Hne. cbv zeta.
  pose proof (sort_Slice_perm l shorter) as Hperm.
  pose proof (sort_Slice_sorted l shorter shorter_strict_weak) as Hsorted.
  destruct (sort_Slice l shorter) as [|c rest].
  - apply Permutation_nil in Hperm. congruence.
  - cbn [nth]. split.
    + apply (Permutation_in _ Hperm). left. reflexivity.
    + intros x Hx. apply (Permutation_in _ (Permutation_sym Hperm)) in Hx.
      destruct Hx as [<-|Hx]; [lia|].
      inversion Hsorted as [|? ? _ Hall]; subst.
      rewrite List.Forall_forall in Hall. specialize (Hall x Hx).
      unfold shorter in Hall. apply Nat.ltb_ge in Hall. exact Hall.
Qed.

Lemma candidate_not_empty p c : In c (nav_candidates p) → c ≠ "".
Proof.
  unfold nav_candidates. intros H. apply filter_In in H as [_ H].
  intros ->. discriminate H.
Qed.



Lemma findNavItem_empty_iff p : findNavItem p = "" ↔ nav_candidates p = [].
Proof.
  rewrite findNavItem_candidates. split.
  - destruct (nav_candidates p) as [|c l] eqn:E; [reflexivity|]. intros H.
    destruct (sorted_head (c :: l) ltac:(discriminate)) as [Hin _].
    rewrite H in Hin. rewrite <- E in Hin.
    exfalso. exact (candidate_not_empty p "" Hin eq_refl).
  - intros ->. reflexivity.
Qed.

End NavChoice.

(** ** The spine served by [GetSpine] *)

Lemma find_snoc {A} (f : A → bool) l x :
  find f (l ++ [x]) =
  match find f l with
  | Some y => Some y
  | None => if f x then Some x else None
  end.
Proof.
  induction l as [|y l IH]; simpl; [reflexivity|].
  destruct (f y); [reflexivity | exact IH].
Qed.

Lemma itemsByID_fold manifest (m0 : gmap string OPFItem.t) k :
  fold_left (λ m it, <[OPFItem.ID it := it]> m) manifest m0 !! k =
  match find (λ it, String.eqb (OPFItem.ID it) k) (rev manifest) with
  | Some it => Some it
  | None => m0 !! k
  end.
Proof.
  revert m0. induction manifest as [|it l IH]; intros m0; simpl; [reflexivity|].
  rewrite IH, find_snoc.
  destruct (find _ (rev l)); [reflexivity|].
  destruct (String.eqb (OPFItem.ID it) k) eqn:E.
  - apply String.eqb_eq in E. subst k. apply lookup_insert_eq.
  - apply String.eqb_neq in E. apply lookup_insert_ne. exact E.
Qed.

Lemma itemsByID_lookup p k :
  default OPFItem.zero (itemsByID (OPFPackage.Manifest p) !! k) = manifest_item p k.
Proof.
  unfold itemsByID, manifest_item. rewrite itemsByID_fold.
  destruct (find _ _); reflexivity.
Qed.

Lemma spineOf_fold rootfile p (items : gmap string OPFItem.t) spine out :
  (∀ k, default OPFItem.zero (items !! k) = manifest_item p k) →
  fold_left
    (λ out sp,
       let it := default OPFItem.zero (items !! OPFItemref.IDRef sp) in
       out ++ [SpineItem.mk (OPFItemref.IDRef sp)
                 (normJoin (GoPath.Dir rootfile) (OPFItem.Href it))
                 (OPFItem.MediaType it) ""])
    spine out
  = out ++ map (spine_entry rootfile p) spine.
Proof.
  intros Hitems. revert out.
  induction spine as [|sp spine IH]; intros out; simpl.
  - rewrite app_nil_r. reflexivity.
  - rewrite IH, <- app_assoc. unfold spine_entry at 2. cbv zeta.
    rewrite Hitems. reflexivity.
Qed.

(** [GetSpine] resolves each itemref when it is called. *)
Lemma spineOf_map b :
  spineOf b =
  map (spine_entry (BookInfo.RootFile b) (BookInfo.OPF b))
    (OPFPackage.Spine (BookInfo.OPF b)).
Proof.
  unfold spineOf.
  rewrite (spineOf_fold (BookInfo.RootFile b) (BookInfo.OPF b)).
  - reflexivity.
  - intros k. apply itemsByID_lookup.
Qed.

Lemma manifest_item_dangling p sp :
  dangling p sp → manifest_item p (OPFItemref.IDRef sp) = OPFItem.zero.
Proof.
  intros Hd. unfold manifest_item.
  destruct (find _ _) as [it|] eqn:E; [|reflexivity].
  apply find_some in E as [Hin Heq].
  apply String.eqb_eq in Heq. apply in_rev in Hin.
  exfalso. exact (Hd it Hin Heq).
Qed.

Lemma spine_entry_dangling rootfile p sp :
  dangling p sp →
  spine_entry rootfile p sp
  = SpineItem.mk (OPFItemref.IDRef sp) (GoPath.Dir rootfile) "" "".
Proof.
  intros Hd. unfold spine_entry. cbv zeta.
  rewrite (manifest_item_dangling p sp Hd). reflexivity.
Qed.

Lemma Dir_not_empty rootfile : GoPath.Dir rootfile ≠ "".
Proof. apply PathFacts.Clean_not_empty. Qed.

(** ** Identifiers *)

Lemma length_be_bytes k x : List.length (sha1.be_bytes k x) = k.
Proof. induction k as [|k IH]; simpl; [reflexivity | rewrite IH; reflexivity]. Qed.

(** A SHA-1 digest has 20 bytes. *)
Lemma length_sha1_Sum s : List.length (sha1.Sum s) = 20%nat.
Proof.
  unfold sha1.Sum.
  destruct (sha1.blocks _ _ _) as [[[[h0 h1] h2] h3] h4].
  rewrite !length_app, !length_be_bytes. reflexivity.
Qed.

Lemma length_hex bs :
  String.length (hex.EncodeToString bs) = (2 * List.length bs)%nat.
Proof. induction bs as [|b bs IH]; simpl; [reflexivity | rewrite IH; lia]. Qed.

Lemma digit_is_hex n : is_lower_hex (hex.digit n) = true.
Proof.
  unfold hex.digit.
  destruct (N.to_nat n) as [|[|[|[|[|[|[|[|[|[|[|[|[|[|[|[|k]]]]]]]]]]]]]]]];
    reflexivity.
Qed.

Lemma hex_all_hex bs : all_chars is_lower_hex (hex.EncodeToString bs) = true.
Proof.
  induction bs as [|b bs IH]; [reflexivity|].
  cbn [hex.EncodeToString all_chars]. rewrite !digit_is_hex, IH. reflexivity.
Qed.

Lemma length_take_str n s :
  String.length (Str.take n s) = Nat.min n (String.length s).
Proof.
  revert s. induction n as [|n IH]; intros s; [reflexivity|].
  destruct s as [|c r]; [reflexivity|]. simpl. rewrite IH. reflexivity.
Qed.

Lemma all_chars_take f n s :
  all_chars f s = true → all_chars f (Str.take n s) = true.
Proof.
  revert s. induction n as [|n IH]; intros s H; [reflexivity|].
  destruct s as [|c r]; [reflexivity|]. simpl in *.
  apply andb_true_iff in H as [Hc Hr]. rewrite Hc, (IH r Hr). reflexivity.
Qed.

Lemma take_drop_str n s : Str.take n s +:+ Str.drop n s = s.
Proof.
  revert s. induction n as [|n IH]; intros s; [reflexivity|].
  destruct s as [|c r]; [reflexivity|].
  cbn [Str.take Str.drop]. rewrite app_cons_str, IH. reflexivity.
Qed.

Lemma deriveID_length header nano : String.length (deriveID header nano) = 12%nat.
Proof.
  unfold deriveID. rewrite length_take_str, length_hex, length_sha1_Sum.
  reflexivity.
Qed.

Lemma deriveID_hex header nano :
  all_chars is_lower_hex (deriveID header nano) = true.
Proof. unfold deriveID. apply all_chars_take, hex_all_hex. Qed.

(** ** The library models on documented inputs *)

(** The table of the tests of [path.Clean]. *)
Lemma Clean_table :
  Forall (λ pq, GoPath.Clean (fst pq) = snd pq)
    [ ("", "."); ("abc", "abc"); ("abc/def", "abc/def"); (".", ".");
      ("..", ".."); ("../..", "../.."); ("../../abc", "../../abc");
      ("/abc", "/abc"); ("/", "/"); ("abc/", "abc"); ("abc/def/", "abc/def");
      ("./", "."); ("../", ".."); ("../../", "../.."); ("/abc/", "/abc");
      ("abc//def//ghi", "abc/def/ghi"); ("//abc", "/abc"); ("///abc", "/abc");
      ("//abc//", "/abc"); ("abc//", "abc"); ("abc/./def", "abc/def");
      ("/./abc/def", "/abc/def"); ("abc/.", "abc");
      ("abc/def/ghi/../jkl", "abc/def/jkl"); ("abc/def/../ghi/../jkl", "abc/jkl");
      ("abc/def/..", "abc"); ("abc/def/../..", "."); ("/abc/def/../..", "/");
      ("abc/def/../../..", ".."); ("/abc/def/../../..", "/");
      ("abc/def/../../../ghi/jkl/../../../mno", "../../mno");
      ("abc/./../def", "def"); ("abc//./../def", "def");
      ("abc/../../././../def", "../../def") ].
Proof. repeat constructor. Qed.

Lemma Dir_Join_table :
  Forall (λ pq, GoPath.Dir (fst pq) = snd pq)
    [ ("", "."); (".", "."); ("/.", "/"); ("/", "/"); ("/foo", "/");
      ("x/", "x"); ("abc", "."); ("abc/def", "abc"); ("a/b/.x", "a/b");
      ("abc////def", "abc"); ("OEBPS/content.opf", "OEBPS") ]
  ∧ Forall (λ pq, GoPath.Join (fst pq) = snd pq)
      [ ([], ""); ([""], ""); (["a"], "a"); (["a"; "b"], "a/b");
        (["a"; ""], "a"); ([""; "b"], "b"); (["/"; "a"], "/a");
        (["a/"; "b"], "a/b"); (["a/"; ""], "a"); ([""; ""], "") ].
Proof. split; repeat constructor. Qed.

(** The digests of the standard test messages. *)
Lemma sha1_vectors :
  hex.EncodeToString (sha1.Sum "abc")
  = "a9993e364706816aba3e25717850c26c9cd0d89d"
  ∧ hex.EncodeToString (sha1.Sum "")
    = "da39a3ee5e6b4b0d3255bfef95601890afd80709"
  ∧ hex.EncodeToString
      (sha1.Sum "abcdbcdecdefdefgefghfghighijhijkijkljklmklmnlmnomnopnopq")
    = "84983e441c3bd26ebaae4aa1f95129e5e54670f1".
Proof. repeat split; vm_compute; reflexivity. Qed.

(** White space is trimmed at both ends and kept inside; the no-break
    space and the ideographic space are white space; a byte that is not
    UTF-8 is not. *)
Lemma TrimSpace_table :
  GoStrings.TrimSpace ("  Moby-Dick " +:+ newline) = "Moby-Dick"
  ∧ GoStrings.TrimSpace "" = ""
  ∧ GoStrings.TrimSpace (" " +:+ newline +:+ " ") = ""
  ∧ GoStrings.TrimSpace "a  b" = "a  b"
  ∧ GoStrings.TrimSpace
      (nbsp +:+ utf8.EncodeRune 0x3000 +:+ "a" +:+ utf8.EncodeRune 0x2003 +:+ nbsp)
    = "a"
  ∧ GoStrings.TrimSpace (String (utf8.byte 0xA0) " a ")
    = String (utf8.byte 0xA0) " a".
Proof. repeat split; vm_compute; reflexivity. Qed.

(** A range loop sees an invalid byte as U+FFFD and goes on. *)
Lemma runes_table :
  utf8.runes ("a" +:+ utf8.EncodeRune 0xE9 +:+ utf8.EncodeRune 0x20AC
              +:+ utf8.EncodeRune 0x1F600 +:+ "<")
  = [0x61; 0xE9; 0x20AC; 0x1F600; 0x3C]%N
  ∧ utf8.runes (String (utf8.byte 0xFF) (String (utf8.byte 0xC3) "a"))
    = [0xFFFD; 0xFFFD; 0x61]%N
  ∧ utf8.string_of_runes [0xFFFD]%N
    = String (utf8.byte 0xEF) (String (utf8.byte 0xBF) (String (utf8.byte 0xBD) "")).
Proof. repeat split; vm_compute; reflexivity. Qed.

(** The scan of a small navigation document: a stray [>] is dropped with
    the markup, the first href of the line is taken even outside the
    anchor, an anchor without text or with a single-quoted href yields
    nothing, and a tag left open hides the rest of the line. *)
Lemma scanNav_table :
  scanNav
    ("<a href=" +:+ dqs +:+ "x" +:+ dqs +:+ ">a > b</a>" +:+ newline
     +:+ "<p>no anchor</p>" +:+ newline
     +:+ " <a name='q'>text</a> <link href=" +:+ dqs +:+ "y.css" +:+ dqs +:+ ">  "
     +:+ newline
     +:+ "<a href=" +:+ dqs +:+ "z" +:+ dqs +:+ "><img/></a>" +:+ newline
     +:+ "<a href='single'>s</a>" +:+ newline
     +:+ "<a href=" +:+ dqs +:+ "#frag" +:+ dqs +:+ ">" +:+ nbsp +:+ "Frag"
     +:+ nbsp +:+ "ment <b")
  = [ NavItem.mk "x" "a  b"; NavItem.mk "y.css" "text";
      NavItem.mk "#frag" "Frag ment" ].
Proof. vm_compute. reflexivity. Qed.

(** Decoding by field tags: of several rootfiles all are kept, in
    document order; an attribute that is absent leaves its field empty;
    an element of another name space is no Dublin-Core title; of two
    titles the later stays; text inside a nested element is not part of
    the title; a root of another name is an error. *)
Lemma decode_table :
  xml.path_field "rootfiles" "rootfile" unmarshal_rootfile
    [ Demo.elem "" "rootfiles" []
        [ Demo.elem "" "rootfile" [("full-path", "a.opf")] [];
          xml.CharData " ";
          Demo.elem "" "other" [("full-path", "x.opf")] [];
          Demo.elem "" "rootfile" [] [] ];
      Demo.elem "" "rootfile" [("full-path", "stray.opf")] [];
      Demo.elem "" "rootfiles" []
        [ Demo.elem "" "rootfile" [("full-path", "b.opf")] [] ] ]
  = [ containerXML.mkRootfile "a.opf"; containerXML.mkRootfile "";
      containerXML.mkRootfile "b.opf" ]
  ∧ meta_field
      [ Demo.elem "" "metadata" []
          [ Demo.elem "" "title" [] [xml.CharData "not Dublin Core"];
            Demo.elem dc "title" [] [xml.CharData "First"];
            Demo.elem dc "title" []
              [ xml.CharData "Second ";
                Demo.elem "" "b" [] [xml.CharData "nested"];
                xml.CharData "title" ] ] ]
    = OPFMetadata.mk "Second title" ""
  ∧ @xml_Unmarshal_package
      {| zip_Reader := λ _, None;
         xml_Decoder := λ _, Some (Demo.elem "" "html" [] []) |}
      "<html/>"
    = None.
Proof. repeat split; reflexivity. Qed.

(* ================================================================== *)
(** * The claims *)
(* ================================================================== *)

Section Claims.
Context {codecs : Codecs} {sorter : SortSlice}.

(** ** Path resolver *)

Lemma normJoin_nonempty base c r :
  normJoin base (String c r)
  = GoPath.Clean
      (if Str.is_empty base then String c r
       else base +:+ String GoPath.slash (String c r)).
Proof.
  unfold normJoin. cbn [String.eqb]. unfold GoPath.Join.
  assert (E : forallb Str.is_empty [base; String c r] = false)
    by (cbn; apply andb_false_r).
  rewrite E. cbn [fold_left]. unfold GoPath.join_buf at 2.
  cbn [Str.is_empty negb]. unfold GoPath.join_buf.
  rewrite PathFacts.Clean_idempotent.
  destruct (Str.is_empty base); reflexivity.
Qed.

(** C6, amended.  The path resolver is a function of the base directory
    and the relative reference.  On an empty reference it returns the
    base unchanged.  On a non-empty reference it returns the cleaned
    join of the two, which is in normal form: every empty element and
    every [.] element is gone, and every [..] element that follows an
    ordinary element is gone with that element; [..] elements remain
    only at the front of a result that is not rooted, and a join that
    collapses to nothing is returned as [.]. *)
Theorem normJoin_normal_form (base : string) :
  normJoin base "" = base
  ∧ ∀ c r,
      normJoin base (String c r)
      = GoPath.Clean
          (if Str.is_empty base then String c r
           else base +:+ String GoPath.slash (String c r))
      ∧ PathSpec.normal_form (normJoin base (String c r)) = true.
Proof.
  split; [reflexivity|]. intros c r. split.
  - apply normJoin_nonempty.
  - rewrite normJoin_nonempty. apply PathFacts.Clean_normal_form.
Qed.

(** ** Navigation extraction *)

(** C3.  The scan of a navigation document goes line by line (the text
    is cut at line feeds and each line is taken without its surrounding
    white space).  A line yields an entry if and only if it contains an
    anchor-opening tag, the value of its first double-quoted [href]
    attribute is not empty, and its visible text (all tag markup
    deleted, non-breaking spaces turned into spaces, surrounding white
    space trimmed) is not empty; the entry is that href with that text,
    and entries come in line order.  [between] and [stripTags] compute
    the href and the visible text, and [extractNav] returns the scan of
    the file it reads. *)
Theorem extractNav_line_scan (t : string) :
  scanNav t
  = map NavSpec.toc_entry
      (List.filter NavSpec.emits (map GoStrings.TrimSpace (NavSpec.lines t)))
  ∧ (∀ line,
       NavSpec.emits line = true
       ↔ NavSpec.has_anchor line = true
         ∧ NavSpec.first_href line ≠ ""
         ∧ NavSpec.visible_text line ≠ "")
  ∧ (∀ line,
       between line ("href=" +:+ dqs) dqs = NavSpec.first_href line
       ∧ stripTags line = NavSpec.visible_text line)
  ∧ (∀ path d s,
       res (extractNav path (mkWorld (<[path := t]> d) s)) = inr (scanNav t)).
Proof.
  split; [apply NavFacts.scanNav_toc_of|]. split; [|split].
  - intros line. unfold NavSpec.emits.
    rewrite !andb_true_iff, !negb_true_iff, !String.eqb_neq. tauto.
  - intros line. split;
      [apply NavFacts.between_first_href | apply NavFacts.stripTags_visible].
  - intros path d s. rewrite run_extractNav. cbn [res disk].
    rewrite lookup_insert_eq. reflexivity.
Qed.

(** ** Container locator *)

(** C8.  [findRootfile] reads [META-INF/container.xml] under the root,
    decodes it as XML, and returns the full-path of the first rootfile
    the document declares, whatever follows it.  It returns an error
    exactly when the file cannot be read, when decoding fails (the
    document cannot be read as XML, or its root is not [container]), or
    when the document declares no rootfile.  It changes nothing. *)
Theorem findRootfile_first_rootfile (root : string) (w : World) :
  let p := filepath_Join [root; "META-INF"; "container.xml"] in
  let o := findRootfile root w in
  (∀ path,
     res o = inr path
     ↔ ∃ data doc rest,
         disk w !! p = Some data
         ∧ xml_Decoder data = Some doc
         ∧ DocSpec.root_is "container" doc = true
         ∧ DocSpec.declared_rootfiles doc = path :: rest)
  ∧ (is_ok (res o) = false
     ↔ disk w !! p = None
       ∨ (∃ data, disk w !! p = Some data ∧ xml_Decoder data = None)
       ∨ (∃ data doc, disk w !! p = Some data
                      ∧ xml_Decoder data = Some doc
                      ∧ DocSpec.root_is "container" doc = false)
       ∨ (∃ data doc, disk w !! p = Some data
                      ∧ xml_Decoder data = Some doc
                      ∧ DocSpec.root_is "container" doc = true
                      ∧ DocSpec.declared_rootfiles doc = []))
  ∧ final o = w.
Proof.
  cbv zeta. rewrite run_findRootfile. cbn [res final].
  set (p := filepath_Join [root; "META-INF"; "container.xml"]).
  split; [|split; [|reflexivity]].
  - intros path. split.
    + destruct (disk w !! p) as [data|]; [|discriminate].
      pose proof (DocFacts.container_cases data) as Hc.
      destruct (xml_Unmarshal_container data) as [c|]; [|discriminate].
      destruct Hc as (doc & Hd & Hr & Hl).
      destruct (containerXML.Rootfiles c) as [|r rest]; [discriminate|].
      intros H. injection H as <-.
      exists data, doc, (map containerXML.FullPath rest).
      rewrite <- Hl. auto.
    + intros (data & doc & rest & -> & Hd & Hr & Hl).
      pose proof (DocFacts.container_cases data) as Hc.
      destruct (xml_Unmarshal_container data) as [c|].
      * destruct Hc as (doc' & Hd' & _ & Hl').
        rewrite Hd in Hd'. injection Hd' as <-. rewrite Hl in Hl'.
        destruct (containerXML.Rootfiles c) as [|r rest']; [discriminate|].
        injection Hl' as -> _. reflexivity.
      * destruct Hc as [Hc|(doc' & Hd' & Hr')]; [congruence|].
        rewrite Hd in Hd'. injection Hd' as <-. congruence.
  - split.
    + destruct (disk w !! p) as [data|]; [|auto].
      pose proof (DocFacts.container_cases data) as Hc.
      destruct (xml_Unmarshal_container data) as [c|].
      * destruct Hc as (doc & Hd & Hr & Hl).
        destruct (containerXML.Rootfiles c) as [|r rest]; [|discriminate].
        intros _. right. right. right. exists data, doc. auto.
      * intros _. destruct Hc as [Hc|(doc & Hd & Hr)].
        -- right. left. exists data. auto.
        -- right. right. left. exists data, doc. auto.
    + intros [-> | [(data & -> & Hd) | [(data & doc & -> & Hd & Hr)
               | (data & doc & -> & Hd & Hr & Hl)]]]; [reflexivity|..];
        pose proof (DocFacts.container_cases data) as Hc;
        destruct (xml_Unmarshal_container data) as [c|]; try reflexivity;
        destruct Hc as (doc' & Hd' & Hr' & Hl'); try congruence.
      rewrite Hd in Hd'. injection Hd' as <-. rewrite Hl in Hl'.
      destruct (containerXML.Rootfiles c); [reflexivity | discriminate].
Qed.

(** ** Identifiers *)

(** C10.  For every filename, size and time, the identifier is 12
    characters long, all of them lower-case hexadecimal digits: it is
    the first 12 characters of the hex encoding of the SHA-1 digest of
    the filename followed by the size and the time.  It is the
    identifier [ingest] returns, stores in the record, and inserts the
    record under. *)
Theorem ingest_id_shape (env : Env) (file : reader) (header : FileHeader)
    (w : World) :
  let id := deriveID header (now env) in
  let o := ingest env file header w in
  String.length id = 12%nat
  ∧ all_chars is_lower_hex id = true
  ∧ (∃ rest,
       hex.EncodeToString
         (sha1.Sum (Filename header
                    +:+ "-" +:+ Sprintf_d (Size header)
                    +:+ "-" +:+ Sprintf_d (now env)))
       = id +:+ rest)
  ∧ match res o with
    | inr (id', info) =>
      id' = id ∧ BookInfo.ID info = id
      ∧ books (store (final o)) !! id = Some info
    | inl _ => True
    end.
Proof.
  cbv zeta. split; [apply deriveID_length|].
  split; [apply deriveID_hex|]. split.
  - eexists. unfold deriveID. symmetry. apply take_drop_str.
  - pose proof (ingest_run env file header w) as H. cbv zeta in H.
    destruct (res (ingest_parse env file header w)) as [e|[[root rootfile] opf]].
    + rewrite H. exact I.
    + destruct H as (-> & -> & _). cbn [store books].
      repeat split. apply lookup_insert_eq.
Qed.

End Claims.

(** C6, as stated, fails: a relative reference that climbs above the base
    keeps a [..] element, and a join that collapses to nothing is the
    element [.]. *)
Lemma normJoin_keeps_dotdot :
  normJoin "OEBPS" "../../x" = "../x"
  ∧ PathSpec.dot_free (normJoin "OEBPS" "../../x") = false
  ∧ normJoin "a" ".." = "."
  ∧ PathSpec.dot_free (normJoin "a" "..") = false.
Proof. repeat split; reflexivity. Qed.

Section ClaimsIngest.
Context {codecs : Codecs} {sorter : SortSlice}.

(** ** Choice of the navigation document *)

(** C4.  The candidates are the manifest hrefs that contain [nav] or
    [toc], compared byte by byte (so case matters).  When there is one,
    [findNavItem] returns a candidate, and no candidate is shorter.  When
    there is none, it returns no candidate (the empty string), and a
    book whose package has none is ingested with an empty table of
    contents, which [GetTOC] serves. *)
Theorem findNavItem_shortest_candidate (p : OPFPackage.t) :
  (∀ h, In h (nav_candidates p)
        ↔ (∃ it, In it (OPFPackage.Manifest p) ∧ OPFItem.Href it = h)
          ∧ GoStrings.Contains h "nav" || GoStrings.Contains h "toc" = true)
  ∧ match nav_candidates p with
    | [] => findNavItem p = ""
    | _ :: _ =>
      In (findNavItem p) (nav_candidates p)
      ∧ ∀ c, In c (nav_candidates p) →
             (String.length (findNavItem p) ≤ String.length c)%nat
    end
  ∧ ∀ env file header w root rootfile,
      res (ingest_parse env file header w) = inr (root, rootfile, p) →
      nav_candidates p = [] →
      let o := ingest env file header w in
      is_ok (res o) = true
      ∧ GetTOC (store (final o)) (deriveID header (now env))
        = Some (NavDoc.mk []).
Proof.
  split; [|split].
  - intros h. unfold nav_candidates. rewrite filter_In, in_map_iff.
    split; intros [(it & H1 & H2) H3]; (split; [exists it; auto | exact H3]).
  - rewrite findNavItem_candidates.
    destruct (nav_candidates p) as [|c l] eqn:E; [reflexivity|].
    apply (sorted_head (c :: l)). discriminate.
  - intros env file header w root rootfile Hp Hnone. cbv zeta.
    pose proof (ingest_run env file header w) as H. cbv zeta in H.
    rewrite Hp in H. destruct H as (Hres & Hfin & _).
    rewrite Hres, Hfin. split; [reflexivity|].
    unfold GetTOC, GetBookByID. cbn [store books].
    rewrite lookup_insert_eq. cbn. unfold toc_items.
    apply findNavItem_empty_iff in Hnone. rewrite Hnone. reflexivity.
Qed.

(** ** Title and author *)

(** C5.  When extraction, container location and package parsing
    succeed, [ingest] succeeds whatever the metadata is, and the record
    it catalogs, which [GetBook] and [GetMetadata] serve, has for title
    the text of the Dublin-Core title element of the package document
    (of the last one, should there be several) with its surrounding
    white space trimmed, and for author the text of the Dublin-Core
    creator element likewise.  When the document has no such element
    the field is the empty string. *)
Theorem ingest_title_author (env : Env) (file : reader) (header : FileHeader)
    (w : World) (root rootfile : string) (opf : OPFPackage.t) :
  res (ingest_parse env file header w) = inr (root, rootfile, opf) →
  let o := ingest env file header w in
  let id := deriveID header (now env) in
  ∃ data doc,
    disk (final o) !! filepath_Join [root; rootfile] = Some data
    ∧ xml_Decoder data = Some doc
    ∧ let title :=
        GoStrings.TrimSpace (List.last (DocSpec.dc_texts "title" doc) "") in
      let author :=
        GoStrings.TrimSpace (List.last (DocSpec.dc_texts "creator" doc) "") in
      (∃ info,
         res o = inr (id, info)
         ∧ GetBookByID (store (final o)) id = Some info
         ∧ BookInfo.Title info = title
         ∧ BookInfo.Author info = author)
      ∧ GetBook (store (final o)) id = Some (id, title, author, rootfile)
      ∧ GetMetadata (store (final o)) id = Some (title, author)
      ∧ (DocSpec.dc_texts "title" doc = [] → title = "")
      ∧ (DocSpec.dc_texts "creator" doc = [] → author = "").
Proof.
  intros Hp. cbv zeta.
  pose proof (ingest_run env file header w) as H. cbv zeta in H.
  rewrite Hp in H. destruct H as (Hres & Hfin & _).
  pose proof (ingest_parse_ok env file header w root rootfile opf Hp) as Hok.
  cbv zeta in Hok. destruct Hok as (_ & _ & _ & data & Hdata & Hopf).
  destruct (DocFacts.package_cases data opf Hopf) as (doc & Hdoc & _ & Ht & Hc).
  exists data, doc.
  rewrite Hres, Hfin. cbn [disk store].
  unfold GetBook, GetMetadata, GetBookByID. cbn [books].
  rewrite lookup_insert_eq. cbn. rewrite <- Ht, <- Hc.
  repeat split; try reflexivity; try assumption.
  - eexists. repeat split; reflexivity.
  - intros E. rewrite Ht, E. reflexivity.
  - intros E. rewrite Hc, E. reflexivity.
Qed.

(** ** Atomic insertion *)

(** C7.  A failure of any step of [ingest] (storing the upload,
    archive extraction, container location, package parsing) is the
    error [ingest] returns; reading the navigation document cannot make
    it fail.  When [ingest] returns an error the store is unchanged, so
    listing and lookup answer as before, and the catalog was the initial
    one after every step.  When [ingest] succeeds, the upload was read
    to its end and decoded as a zip archive, and the container file and
    the package document were read and decoded; the catalog was the
    initial one after every step but the last, and the last step
    inserts the complete record under its identifier. *)
Theorem ingest_atomic (env : Env) (file : reader) (header : FileHeader)
    (w : World) :
  let o := ingest env file header w in
  let p := ingest_parse env file header w in
  let u := ingest_upload env file header w in
  let id := deriveID header (now env) in
  match res u with
  | inl e => res o = inl e
  | inr (epub, root) =>
    let x := unzipFile env epub root (final u) in
    match res x with
    | inl e => res o = inl e
    | inr _ =>
      match res (findRootfile root (final x)) with
      | inl e => res o = inl e
      | inr rootfile =>
        match res (parseOPF (filepath_Join [root; rootfile]) (final x)) with
        | inl e => res o = inl e
        | inr opf => is_ok (res o) = true
        end
      end
    end
  end
  ∧ is_ok (res o) = is_ok (res p)
  ∧ match res o with
    | inl e =>
      res p = inl e
      ∧ store (final o) = store w
      ∧ ListBooks (store (final o)) = ListBooks (store w)
      ∧ (∀ k, GetBookByID (store (final o)) k = GetBookByID (store w) k)
      ∧ Forall (λ c, c = books (store w)) (seen o)
    | inr (id', info) =>
      ∃ root rootfile opf before,
        res p = inr (root, rootfile, opf)
        ∧ id' = id
        ∧ info = book_record id root rootfile opf
                   (toc_items (disk (final o)) root rootfile opf)
        ∧ books (store (final o)) = <[id := info]> (books (store w))
        ∧ seen o = before ++ [<[id := info]> (books (store w))]
        ∧ Forall (λ c, c = books (store w)) before
        ∧ (fails file = false ∧ ∃ files, zip_Reader (bytes file) = Some files)
        ∧ (∃ cdata c r rest,
             disk (final o) !! filepath_Join [root; "META-INF"; "container.xml"]
             = Some cdata
             ∧ xml_Unmarshal_container cdata = Some c
             ∧ containerXML.Rootfiles c = r :: rest
             ∧ rootfile = containerXML.FullPath r)
        ∧ (∃ data,
             disk (final o) !! filepath_Join [root; rootfile] = Some data
             ∧ xml_Unmarshal_package data = Some opf)
    end.
Proof.
  cbv zeta. split; [apply ingest_stage_errors|].
  pose proof (ingest_run env file header w) as H. cbv zeta in H.
  destruct (quiet_ingest_parse env file header w) as [Hst Hseen].
  destruct (res (ingest_parse env file header w))
    as [e|[[root rootfile] opf]] eqn:Hp.
  - rewrite H. cbn [res final seen is_ok].
    split; [reflexivity|]. rewrite Hst. repeat split; auto.
  - destruct H as (Hres & Hfin & mid & Hs & Hmid).
    rewrite Hres. cbn [is_ok]. split; [reflexivity|].
    pose proof (ingest_parse_ok env file header w root rootfile opf Hp) as Hok.
    cbv zeta in Hok. destruct Hok as (_ & Hzip & Hc & Hd).
    exists root, rootfile, opf, (seen (ingest_parse env file header w) ++ mid).
    rewrite Hfin. cbn [disk store books].
    repeat split; auto.
    + rewrite Hs, app_assoc. reflexivity.
    + apply Forall_app. split; assumption.
    + apply Hzip.
    + apply Hzip.
Qed.

End ClaimsIngest.

Section ClaimsRead.
Context {codecs : Codecs} {sorter : SortSlice}.

(** What a successful ingestion leaves in the catalog. *)
Lemma ingest_ok_store env file header w root rootfile opf :
  res (ingest_parse env file header w) = inr (root, rootfile, opf) →
  let o := ingest env file header w in
  let id := deriveID header (now env) in
  let info :=
    book_record id root rootfile opf
      (toc_items (disk (final o)) root rootfile opf) in
  res o = inr (id, info)
  ∧ books (store (final o)) = <[id := info]> (books (store w))
  ∧ GetBookByID (store (final o)) id = Some info.
Proof.
  intros Hp. cbv zeta.
  pose proof (ingest_run env file header w) as H. cbv zeta in H.
  rewrite Hp in H. destruct H as (Hres & Hfin & _).
  rewrite Hres, Hfin. cbn [disk store books]. unfold GetBookByID.
  cbn [books]. rewrite lookup_insert_eq. auto.
Qed.

Lemma ingest_ok_inv env file header w id info :
  res (ingest env file header w) = inr (id, info) →
  id = deriveID header (now env)
  ∧ books (store (final (ingest env file header w)))
    = <[id := info]> (books (store w)).
Proof.
  intros Hres.
  pose proof (ingest_run env file header w) as H. cbv zeta in H.
  destruct (res (ingest_parse env file header w)) as [e|[[root rootfile] opf]].
  - rewrite H in Hres. discriminate.
  - destruct H as (Hres' & Hfin & _). rewrite Hres' in Hres.
    injection Hres as <- <-. rewrite Hfin. auto.
Qed.

(** ** Dangling spine entries *)

(** C2, amended.  A spine entry whose idref matches no manifest item
    does not make ingestion fail: when extraction, container location
    and package parsing succeed, [ingest] succeeds whatever the spine
    is.  [GetSpine] then serves, for such an entry, a record with that
    idref, an empty media type and an empty title, and whose href is the
    directory of the package document (the path resolver applied to an
    empty href), which is never the empty string. *)
Theorem spine_dangling_entry (env : Env) (file : reader)
    (header : FileHeader) (w : World) (root rootfile : string)
    (opf : OPFPackage.t) :
  res (ingest_parse env file header w) = inr (root, rootfile, opf) →
  let o := ingest env file header w in
  let id := deriveID header (now env) in
  is_ok (res o) = true
  ∧ GetSpine (store (final o)) id
    = Some (map (spine_entry rootfile opf) (OPFPackage.Spine opf))
  ∧ ∀ sp, In sp (OPFPackage.Spine opf) → dangling opf sp →
      spine_entry rootfile opf sp
      = SpineItem.mk (OPFItemref.IDRef sp) (GoPath.Dir rootfile) "" ""
      ∧ GoPath.Dir rootfile ≠ "".
Proof.
  intros Hp. cbv zeta.
  destruct (ingest_ok_store env file header w root rootfile opf Hp)
    as (Hres & _ & Hget).
  rewrite Hres. split; [reflexivity|]. split.
  - unfold GetSpine. rewrite Hget. cbn [fmap option_fmap option_map].
    rewrite spineOf_map. reflexivity.
  - intros sp _ Hd. split; [apply spine_entry_dangling, Hd|].
    apply Dir_not_empty.
Qed.

(** ** Resolution of hrefs *)

Lemma filter_no_anchor ls :
  Forall (λ l, NavSpec.has_anchor (GoStrings.TrimSpace l) = false) ls →
  List.filter NavSpec.emits (map GoStrings.TrimSpace ls) = [].
Proof.
  induction 1 as [|l ls Hl _ IH]; [reflexivity|].
  cbn [map List.filter]. unfold NavSpec.emits at 1. rewrite Hl. exact IH.
Qed.

Lemma single_candidate (c : string) :
  nth 0 (sort_Slice [c] shorter) "" = c.
Proof.
  destruct (sorted_head [c] ltac:(discriminate)) as [[H|[]] _].
  symmetry. exact H.
Qed.

(** C1, amended.  The record of a cataloged book keeps the package as
    decoded, with its hrefs as authored; [GetSpine] resolves them when
    it is called: the href of each spine entry it serves is the path
    resolver applied to the directory of the package document and the
    href of the manifest item, a path relative to the archive root.
    For the archive whose container points to [OEBPS/content.opf],
    whose manifest has [c1] at [chap1.xhtml] and [nav] at [nav.xhtml],
    whose spine is [c1], and whose [nav.xhtml] has the anchor line for
    chapter 1 and no other line with an anchor, [GetSpine] serves the
    single entry [c1] with href [OEBPS/chap1.xhtml], its media type and
    an empty title, and [GetTOC] serves a single entry, labelled
    [Chapter 1]. *)
Theorem spine_resolved_on_read (env : Env) (file : reader)
    (header : FileHeader) (w : World) (root rootfile : string)
    (opf : OPFPackage.t) :
  res (ingest_parse env file header w) = inr (root, rootfile, opf) →
  let o := ingest env file header w in
  let id := deriveID header (now env) in
  let s := store (final o) in
  (∃ info,
     GetBookByID s id = Some info
     ∧ BookInfo.OPF info = opf
     ∧ BookInfo.RootFile info = rootfile)
  ∧ GetSpine s id = Some (map (spine_entry rootfile opf) (OPFPackage.Spine opf))
  ∧ (∀ sp,
       SpineItem.Href (spine_entry rootfile opf sp)
       = normJoin (GoPath.Dir rootfile)
           (OPFItem.Href (manifest_item opf (OPFItemref.IDRef sp))))
  ∧ (rootfile = "OEBPS/content.opf" →
     ∀ navtype navdoc before after,
       OPFPackage.Manifest opf
       = [OPFItem.mk "c1" "chap1.xhtml" "application/xhtml+xml";
          OPFItem.mk "nav" "nav.xhtml" navtype] →
       OPFPackage.Spine opf = [OPFItemref.mk "c1"] →
       disk (final o) !! filepath_Join [root; "OEBPS/nav.xhtml"] = Some navdoc →
       NavSpec.lines navdoc = before ++ [Demo.anchor_line] ++ after →
       Forall (λ l, NavSpec.has_anchor (GoStrings.TrimSpace l) = false)
         (before ++ after) →
       GetSpine s id
       = Some [SpineItem.mk "c1" "OEBPS/chap1.xhtml" "application/xhtml+xml" ""]
       ∧ ∃ href, GetTOC s id = Some (NavDoc.mk [NavItem.mk href "Chapter 1"])).
Proof.
  intros Hp. cbv zeta.
  destruct (ingest_ok_store env file header w root rootfile opf Hp)
    as (_ & _ & Hget).
  assert (Hspine :
    GetSpine (store (final (ingest env file header w)))
      (deriveID header (now env))
    = Some (map (spine_entry rootfile opf) (OPFPackage.Spine opf))).
  { unfold GetSpine. rewrite Hget. cbn [fmap option_fmap option_map].
    rewrite spineOf_map. reflexivity. }
  split; [eexists; split; [exact Hget | split; reflexivity]|].
  split; [exact Hspine|]. split; [reflexivity|].
  intros -> navtype navdoc before after Hman Hsp Hnav Hlines Hnone. split.
  - rewrite Hspine, Hsp. unfold spine_entry, manifest_item.
    rewrite Hman. reflexivity.
  - unfold GetTOC. rewrite Hget. cbn [fmap option_fmap option_map].
    cbn [BookInfo.TOC book_record]. unfold toc_items.
    rewrite findNavItem_candidates. unfold nav_candidates. rewrite Hman.
    cbn [map OPFItem.Href].
    change (List.filter _ ["chap1.xhtml"; "nav.xhtml"]) with ["nav.xhtml"].
    rewrite single_candidate. cbn [String.eqb Ascii.eqb].
    unfold nav_path.
    change (normJoin (GoPath.Dir "OEBPS/content.opf") "nav.xhtml")
      with "OEBPS/nav.xhtml".
    rewrite Hnav, NavFacts.scanNav_toc_of. unfold NavSpec.toc_of.
    rewrite Hlines, !List.map_app, !List.filter_app.
    apply Forall_app in Hnone as [Hb Ha].
    rewrite (filter_no_anchor before Hb), (filter_no_anchor after Ha).
    eexists. reflexivity.
Qed.

(** ** Identifiers of successive uploads *)

(** C9, amended.  The identifier of an upload is a function of its
    filename, its size and the time of ingestion, and of nothing else:
    not of the content.  After two successive ingestions, the second
    book is retrievable under its identifier; if the two identifiers
    differ, the first book is retrievable under its own as well; if they
    are equal, the second record has replaced the first. *)
Theorem ingest_twice (env1 env2 : Env) (file1 file2 : reader)
    (header1 header2 : FileHeader) (w : World)
    (id1 id2 : string) (info1 info2 : BookInfo.t) :
  res (ingest env1 file1 header1 w) = inr (id1, info1) →
  res (ingest env2 file2 header2 (final (ingest env1 file1 header1 w)))
  = inr (id2, info2) →
  let s := store (final (ingest env2 file2 header2
                           (final (ingest env1 file1 header1 w)))) in
  id1 = deriveID header1 (now env1)
  ∧ id2 = deriveID header2 (now env2)
  ∧ GetBookByID s id2 = Some info2
  ∧ (id1 ≠ id2 → GetBookByID s id1 = Some info1)
  ∧ (id1 = id2 → books s = <[id2 := info2]> (books (store w))).
Proof.
  intros H1 H2. cbv zeta.
  apply ingest_ok_inv in H1 as [Hid1 Hb1].
  apply ingest_ok_inv in H2 as [Hid2 Hb2].
  unfold GetBookByID. rewrite Hb2, Hb1.
  split; [exact Hid1|]. split; [exact Hid2|]. split; [|split].
  - apply lookup_insert_eq.
  - intros Hne. rewrite lookup_insert_ne by congruence.
    apply lookup_insert_eq.
  - intros ->. apply insert_insert_eq.
Qed.

End ClaimsRead.

(* ================================================================== *)
(** * Escaping and the upload response *)
(* ================================================================== *)

Lemma app_assoc_str (s t u : string) : (s +:+ t) +:+ u = s +:+ (t +:+ u).
Proof.
  induction s as [|c s IH]; [reflexivity|].
  change (String c ((s +:+ t) +:+ u) = String c (s +:+ (t +:+ u))).
  f_equal. exact IH.
Qed.

Lemma app_nil_l_str (s : string) : "" +:+ s = s.
Proof. reflexivity. Qed.

(** Appends of literal text, pushed to the right. *)
Ltac str_norm := repeat (rewrite app_cons_str || rewrite app_nil_l_str).

Lemma app_nil_r_str (s : string) : s +:+ "" = s.
Proof.
  induction s as [|c s IH]; [reflexivity|].
  change (String c (s +:+ "") = String c s). f_equal. exact IH.
Qed.

Lemma length_app_str (s t : string) :
  String.length (s +:+ t) = (String.length s + String.length t)%nat.
Proof.
  induction s as [|c s IH]; [reflexivity|].
  change (S (String.length (s +:+ t)) = S (String.length s + String.length t)).
  f_equal. exact IH.
Qed.

Lemma all_chars_app f s t :
  all_chars f (s +:+ t) = all_chars f s && all_chars f t.
Proof.
  induction s as [|c s IH]; [reflexivity|].
  change (f c && all_chars f (s +:+ t) = f c && all_chars f s && all_chars f t).
  rewrite IH, andb_assoc. reflexivity.
Qed.

Lemma all_chars_impl (f g : ascii → bool) s :
  (∀ c, f c = true → g c = true) → all_chars f s = true → all_chars g s = true.
Proof.
  intros Hfg. induction s as [|c s IH]; [reflexivity|]. cbn [all_chars].
  rewrite !andb_true_iff. intros [Hc Hs]. auto.
Qed.

Module EscapeFacts.
Import GoStrings JsonSpec.

Lemma HasPrefix_nil s : HasPrefix s "" = true.
Proof. destruct s; reflexivity. Qed.

Lemma HasPrefix_app p s : HasPrefix (p +:+ s) p = true.
Proof.
  induction p as [|c p IH]; [apply HasPrefix_nil|].
  change (Ascii.eqb c c && HasPrefix (p +:+ s) p = true).
  rewrite Ascii.eqb_refl. exact IH.
Qed.

Lemma drop_app_str p s : Str.drop (String.length p) (p +:+ s) = s.
Proof. induction p as [|c p IH]; [reflexivity | exact IH]. Qed.

Lemma expect_app p s : expect p (p +:+ s) = Some s.
Proof. unfold expect. rewrite HasPrefix_app, drop_app_str. reflexivity. Qed.

(** Replacement of a single byte goes byte by byte. *)
Lemma Replace_byte c new s :
  ReplaceAll s (String c "") new
  = match s with
    | EmptyString => EmptyString
    | String d r =>
      (if Ascii.eqb c d then new else String d "")
        +:+ ReplaceAll r (String c "") new
    end.
Proof.
  destruct s as [|d r]; [reflexivity|].
  unfold ReplaceAll. cbn [Replace_from HasPrefix String.length Nat.pred].
  rewrite HasPrefix_nil, andb_true_r. destruct (Ascii.eqb c d); reflexivity.
Qed.

Lemma Replace_byte_app c new s t :
  ReplaceAll (s +:+ t) (String c "") new
  = ReplaceAll s (String c "") new +:+ ReplaceAll t (String c "") new.
Proof.
  induction s as [|d r IH]; [rewrite (Replace_byte c new ""); reflexivity|].
  change (String d r +:+ t) with (String d (r +:+ t)).
  rewrite (Replace_byte c new (String d (r +:+ t))).
  rewrite (Replace_byte c new (String d r)), IH.
  rewrite app_assoc_str. reflexivity.
Qed.

Lemma jsonEscape_escaped s : jsonEscape s = escaped s.
Proof.
  unfold jsonEscape. cbv zeta. unfold bss, dqs.
  induction s as [|c r IH]; [reflexivity|].
  rewrite (Replace_byte bs _ (String c r)), Replace_byte_app, IH.
  cbn [escaped]. f_equal. unfold esc_byte.
  rewrite (Ascii.eqb_sym c bs), (Ascii.eqb_sym c dq).
  destruct (Ascii.eqb bs c) eqn:E.
  - reflexivity.
  - rewrite (Replace_byte dq _ (String c "")).
    destruct (Ascii.eqb dq c); reflexivity.
Qed.

Lemma read_string_escaped s rest :
  read_string (escaped s +:+ String dq rest) = Some (s, rest).
Proof.
  induction s as [|c r IH].
  - cbn [escaped]. str_norm. cbn [read_string].
    rewrite Ascii.eqb_refl. reflexivity.
  - cbn [escaped]. unfold esc_byte.
    destruct (Ascii.eqb c bs) eqn:Eb.
    + apply Ascii.eqb_eq in Eb. subst c.
      str_norm; cbn [read_string]. rewrite IH. reflexivity.
    + destruct (Ascii.eqb c dq) eqn:Eq.
      * apply Ascii.eqb_eq in Eq. subst c.
        str_norm; cbn [read_string]. rewrite IH. reflexivity.
      * str_norm; cbn [read_string]. rewrite Eq, Eb, IH. reflexivity.
Qed.

Lemma string_body_escaped s :
  string_body (escaped s) = all_chars (λ c, negb (control c)) s.
Proof.
  induction s as [|c r IH]; [reflexivity|].
  cbn [escaped all_chars]. unfold esc_byte.
  destruct (Ascii.eqb c bs) eqn:Eb.
  - apply Ascii.eqb_eq in Eb. subst c.
    str_norm; cbn [string_body]. rewrite IH. reflexivity.
  - destruct (Ascii.eqb c dq) eqn:Eq.
    + apply Ascii.eqb_eq in Eq. subst c.
      str_norm; cbn [string_body]. rewrite IH. reflexivity.
    + str_norm; cbn [string_body]. rewrite Eb, Eq, IH. reflexivity.
Qed.

Lemma escaped_plain s :
  without bs s = true → without dq s = true → escaped s = s.
Proof.
  unfold without. induction s as [|c r IH]; [reflexivity|].
  cbn [all_chars escaped]. rewrite !andb_true_iff, !negb_true_iff.
  intros [Eb Hb] [Eq Hq]. unfold esc_byte. rewrite Eb, Eq, IH by assumption.
  reflexivity.
Qed.

Lemma hex_plain c : is_lower_hex c = true →
  negb (Ascii.eqb c bs) && negb (Ascii.eqb c dq) = true.
Proof.
  intros H. destruct (Ascii.eqb c bs) eqn:Eb.
  - apply Ascii.eqb_eq in Eb. subst c. discriminate H.
  - destruct (Ascii.eqb c dq) eqn:Eq; [|reflexivity].
    apply Ascii.eqb_eq in Eq. subst c. discriminate H.
Qed.

Lemma escaped_hex s : all_chars is_lower_hex s = true → escaped s = s.
Proof.
  intros H. apply escaped_plain; unfold without;
    refine (all_chars_impl _ _ s _ H); intros c Hc;
    pose proof (hex_plain c Hc) as E; apply andb_true_iff in E; tauto.
Qed.

Lemma quoted_app s t : quoted s +:+ t = String dq (s +:+ String dq t).
Proof. unfold quoted, dqs. str_norm. rewrite app_assoc_str. str_norm. reflexivity. Qed.

Lemma expect_cons c p s : expect (String c p) (String c s) = expect p s.
Proof. unfold expect. cbn [HasPrefix]. rewrite Ascii.eqb_refl. reflexivity. Qed.

Lemma expect_nil s : expect "" s = Some s.
Proof. unfold expect. rewrite HasPrefix_nil. reflexivity. Qed.

Lemma read_string_hex id rest :
  all_chars is_lower_hex id = true →
  read_string (id +:+ String dq rest) = Some (id, rest).
Proof.
  intros H. rewrite <- (escaped_hex id H) at 1. apply read_string_escaped.
Qed.

(** The body of the upload response reads back as its three members. *)
Lemma read_upload_body id info :
  all_chars is_lower_hex id = true →
  read_upload (upload_body id info)
  = Some (id, BookInfo.Title info, BookInfo.Author info).
Proof.
  intros Hid. unfold upload_body, read_upload.
  rewrite !quoted_app. unfold dqs. str_norm.
  rewrite !expect_cons, expect_nil, (read_string_hex id _ Hid).
  rewrite !expect_cons, expect_nil, jsonEscape_escaped, read_string_escaped.
  rewrite !expect_cons, expect_nil, jsonEscape_escaped, read_string_escaped.
  reflexivity.
Qed.

End EscapeFacts.

(** ** [jsonEscape] *)

(** [jsonEscape] works byte by byte: its two passes of replacement put
    one backslash before every backslash and before every double quote
    of the text, and leave every other byte as it is (the second pass
    does not touch what the first has written). *)
Theorem jsonEscape_bytewise (s : string) :
  jsonEscape s = JsonSpec.escaped s
  ∧ ∀ c r, jsonEscape (String c r) = JsonSpec.esc_byte c +:+ jsonEscape r.
Proof.
  split; [apply EscapeFacts.jsonEscape_escaped|].
  intros c r. rewrite !EscapeFacts.jsonEscape_escaped. reflexivity.
Qed.

(** An escaped text reads back: a reader that starts after the opening
    quote, stops at the first double quote that no backslash precedes and
    undoes the two escapes finds the text itself, and what follows the
    closing quote, whatever the text holds.  So [jsonEscape] is
    injective, and no text can close the string it is written in. *)
Theorem jsonEscape_read_back (s rest : string) :
  JsonSpec.read_string (jsonEscape s +:+ dqs +:+ rest) = Some (s, rest)
  ∧ ∀ t, jsonEscape s = jsonEscape t → s = t.
Proof.
  assert (R : ∀ u, JsonSpec.read_string (jsonEscape u +:+ dqs +:+ rest)
                   = Some (u, rest)).
  { intros u. rewrite EscapeFacts.jsonEscape_escaped.
    apply EscapeFacts.read_string_escaped. }
  split; [apply R|].
  intros t E. pose proof (R s) as Hs. rewrite E, R in Hs. congruence.
Qed.

(** [jsonEscape] does not escape control bytes: the escaped text is the
    body of a JSON string exactly when the text holds no byte below the
    space.  (A line feed or a tab inside a title is written as it is.) *)
Theorem jsonEscape_string_body (s : string) :
  JsonSpec.string_body (jsonEscape s) = true
  ↔ all_chars (λ c, negb (JsonSpec.control c)) s = true.
Proof.
  rewrite EscapeFacts.jsonEscape_escaped, EscapeFacts.string_body_escaped.
  reflexivity.
Qed.

(** ** [UploadEPUB] *)

Lemma run_catch {A} (m : M A) w :
  catch m w = mkOutcome (inr (res (m w))) (final (m w)) (seen (m w)).
Proof. reflexivity. Qed.

Section Upload.
Context {codecs : Codecs} {sorter : SortSlice}.

Lemma run_UploadEPUB env file header w :
  let i := ingest env file header w in
  UploadEPUB env (FormFile file header) w
  = mkOutcome
      (inr match res i with
           | inl err => BadRequest (inl err)
           | inr (id, info) => OK (upload_body id info)
           end)
      (final i) (seen i).
Proof.
  cbv zeta. unfold UploadEPUB. rewrite run_bind, run_catch.
  cbn [res final seen].
  destruct (res (ingest env file header w)) as [e|[id info]];
    cbn [res final seen mret M_ret ret]; rewrite app_nil_r; reflexivity.
Qed.

(** The answer of [UploadEPUB].  A request whose form cannot be read,
    or has no part named [file], is answered 400 and nothing is
    touched.  Otherwise [ingest] runs: its error is answered 400 with
    the text of the error, and the catalog is as before; its success
    is answered with a body that reads back as the identifier, the
    title and the author of the record now in the catalog: the
    identifier is written without escaping and never needs any, and
    no title or author can forge a member of the object. *)
Theorem UploadEPUB_answer (env : Env) (f : form) (w : World) :
  let o := UploadEPUB env f w in
  match f with
  | FormError msg => res o = inr (BadRequest (inr msg)) ∧ final o = w
  | FormNoFile =>
    res o = inr (BadRequest (inr "missing file field")) ∧ final o = w
  | FormFile file header =>
    let i := ingest env file header w in
    final o = final i
    ∧ match res i with
      | inl e =>
        res o = inr (BadRequest (inl e)) ∧ store (final o) = store w
      | inr (id, info) =>
        res o = inr (OK (upload_body id info))
        ∧ jsonEscape id = id
        ∧ JsonSpec.read_upload (upload_body id info)
          = Some (id, BookInfo.Title info, BookInfo.Author info)
        ∧ GetMetadata (store (final o)) id
          = Some (BookInfo.Title info, BookInfo.Author info)
      end
  end.
Proof.
  cbv zeta. destruct f as [msg| |file header]; [split; reflexivity..|].
  rewrite run_UploadEPUB. cbn [res final]. split; [reflexivity|].
  pose proof (ingest_run env file header w) as H. cbv zeta in H.
  destruct (quiet_ingest_parse env file header w) as [Hst _].
  destruct (res (ingest_parse env file header w)) as [e|[[root rootfile] opf]].
  - rewrite H. cbn [res final]. auto.
  - destruct H as (Hres & Hfin & _). rewrite Hres, Hfin.
    pose proof (deriveID_hex header (now env)) as Hhex.
    split; [reflexivity|]. split; [|split].
    + rewrite EscapeFacts.jsonEscape_escaped.
      apply EscapeFacts.escaped_hex, Hhex.
    + apply EscapeFacts.read_upload_body, Hhex.
    + unfold GetMetadata, GetBookByID. cbn [store books].
      rewrite lookup_insert_eq. reflexivity.
Qed.

End Upload.

(* ================================================================== *)
(** * Extraction *)
(* ================================================================== *)

Lemma run_MkdirAll env p w :
  os_MkdirAll env p w =
  mkOutcome (if mkdir_fails env p then inl (ErrIO "mkdir" p) else inr tt)
    w [books (store w)].
Proof.
  unfold os_MkdirAll, on_disk, atomic.
  destruct (mkdir_fails env p); cbn; rewrite world_eta; reflexivity.
Qed.

Lemma run_Create env p w :
  os_Create env p w =
  if create_fails env p
  then mkOutcome (inl (ErrIO "open" p)) w [books (store w)]
  else mkOutcome (inr tt) (mkWorld (<[p := ""]> (disk w)) (store w))
         [books (store w)].
Proof.
  unfold os_Create, on_disk, atomic.
  destruct (create_fails env p); cbn; [rewrite world_eta|]; reflexivity.
Qed.

Lemma run_of_option {A} e (o : option A) w :
  of_option e o w
  = mkOutcome (match o with Some a => inr a | None => inl e end) w [].
Proof. destruct o; reflexivity. Qed.

Section UnzipFacts.
Context {codecs : Codecs} {sorter : SortSlice}.

Lemma write_entry_ok env dest f d :
  entry_ok env dest f = true →
  write_entry env dest f d
  = if IsDir f then d else <[entry_path dest f := entry_bytes f]> d.
Proof.
  unfold entry_ok, write_entry, entry_bytes.
  destruct (IsDir f); [reflexivity|]. cbn [orb].
  destruct (mkdir_fails env _); [discriminate|].
  destruct (Open f) as [rc|]; [|discriminate].
  destruct (create_fails env _); [rewrite andb_false_r; discriminate|].
  reflexivity.
Qed.

(** The loop, entry by entry: it goes on after an entry it gets past,
    and stops at the first other one, with what that one has written. *)
Lemma run_unzip_cons env dest f rest w :
  let o := unzip_loop env dest (f :: rest) w in
  let w' := mkWorld (write_entry env dest f (disk w)) (store w) in
  if entry_ok env dest f
  then res o = res (unzip_loop env dest rest w')
       ∧ final o = final (unzip_loop env dest rest w')
  else is_ok (res o) = false ∧ final o = w'.
Proof.
  cbv zeta. cbn [unzip_loop]. unfold entry_ok, write_entry.
  fold (entry_path dest f).
  destruct (IsDir f); cbn [orb].
  { rewrite run_bind. unfold ignore_err. rewrite run_MkdirAll.
    cbn [res final seen]. rewrite world_eta. auto. }
  rewrite run_bind, run_MkdirAll. cbn [res final seen].
  destruct (mkdir_fails env _); cbn [negb andb res final].
  { rewrite world_eta. auto. }
  rewrite run_bind, run_of_option. cbn [res final seen].
  destruct (Open f) as [rc|]; cbn [res final seen andb].
  2: { rewrite world_eta. auto. }
  rewrite run_bind, run_Create.
  destruct (create_fails env _); cbn [res final seen negb andb].
  { rewrite andb_false_r, world_eta. auto. }
  rewrite andb_true_r, run_bind, run_io_Copy.
  cbn [res final seen disk store]. rewrite insert_insert_eq.
  destruct (fails rc); cbn [negb res final is_ok]; auto.
Qed.

Lemma world_of_final {A} (o : Outcome A) d s :
  final o = mkWorld d s → disk (final o) = d ∧ store (final o) = s.
Proof. intros ->. auto. Qed.

(** The loop gets to its end exactly when it gets past every entry. *)
Lemma unzip_loop_ok env dest files w :
  forallb (entry_ok env dest) files = true →
  res (unzip_loop env dest files w) = inr tt
  ∧ final (unzip_loop env dest files w)
    = mkWorld (fold_left (λ d f, write_entry env dest f d) files (disk w))
        (store w).
Proof.
  revert w. induction files as [|f rest IH]; intros w Hall.
  - cbn. rewrite world_eta. auto.
  - cbn [forallb] in Hall. apply andb_true_iff in Hall as [Hf Hrest].
    pose proof (run_unzip_cons env dest f rest w) as H. cbv zeta in H.
    rewrite Hf in H. destruct H as [-> ->].
    destruct (IH (mkWorld (write_entry env dest f (disk w)) (store w)) Hrest)
      as [-> ->].
    auto.
Qed.

(** It stops at the first entry it does not get past; what the entries
    before it have written, and what that entry has, stays. *)
Lemma unzip_loop_stop env dest pre f post w :
  forallb (entry_ok env dest) pre = true →
  entry_ok env dest f = false →
  is_ok (res (unzip_loop env dest (pre ++ f :: post) w)) = false
  ∧ final (unzip_loop env dest (pre ++ f :: post) w)
    = mkWorld
        (write_entry env dest f
           (fold_left (λ d f, write_entry env dest f d) pre (disk w)))
        (store w).
Proof.
  revert w. induction pre as [|g pre IH]; intros w Hall Hf.
  - cbn [app fold_left].
    pose proof (run_unzip_cons env dest f post w) as H. cbv zeta in H.
    rewrite Hf in H. exact H.
  - cbn [forallb] in Hall. apply andb_true_iff in Hall as [Hg Hpre].
    cbn [app fold_left].
    pose proof (run_unzip_cons env dest g (pre ++ f :: post) w) as H.
    cbv zeta in H. rewrite Hg in H. destruct H as [-> ->].
    apply (IH (mkWorld (write_entry env dest g (disk w)) (store w)) Hpre Hf).
Qed.

Lemma forallb_split {A} (f : A → bool) l :
  forallb f l = false →
  ∃ pre x post, l = pre ++ x :: post ∧ forallb f pre = true ∧ f x = false.
Proof.
  induction l as [|a l IH]; [discriminate|]. cbn [forallb].
  destruct (f a) eqn:E; cbn [andb].
  - intros H. destruct (IH H) as (pre & x & post & -> & Hp & Hx).
    exists (a :: pre), x, post. cbn [forallb]. rewrite E. auto.
  - intros _. exists [], a, l. auto.
Qed.

Lemma unzip_loop_is_ok env dest files w :
  is_ok (res (unzip_loop env dest files w)) = forallb (entry_ok env dest) files.
Proof.
  destruct (forallb (entry_ok env dest) files) eqn:E.
  - destruct (unzip_loop_ok env dest files w E) as [-> _]. reflexivity.
  - destruct (forallb_split _ _ E) as (pre & f & post & -> & Hp & Hf).
    apply (unzip_loop_stop env dest pre f post w Hp Hf).
Qed.

(** What entries that are all got past leave at a path. *)
Lemma extract_lookup env dest files d path :
  forallb (entry_ok env dest) files = true →
  fold_left (λ d f, write_entry env dest f d) files d !! path
  = extracted dest files d path.
Proof.
  unfold extracted, written. revert d.
  induction files as [|f rest IH]; intros d Hall; [reflexivity|].
  cbn [forallb] in Hall. apply andb_true_iff in Hall as [Hf Hrest].
  cbn [fold_left rev]. rewrite (IH _ Hrest), find_snoc.
  destruct (find _ (rev rest)); [reflexivity|].
  rewrite (write_entry_ok env dest f d Hf).
  destruct (IsDir f); cbn [negb andb]; [reflexivity|].
  destruct (String.eqb (entry_path dest f) path) eqn:E.
  - apply String.eqb_eq in E. subst path. apply lookup_insert_eq.
  - apply String.eqb_neq in E. apply lookup_insert_ne, E.
Qed.

Lemma write_entry_keeps env dest f (d : gmap string string) p :
  d !! p ≠ None → write_entry env dest f d !! p ≠ None.
Proof.
  intros H. unfold write_entry.
  destruct (IsDir f); [exact H|].
  destruct (mkdir_fails env _); [exact H|].
  destruct (Open f) as [rc|]; [|exact H].
  destruct (create_fails env _); [exact H|].
  destruct (decide (entry_path dest f = p)) as [->|Hne].
  - rewrite lookup_insert_eq. discriminate.
  - rewrite lookup_insert_ne by exact Hne. exact H.
Qed.

(** The loop removes no file. *)
Lemma unzip_keeps_files env dest files w p :
  disk w !! p ≠ None →
  disk (final (unzip_loop env dest files w)) !! p ≠ None.
Proof.
  revert w. induction files as [|f rest IH]; intros w H; [exact H|].
  pose proof (run_unzip_cons env dest f rest w) as R. cbv zeta in R.
  destruct (entry_ok env dest f).
  - destruct R as [_ ->]. apply IH. cbn [disk].
    apply write_entry_keeps, H.
  - destruct R as [_ ->]. cbn [disk]. apply write_entry_keeps, H.
Qed.

Lemma run_unzipFile env zipPath dest w :
  unzipFile env zipPath dest w
  = match disk w !! zipPath with
    | None => mkOutcome (inl (ErrIO "read" zipPath)) w [books (store w)]
    | Some data =>
      match zip_Reader data with
      | None => mkOutcome (inl ErrZip) w [books (store w)]
      | Some files =>
        let o := unzip_loop env dest files w in
        mkOutcome (res o) (final o) (books (store w) :: seen o)
      end
    end.
Proof.
  unfold unzipFile. rewrite run_bind, run_ReadFile. cbn [res final seen].
  destruct (disk w !! zipPath) as [data|]; [|reflexivity].
  rewrite run_bind, run_of_option. cbn [res final seen].
  destruct (zip_Reader data) as [files|]; reflexivity.
Qed.

Lemma run_unzipFile_ok env zipPath dest w data files :
  disk w !! zipPath = Some data →
  zip_Reader data = Some files →
  let o := unzipFile env zipPath dest w in
  is_ok (res o) = forallb (entry_ok env dest) files
  ∧ store (final o) = store w
  ∧ (forallb (entry_ok env dest) files = true →
     res o = inr tt
     ∧ ∀ path, disk (final o) !! path = extracted dest files (disk w) path).
Proof.
  intros Hd Hz. cbv zeta. rewrite run_unzipFile, Hd, Hz. cbv zeta.
  cbn [res final]. split; [apply unzip_loop_is_ok|]. split.
  - apply (quiet_unzip_loop env dest files w).
  - intros Hall.
    destruct (unzip_loop_ok env dest files w Hall) as [-> ->].
    split; [reflexivity|]. intros path. cbn [disk].
    apply extract_lookup, Hall.
Qed.

(** ** [unzipFile] *)

(** [unzipFile] on an archive that is read and decoded.  It succeeds
    exactly when it gets past every entry: a directory entry always
    (the error of making it is dropped), a regular entry when its
    parent directory can be made, the entry opens, its file can be
    created and the entry is read to its end.  It then leaves, at
    every path, the bytes of the last regular entry whose place the
    path is (the join of the destination and the name of the entry),
    and what was there before at every other path; the store is not
    touched. *)
Theorem unzipFile_extracts (env : Env) (zipPath dest : string) (w : World)
    (data : string) (files : list zipFile) :
  disk w !! zipPath = Some data →
  zip_Reader data = Some files →
  let o := unzipFile env zipPath dest w in
  is_ok (res o) = forallb (entry_ok env dest) files
  ∧ store (final o) = store w
  ∧ (forallb (entry_ok env dest) files = true →
     res o = inr tt
     ∧ ∀ path, disk (final o) !! path = extracted dest files (disk w) path).
Proof. apply run_unzipFile_ok. Qed.

(** [unzipFile] does not undo what it has written.  When it stops at
    an entry it does not get past, every entry before that one stays
    extracted: apart from the place of the failing entry, every path
    holds what the entries before it have written there. *)
Theorem unzipFile_keeps_partial (env : Env) (zipPath dest : string)
    (w : World) (data : string) (pre : list zipFile) (f : zipFile)
    (post : list zipFile) :
  disk w !! zipPath = Some data →
  zip_Reader data = Some (pre ++ f :: post) →
  forallb (entry_ok env dest) pre = true →
  entry_ok env dest f = false →
  let o := unzipFile env zipPath dest w in
  is_ok (res o) = false
  ∧ ∀ path, path ≠ entry_path dest f →
      disk (final o) !! path = extracted dest pre (disk w) path.
Proof.
  intros Hd Hz Hpre Hf. cbv zeta. rewrite run_unzipFile, Hd, Hz. cbv zeta.
  cbn [res final].
  destruct (unzip_loop_stop env dest pre f post w Hpre Hf) as [-> ->].
  split; [reflexivity|]. intros path Hne. cbn [disk].
  rewrite <- (extract_lookup env dest pre (disk w) path Hpre).
  unfold write_entry.
  destruct (IsDir f); [reflexivity|].
  destruct (mkdir_fails env _); [reflexivity|].
  destruct (Open f) as [rc|]; [|reflexivity].
  destruct (create_fails env _); [reflexivity|].
  apply lookup_insert_ne. congruence.
Qed.

End UnzipFacts.

(* ================================================================== *)
(** * What ingestion leaves on the disk *)
(* ================================================================== *)

Section IngestDisk.
Context {codecs : Codecs} {sorter : SortSlice}.

Lemma get_rootDir_bind {B} (k : string → M B) w :
  (get_rootDir ≫= k) w = k (rootDir (store w)) w.
Proof. rewrite run_bind. cbn. apply outcome_eta. Qed.

Lemma ingest_upload_cases env file header w :
  let id := deriveID header (now env) in
  let bookDir := filepath_Join [rootDir (store w); id] in
  let epub := filepath_Join [bookDir; "book.epub"] in
  let u := ingest_upload env file header w in
  if mkdir_fails env bookDir
  then res u = inl (ErrIO "mkdir" bookDir) ∧ final u = w
  else if create_fails env epub
  then res u = inl (ErrIO "open" epub) ∧ final u = w
  else final u = mkWorld (<[epub := bytes file]> (disk w)) (store w)
       ∧ res u = if fails file then inl (ErrIO "copy" epub)
                 else inr (epub, filepath_Join [bookDir; "unpacked"]).
Proof.
  cbv zeta. unfold ingest_upload. rewrite get_rootDir_bind.
  rewrite run_bind, run_MkdirAll. cbn [res final seen].
  destruct (mkdir_fails env _); cbn [res final]; [auto|].
  rewrite run_bind, run_Create.
  destruct (create_fails env _); cbn [res final seen]; [auto|].
  rewrite run_bind, run_io_Copy. cbn [res final seen disk store].
  rewrite insert_insert_eq.
  destruct (fails file); cbn [res final]; auto.
Qed.

(** The disk [ingest] leaves is the one its upload stage leaves when
    that stage fails, and else the one [unzipFile] leaves: nothing is
    written after the extraction. *)
Lemma ingest_disk env file header w :
  let u := ingest_upload env file header w in
  let o := ingest env file header w in
  match res u with
  | inl e => res o = inl e ∧ final o = final u
  | inr (epub, root) =>
    let x := unzipFile env epub root (final u) in
    disk (final o) = disk (final x)
    ∧ match res x with
      | inl e => res o = inl e ∧ final o = final x
      | inr _ => True
      end
  end.
Proof.
  cbv zeta.
  pose proof (ingest_run env file header w) as H. cbv zeta in H.
  rewrite ingest_parse_stages in H. rewrite run_bind in H.
  destruct (res (ingest_upload env file header w)) as [e|[epub root]].
  - cbn [res final seen] in H. rewrite H. cbn [res final]. auto.
  - cbn [res final seen fst snd] in H. rewrite run_bind in H.
    destruct (res (unzipFile env epub root _)) as [e|[]].
    + cbn [res final seen] in H. rewrite H. cbn [res final]. auto.
    + cbn [res final seen] in H. rewrite run_bind in H.
      rewrite final_findRootfile in H.
      destruct (res (findRootfile root _)) as [e|rootfile].
      * cbn [res final seen] in H. rewrite H. cbn [res final]. auto.
      * cbn [res final seen] in H. rewrite run_bind in H.
        rewrite final_parseOPF in H.
        destruct (res (parseOPF _ _)) as [e|opf].
        -- cbn [res final seen] in H. rewrite H. cbn [res final]. auto.
        -- cbn [res final seen mret M_ret ret] in H.
           destruct H as (_ & -> & _). cbn [disk]. auto.
Qed.

(** A successful [ingest] has had a successful parse stage, and its
    record is built from what that stage returns. *)
Lemma ingest_ok_parse env file header w id info :
  res (ingest env file header w) = inr (id, info) →
  ∃ root rootfile opf,
    res (ingest_parse env file header w) = inr (root, rootfile, opf)
    ∧ id = deriveID header (now env)
    ∧ info = book_record id root rootfile opf
               (toc_items (disk (final (ingest env file header w)))
                  root rootfile opf).
Proof.
  intros Hres.
  pose proof (ingest_run env file header w) as H. cbv zeta in H.
  destruct (res (ingest_parse env file header w)) as [e|[[root rootfile] opf]].
  - rewrite H in Hres. discriminate.
  - destruct H as (Hres' & Hfin & _). rewrite Hres' in Hres.
    injection Hres as <- <-. rewrite Hfin. cbn [disk].
    exists root, rootfile, opf. auto.
Qed.

(** The tree a successful [ingest] leaves: the upload at its place and
    the entries of the archive over it. *)
Lemma ingest_ok_disk env file header w id info files :
  res (ingest env file header w) = inr (id, info) →
  zip_Reader (bytes file) = Some files →
  let bookDir := filepath_Join [rootDir (store w); id] in
  let epub := filepath_Join [bookDir; "book.epub"] in
  BookInfo.RootFS info = filepath_Join [bookDir; "unpacked"]
  ∧ forallb (entry_ok env (BookInfo.RootFS info)) files = true
  ∧ ∀ path,
      disk (final (ingest env file header w)) !! path
      = extracted (BookInfo.RootFS info) files
          (<[epub := bytes file]> (disk w)) path.
Proof.
  intros Hres Hz. cbv zeta.
  destruct (ingest_ok_parse env file header w id info Hres)
    as (root & rootfile & opf & Hp & Hid & Hinfo).
  destruct (ingest_parse_ok env file header w root rootfile opf Hp)
    as (Hroot & _).
  assert (HFS : BookInfo.RootFS info = root) by (rewrite Hinfo; reflexivity).
  rewrite HFS. unfold unpacked_root in Hroot. rewrite <- Hid in Hroot.
  split; [exact Hroot|].
  pose proof (ingest_disk env file header w) as D. cbv zeta in D.
  pose proof (ingest_upload_cases env file header w) as U. cbv zeta in U.
  rewrite <- Hid in U.
  destruct (mkdir_fails env _).
  { destruct U as [U _]. rewrite U in D. destruct D as [D _]. congruence. }
  destruct (create_fails env _).
  { destruct U as [U _]. rewrite U in D. destruct D as [D _]. congruence. }
  destruct U as [Uf Ur]. rewrite Ur in D.
  destruct (fails file).
  { destruct D as [D _]. congruence. }
  rewrite <- Hroot in D. destruct D as [Dd Dr]. rewrite Uf in Dd, Dr.
  set (epub := filepath_Join [filepath_Join [rootDir (store w); id]; "book.epub"])
    in *.
  set (stored := mkWorld (<[epub := bytes file]> (disk w)) (store w)) in *.
  assert (Hd : disk stored !! epub = Some (bytes file))
    by apply lookup_insert_eq.
  destruct (run_unzipFile_ok env epub root stored (bytes file) files Hd Hz)
    as (Hok & _ & Hall).
  destruct (forallb (entry_ok env root) files).
  - split; [reflexivity|]. destruct (Hall eq_refl) as [_ Hl].
    intros path. rewrite Dd. apply Hl.
  - destruct (res (unzipFile env epub root stored)) as [e|u];
      [|discriminate Hok].
    destruct Dr as [Dr _]. congruence.
Qed.

(** ** Failures before the extraction *)

(** [ingest] cleans nothing up.  When the directory of the book or
    the file of the upload cannot be made, the error is returned and
    the world is as before.  When reading the upload fails, or the
    upload read to its end is not a zip archive, the error is returned
    (a copy error, a zip error) and the bytes received stay on the
    disk at [book.epub] under the directory of the book; the catalog is
    as before. *)
Theorem ingest_rejected_upload_stays (env : Env) (file : reader)
    (header : FileHeader) (w : World) :
  let id := deriveID header (now env) in
  let bookDir := filepath_Join [rootDir (store w); id] in
  let epub := filepath_Join [bookDir; "book.epub"] in
  let stored := mkWorld (<[epub := bytes file]> (disk w)) (store w) in
  let o := ingest env file header w in
  if mkdir_fails env bookDir
  then res o = inl (ErrIO "mkdir" bookDir) ∧ final o = w
  else if create_fails env epub
  then res o = inl (ErrIO "open" epub) ∧ final o = w
  else if fails file
  then res o = inl (ErrIO "copy" epub) ∧ final o = stored
  else match zip_Reader (bytes file) with
       | None => res o = inl ErrZip ∧ final o = stored
       | Some _ => disk (final o) !! epub ≠ None
       end.
Proof.
  cbv zeta.
  pose proof (ingest_disk env file header w) as D. cbv zeta in D.
  pose proof (ingest_upload_cases env file header w) as U. cbv zeta in U.
  destruct (mkdir_fails env _).
  { destruct U as [U1 U2]. rewrite U1, U2 in D. exact D. }
  destruct (create_fails env _).
  { destruct U as [U1 U2]. rewrite U1, U2 in D. exact D. }
  destruct U as [Uf Ur]. rewrite Ur, Uf in D.
  destruct (fails file); [exact D|].
  set (epub := filepath_Join
                 [filepath_Join [rootDir (store w); deriveID header (now env)];
                  "book.epub"]) in *.
  set (root := filepath_Join
                 [filepath_Join [rootDir (store w); deriveID header (now env)];
                  "unpacked"]) in *.
  set (stored := mkWorld (<[epub := bytes file]> (disk w)) (store w)) in *.
  assert (Hd : disk stored !! epub = Some (bytes file))
    by apply lookup_insert_eq.
  destruct D as [Dd Dr]. rewrite run_unzipFile, Hd in Dd, Dr.
  destruct (zip_Reader (bytes file)) as [files|] eqn:Hz.
  - cbv zeta in Dd. cbn [final] in Dd. rewrite Dd.
    apply unzip_keeps_files. rewrite Hd. discriminate.
  - cbn [res final] in Dr. exact Dr.
Qed.

End IngestDisk.

(* ================================================================== *)
(** * Joined paths *)
(* ================================================================== *)

Module JoinFacts.
Import GoPath PathSpec PathFacts JoinSpec.

Lemma Clean_render p :
  p ≠ "" → Clean p = render (is_rooted p) (stack (is_rooted p) p).
Proof.
  intros Hne. unfold Clean, render, stack.
  destruct p as [|c r]; [congruence|]. cbn [Str.is_empty].
  destruct (is_rooted (String c r)); [reflexivity|].
  destruct (fold_left _ _ _); reflexivity.
Qed.

Lemma elems_not_nil s : elems s ≠ [].
Proof.
  destruct s as [|c r]; cbn [elems]; [discriminate|].
  destruct (Ascii.eqb c slash); [discriminate|].
  destruct (elems r); discriminate.
Qed.

Lemma elems_app a b : elems (a +:+ String slash b) = elems a ++ elems b.
Proof.
  induction a as [|c r IH].
  - rewrite app_nil_l_str. cbn [elems]. rewrite Ascii.eqb_refl. reflexivity.
  - rewrite app_cons_str. cbn [elems]. rewrite IH.
    destruct (Ascii.eqb c slash); [reflexivity|].
    pose proof (elems_not_nil r) as Hr.
    destruct (elems r) as [|e es]; [congruence|]. reflexivity.
Qed.

Lemma is_rooted_app a b : a ≠ "" → is_rooted (a +:+ b) = is_rooted a.
Proof. destruct a; [congruence | reflexivity]. Qed.

Lemma app_not_empty a b : a ≠ "" → a +:+ b ≠ "".
Proof. destruct a; [congruence | discriminate]. Qed.

Lemma stack_app rooted a b :
  stack rooted (a +:+ String slash b)
  = fold_left (clean_step rooted) (elems b) (stack rooted a).
Proof. unfold stack. rewrite elems_app, fold_left_app. reflexivity. Qed.

Lemma stack_ok_stack rooted p :
  stack_ok rooted (stack rooted p)
  ∧ Forall (λ e, no_slash e = true) (stack rooted p).
Proof.
  split.
  - apply fold_clean_ok, stack_ok_nil.
  - apply fold_clean_no_slash; [apply elems_no_slash | constructor].
Qed.

Lemma no_slash_dotdots k : Forall (λ e, no_slash e = true) (repeat ".." k).
Proof. induction k; cbn [repeat]; constructor; [reflexivity | assumption]. Qed.

(** The head of a non-empty reversed stack is not empty and has no
    slash. *)
Lemma rev_stack_head rooted out e l :
  stack_ok rooted out → Forall (λ e, no_slash e = true) out →
  rev out = e :: l →
  e ≠ "" ∧ no_slash e = true ∧ Forall (λ e, no_slash e = true) (e :: l).
Proof.
  intros (ords & k & -> & Ho & _) Hs E.
  rewrite rev_app_distr, rev_repeat_eq in E.
  apply Forall_app in Hs as [Hs _].
  apply (run_head k (rev ords) e l); [apply Forall_rev, Ho | apply Forall_rev, Hs | exact E].
Qed.

Lemma render_rooted rooted out :
  stack_ok rooted out → Forall (λ e, no_slash e = true) out →
  is_rooted (render rooted out) = rooted ∧ render rooted out ≠ "".
Proof.
  intros Hok Hs. unfold render. destruct rooted.
  - split; [reflexivity | discriminate].
  - destruct out as [|x out']; [split; [reflexivity | discriminate]|].
    destruct (rev (x :: out')) as [|e l] eqn:E.
    { apply (f_equal (@rev string)) in E. rewrite rev_involutive in E.
      discriminate. }
    destruct (rev_stack_head false (x :: out') e l Hok Hs E) as (He & Hse & _).
    split; [apply join_head_not_rooted; assumption|].
    apply join_head_not_empty, He.
Qed.

(** Scanning what [Clean] has written gives the stack it was written
    from. *)
Lemma stack_render rooted out :
  stack_ok rooted out → Forall (λ e, no_slash e = true) out →
  stack rooted (render rooted out) = out.
Proof.
  intros Hok Hs. pose proof Hok as (ords & k & Hout & Ho & Hk).
  unfold stack, render. destruct rooted.
  - rewrite (Hk eq_refl) in Hout. cbn [repeat] in Hout.
    rewrite app_nil_r in Hout. subst out.
    cbn [elems]. rewrite Ascii.eqb_refl. cbn [fold_left].
    change (clean_step true [] "") with (@nil string).
    destruct (rev ords) as [|e l] eqn:E.
    + apply (f_equal (@rev string)) in E. rewrite rev_involutive in E.
      subst ords. reflexivity.
    + rewrite elems_join; [|discriminate|].
      * rewrite <- E, fold_ordinary by (apply Forall_rev, Ho).
        rewrite rev_involutive, app_nil_r. reflexivity.
      * rewrite <- E. apply Forall_rev, Hs.
  - destruct out as [|x out']; [reflexivity|].
    destruct (rev (x :: out')) as [|e l] eqn:E.
    { apply (f_equal (@rev string)) in E. rewrite rev_involutive in E.
      discriminate. }
    destruct (rev_stack_head false (x :: out') e l Hok Hs E) as (_ & _ & Hall).
    rewrite elems_join; [|discriminate|exact Hall].
    rewrite <- E, Hout, rev_app_distr, rev_repeat_eq, fold_left_app.
    rewrite fold_dotdots_nil, fold_ordinary by (apply Forall_rev, Ho).
    rewrite rev_involutive. reflexivity.
Qed.

(** Cleaning the left part of a join first changes nothing. *)
Lemma Clean_join_left p q :
  p ≠ "" →
  Clean (Clean p +:+ String slash q) = Clean (p +:+ String slash q).
Proof.
  intros Hp.
  destruct (stack_ok_stack (is_rooted p) p) as [Hok Hs].
  destruct (render_rooted _ _ Hok Hs) as [Hr Hne].
  rewrite (Clean_render p Hp).
  rewrite (Clean_render (_ +:+ _) (app_not_empty _ _ Hne)).
  rewrite (Clean_render (p +:+ _) (app_not_empty _ _ Hp)).
  rewrite !is_rooted_app by assumption. rewrite Hr.
  rewrite !stack_app, stack_render by assumption. reflexivity.
Qed.

Lemma Join_pair a b :
  a ≠ "" → b ≠ "" → Join [a; b] = Clean (a +:+ String slash b).
Proof.
  intros Ha Hb. unfold Join.
  destruct a as [|c r]; [congruence|]. cbn [forallb Str.is_empty andb].
  reflexivity.
Qed.

Lemma Join_nil_left b : b ≠ "" → Join [""; b] = Clean b.
Proof.
  intros Hb. unfold Join. destruct b as [|c r]; [congruence|]. reflexivity.
Qed.

Lemma Join_not_empty a b : b ≠ "" → Join [a; b] ≠ "".
Proof.
  intros Hb. destruct (decide (a = "")) as [->|Ha].
  - rewrite Join_nil_left by exact Hb. apply Clean_not_empty.
  - rewrite Join_pair by assumption. apply Clean_not_empty.
Qed.

Lemma join_app l1 l2 :
  l1 ≠ [] → l2 ≠ [] →
  join_elems (l1 ++ l2) = join_elems l1 +:+ String slash (join_elems l2).
Proof.
  intros H1 H2. induction l1 as [|e l IH]; [congruence|].
  destruct l as [|e' l'].
  - cbn [app]. destruct l2 as [|x l2']; [congruence|]. reflexivity.
  - change (join_elems ((e :: e' :: l') ++ l2))
      with (e +:+ String slash (join_elems ((e' :: l') ++ l2))).
    rewrite IH by discriminate.
    change (join_elems (e :: e' :: l'))
      with (e +:+ String slash (join_elems (e' :: l'))).
    rewrite app_assoc_str, app_cons_str. reflexivity.
Qed.

Lemma join_elems_elems s : join_elems (elems s) = s.
Proof.
  induction s as [|c r IH]; [reflexivity|]. cbn [elems].
  pose proof (elems_not_nil r) as Hr.
  destruct (Ascii.eqb c slash) eqn:E.
  - apply Ascii.eqb_eq in E. subst c.
    destruct (elems r) as [|e es]; [congruence|].
    change (join_elems ("" :: e :: es))
      with ("" +:+ String slash (join_elems (e :: es))).
    rewrite IH. reflexivity.
  - destruct (elems r) as [|e es]; [congruence|].
    destruct es as [|e' es'].
    + cbn [join_elems] in IH |- *. rewrite IH. reflexivity.
    + change (join_elems (String c e :: e' :: es'))
        with (String c (e +:+ String slash (join_elems (e' :: es')))).
      change (join_elems (e :: e' :: es'))
        with (e +:+ String slash (join_elems (e' :: es'))) in IH.
      rewrite IH. reflexivity.
Qed.

Lemma Join_joined b e : e ≠ "" → Join [b; e] = Clean (joined b e).
Proof.
  intros He. unfold joined. destruct (Str.is_empty b) eqn:E.
  - apply is_empty_true in E. subst b. apply Join_nil_left, He.
  - apply Join_pair; [|exact He]. intros ->. discriminate.
Qed.

Lemma joined_not_empty b e : e ≠ "" → joined b e ≠ "".
Proof.
  intros He. unfold joined. destruct b; [exact He | discriminate].
Qed.

Lemma no_slash_not_rooted e : no_slash e = true → is_rooted e = false.
Proof.
  destruct e as [|c r]; [reflexivity|]. cbn [no_slash is_rooted].
  intros [H _]%andb_true_iff. apply negb_true_iff, H.
Qed.

Lemma is_rooted_joined b e :
  no_slash e = true → is_rooted (joined b e) = is_rooted b.
Proof.
  intros He. unfold joined. destruct b as [|c r]; [|reflexivity].
  apply no_slash_not_rooted, He.
Qed.

Lemma stack_joined b e :
  ordinary e = true → no_slash e = true →
  stack (is_rooted b) (joined b e) = e :: base_stack b.
Proof.
  intros Ho Hs. unfold joined, base_stack.
  destruct (Str.is_empty b) eqn:E.
  - apply is_empty_true in E. subst b. unfold stack.
    rewrite (elems_single e Hs). cbn [fold_left].
    apply ordinary_step, Ho.
  - rewrite stack_app, (elems_single e Hs). cbn [fold_left].
    apply ordinary_step, Ho.
Qed.

(** The join of a base and one ordinary element. *)
Lemma Join_elem b e :
  ordinary e = true → no_slash e = true →
  Join [b; e] = render (is_rooted b) (e :: base_stack b).
Proof.
  intros Ho Hs. pose proof (ordinary_not_empty e Ho) as He.
  rewrite (Join_joined b e He), (Clean_render _ (joined_not_empty b e He)).
  rewrite (is_rooted_joined b e Hs), (stack_joined b e Ho Hs). reflexivity.
Qed.

(** A further path joined to it is scanned on from its stack. *)
Lemma Join_Join_elem b e q :
  ordinary e = true → no_slash e = true → q ≠ "" →
  Join [Join [b; e]; q]
  = render (is_rooted b)
      (fold_left (clean_step (is_rooted b)) (elems q) (e :: base_stack b)).
Proof.
  intros Ho Hs Hq. pose proof (ordinary_not_empty e Ho) as He.
  rewrite (Join_pair _ q (Join_not_empty b e He) Hq).
  rewrite (Join_joined b e He).
  rewrite (Clean_join_left _ q (joined_not_empty b e He)).
  rewrite (Clean_render _ (app_not_empty _ _ (joined_not_empty b e He))).
  rewrite (is_rooted_app _ _ (joined_not_empty b e He)).
  rewrite (is_rooted_joined b e Hs), stack_app, (stack_joined b e Ho Hs).
  reflexivity.
Qed.


Lemma below_not_empty rel : below rel = true → rel ≠ "".
Proof. intros H ->. discriminate H. Qed.

Lemma forallb_Forall {A} (f : A → bool) l :
  forallb f l = true → Forall (λ x, f x = true) l.
Proof.
  induction l as [|x l IH]; [constructor|]. cbn [forallb].
  intros [Hx Hl]%andb_true_iff. constructor; auto.
Qed.

(** A path of ordinary elements joined to a directory that ends in an
    ordinary element is written after it. *)
Lemma Join_below b e rel :
  ordinary e = true → no_slash e = true → below rel = true →
  Join [Join [b; e]; rel] = Join [b; e] +:+ String slash rel.
Proof.
  intros Ho Hs Hrel.
  rewrite (Join_Join_elem b e rel Ho Hs (below_not_empty rel Hrel)).
  rewrite (Join_elem b e Ho Hs).
  rewrite fold_ordinary by (apply forallb_Forall, Hrel).
  unfold render.
  pose proof (elems_not_nil rel) as Hne.
  assert (E : rev (rev (elems rel) ++ e :: base_stack b)
              = rev (e :: base_stack b) ++ elems rel)
    by (rewrite rev_app_distr, rev_involutive; reflexivity).
  assert (Hb : rev (e :: base_stack b) ≠ []).
  { cbn [rev]. intros H. apply app_eq_nil in H as [_ H]. discriminate. }
  rewrite E, (join_app _ _ Hb Hne), join_elems_elems.
  destruct (is_rooted b); [reflexivity|].
  destruct (rev (elems rel) ++ e :: base_stack b) eqn:E2; [|reflexivity].
  apply app_eq_nil in E2 as [_ E2]. discriminate.
Qed.

End JoinFacts.

(* ================================================================== *)
(** * The unpacked tree and the files served from it *)
(* ================================================================== *)

Section Served.
Context {codecs : Codecs} {sorter : SortSlice}.

Lemma file_handler_ok env file header w id info rel :
  res (ingest env file header w) = inr (id, info) →
  file_handler (store (final (ingest env file header w))) id
    ("/api/books/" +:+ id +:+ "/file/" +:+ rel)
  = ServeFile (filepath_Join [BookInfo.RootFS info; rel]).
Proof.
  intros Hres. apply ingest_ok_inv in Hres as [_ Hb].
  unfold file_handler, GetBookByID. rewrite Hb, lookup_insert_eq.
  cbv zeta.
  replace ("/api/books/" +:+ id +:+ "/file/" +:+ rel)
    with (("/api/books/" +:+ id +:+ "/file/") +:+ rel)
    by (rewrite !app_assoc_str; reflexivity).
  rewrite EscapeFacts.drop_app_str. reflexivity.
Qed.

(** The tree a successful [ingest] leaves on the disk.  The record
    has, as its root, the directory [unpacked] under the directory of
    the book; every entry of the archive was got past; and every path
    holds the bytes of the last regular entry of the archive whose
    place it is, or else what was there before, the upload itself being
    at [book.epub] beside the root.  Nothing is written after the
    extraction. *)
Theorem ingest_extracted_tree (env : Env) (file : reader)
    (header : FileHeader) (w : World) (id : string) (info : BookInfo.t)
    (files : list zipFile) :
  res (ingest env file header w) = inr (id, info) →
  zip_Reader (bytes file) = Some files →
  let bookDir := filepath_Join [rootDir (store w); id] in
  let epub := filepath_Join [bookDir; "book.epub"] in
  BookInfo.RootFS info = filepath_Join [bookDir; "unpacked"]
  ∧ forallb (entry_ok env (BookInfo.RootFS info)) files = true
  ∧ ∀ path,
      disk (final (ingest env file header w)) !! path
      = extracted (BookInfo.RootFS info) files
          (<[epub := bytes file]> (disk w)) path.
Proof. apply ingest_ok_disk. Qed.

(** What the archive holds is what is served.  After a successful
    [ingest], a request for [/api/books/{id}/file/] followed by a name
    is answered with the file at the join of the root of the book and
    that name, and when a regular entry of the archive was written at
    that place, the file holds the bytes of the last such entry. *)
Theorem file_handler_serves_archive (env : Env) (file : reader)
    (header : FileHeader) (w : World) (id : string) (info : BookInfo.t)
    (files : list zipFile) (name data : string) :
  res (ingest env file header w) = inr (id, info) →
  zip_Reader (bytes file) = Some files →
  written (BookInfo.RootFS info) files
    (filepath_Join [BookInfo.RootFS info; name]) = Some data →
  let o := ingest env file header w in
  ∃ p,
    file_handler (store (final o)) id
      ("/api/books/" +:+ id +:+ "/file/" +:+ name) = ServeFile p
    ∧ disk (final o) !! p = Some data.
Proof.
  intros Hres Hz Hw. cbv zeta. eexists. split.
  - apply (file_handler_ok env file header w id info name Hres).
  - destruct (ingest_ok_disk env file header w id info files Hres Hz)
      as (_ & _ & Hl).
    rewrite Hl. unfold extracted. rewrite Hw. reflexivity.
Qed.

(** Names of ordinary elements stay below the root.  After a
    successful [ingest], an entry of the archive whose name has only
    ordinary elements (none empty, none [.] or [..]) has its place at
    the root of the book followed by a slash and the name, and a
    request for such a name is answered with the file at that place. *)
Theorem ordinary_names_below_root (env : Env) (file : reader)
    (header : FileHeader) (w : World) (id : string) (info : BookInfo.t)
    (rel : string) :
  res (ingest env file header w) = inr (id, info) →
  JoinSpec.below rel = true →
  let root := BookInfo.RootFS info in
  (∀ f, Name f = rel → entry_path root f = root +:+ "/" +:+ rel)
  ∧ file_handler (store (final (ingest env file header w))) id
      ("/api/books/" +:+ id +:+ "/file/" +:+ rel)
    = ServeFile (root +:+ "/" +:+ rel).
Proof.
  intros Hres Hrel. cbv zeta.
  assert (Hroot : BookInfo.RootFS info
                  = filepath_Join
                      [filepath_Join [rootDir (store w); id]; "unpacked"]).
  { destruct (ingest_ok_parse env file header w id info Hres)
      as (root & rootfile & opf & Hp & Hid & Hinfo).
    destruct (ingest_parse_ok env file header w root rootfile opf Hp)
      as (Hr & _).
    rewrite Hinfo. cbn [BookInfo.RootFS book_record]. rewrite Hr, Hid.
    reflexivity. }
  assert (J : filepath_Join [BookInfo.RootFS info; rel]
              = BookInfo.RootFS info +:+ "/" +:+ rel).
  { rewrite Hroot. apply JoinFacts.Join_below; [reflexivity..|exact Hrel]. }
  split.
  - intros f <-. exact J.
  - rewrite (file_handler_ok env file header w id info _ Hres), J.
    reflexivity.
Qed.


End Served.

(* ================================================================== *)
(** * The catalog and the read handlers *)
(* ================================================================== *)

Section Reads.
Context {codecs : Codecs} {sorter : SortSlice}.

Lemma ingest_store env file header w :
  let o := ingest env file header w in
  match res o with
  | inl _ => store (final o) = store w
  | inr (id, info) =>
    id = deriveID header (now env)
    ∧ BookInfo.ID info = id
    ∧ BookInfo.RootFS info = unpacked_root (store w) id
    ∧ store (final o)
      = mkStore (rootDir (store w)) (<[id := info]> (books (store w)))
  end.
Proof.
  cbv zeta.
  pose proof (ingest_run env file header w) as H. cbv zeta in H.
  destruct (quiet_ingest_parse env file header w) as [Hst _].
  destruct (res (ingest_parse env file header w))
    as [e|[[root rootfile] opf]] eqn:Hp.
  - rewrite H. cbn [res final]. exact Hst.
  - destruct H as (-> & -> & _). cbn [store].
    destruct (ingest_parse_ok env file header w root rootfile opf Hp)
      as (Hroot & _).
    repeat split. exact Hroot.
Qed.

Lemma reachable_filed root w :
  reachable root w → rootDir (store w) = root ∧ filed (store w).
Proof.
  induction 1 as [d|env file header w Hw [IHr IHf]|d w Hw IH].
  - split; [reflexivity|]. intros id b H. cbn in H.
    rewrite lookup_empty in H. discriminate.
  - pose proof (ingest_store env file header w) as H. cbv zeta in H.
    destruct (res (ingest env file header w)) as [e|[id info]].
    + rewrite H. auto.
    + destruct H as (Hid & HID & HFS & ->). cbn [rootDir].
      split; [exact IHr|]. intros id' b Hb. cbn [books] in Hb.
      unfold unpacked_root. cbn [rootDir].
      destruct (decide (id = id')) as [<-|Hne].
      * rewrite lookup_insert_eq in Hb. injection Hb as <-.
        split; [exact HID|]. rewrite Hid.
        split; [apply deriveID_length|]. split; [apply deriveID_hex|].
        rewrite <- Hid. exact HFS.
      * rewrite lookup_insert_ne in Hb by exact Hne.
        apply (IHf id' b Hb).
  - exact IH.
Qed.

Lemma ListBooks_In s r :
  In r (ListBooks s) ↔ ∃ id b, books s !! id = Some b ∧ r = public b.
Proof.
  unfold ListBooks. rewrite <- list_elem_of_In, list_elem_of_fmap. split.
  - intros ([id b] & -> & Hin). apply elem_of_map_to_list in Hin.
    exists id, b. auto.
  - intros (id & b & Hb & ->). exists (id, b). split; [reflexivity|].
    apply elem_of_map_to_list, Hb.
Qed.

(** ** The catalog invariant *)

(** Whatever uploads the server has taken since [main] made the store,
    the store keeps its root directory, and every record in the catalog
    is filed under its own identifier, which is 12 lower-case
    hexadecimal digits, and has its root at [unpacked] under the
    directory of that identifier. *)
Theorem catalog_records_filed (root : string) (w : World) :
  reachable root w →
  rootDir (store w) = root
  ∧ ∀ id b, GetBookByID (store w) id = Some b →
      BookInfo.ID b = id
      ∧ String.length id = 12%nat
      ∧ all_chars is_lower_hex id = true
      ∧ BookInfo.RootFS b
        = filepath_Join [filepath_Join [root; id]; "unpacked"].
Proof.
  intros H. destruct (reachable_filed root w H) as [Hr Hf].
  split; [exact Hr|]. intros id b Hb.
  destruct (Hf id b Hb) as (H1 & H2 & H3 & H4).
  rewrite H4. unfold unpacked_root. rewrite Hr. auto.
Qed.

(** The list and the lookups agree.  In every world the server can be
    in, [GetBook] answers for an identifier with a record exactly when
    [ListBooks] lists that record and its identifier is that one; no
    identifier is listed twice; and for every listed record the
    metadata, the spine and the table of contents of its identifier are
    found. *)
Theorem listed_books_open (root : string) (w : World) :
  reachable root w →
  let s := store w in
  (∀ id r, GetBook s id = Some r ↔ In r (ListBooks s) ∧ listed_id r = id)
  ∧ NoDup (listed_id <$> ListBooks s)
  ∧ ∀ r, In r (ListBooks s) →
      GetMetadata s (listed_id r) = Some (r.1.1.2, r.1.2)
      ∧ GetSpine s (listed_id r) ≠ None
      ∧ GetTOC s (listed_id r) ≠ None.
Proof.
  intros H. cbv zeta. destruct (reachable_filed root w H) as [_ Hf].
  assert (Hget : ∀ r, In r (ListBooks (store w)) →
            ∃ b, books (store w) !! listed_id r = Some b ∧ r = public b).
  { intros r Hr. apply ListBooks_In in Hr as (id & b & Hb & ->).
    exists b. split; [|reflexivity].
    destruct (Hf id b Hb) as (HID & _). unfold listed_id, public. cbn.
    rewrite HID. exact Hb. }
  split; [|split].
  - intros id r. unfold GetBook, GetBookByID. split.
    + destruct (books (store w) !! id) as [b|] eqn:Hb; [|discriminate].
      cbn. intros E. injection E as <-. split.
      * apply ListBooks_In. eauto.
      * destruct (Hf id b Hb) as (HID & _). exact HID.
    + intros [Hr <-]. destruct (Hget r Hr) as (b & -> & ->). reflexivity.
  - unfold ListBooks. rewrite <- list_fmap_compose.
    assert (E : (listed_id ∘ (λ kv : string * BookInfo.t, public kv.2))
                  <$> map_to_list (books (store w))
                = (map_to_list (books (store w))).*1).
    { apply list_fmap_ext. intros i [id b] Hl. cbn.
      apply list_elem_of_lookup_2, elem_of_map_to_list in Hl.
      destruct (Hf id b Hl) as (HID & _). exact HID. }
    rewrite E. apply NoDup_fst_map_to_list.
  - intros r Hr. destruct (Hget r Hr) as (b & Hb & ->).
    unfold GetMetadata, GetSpine, GetTOC, GetBookByID. rewrite Hb.
    cbn. repeat split; discriminate.
Qed.

(** An upload adds one record to the list, or takes the place of one.
    After a successful [ingest], [ListBooks] lists the public part of
    the new record together with the records listed before under other
    identifiers, in some order. *)
Theorem ListBooks_after_ingest (env : Env) (file : reader)
    (header : FileHeader) (w : World) (id : string) (info : BookInfo.t) :
  res (ingest env file header w) = inr (id, info) →
  Permutation
    (ListBooks (store (final (ingest env file header w))))
    (public info
     :: ListBooks (mkStore (rootDir (store w)) (delete id (books (store w))))).
Proof.
  intros Hres. apply ingest_ok_inv in Hres as [_ Hb].
  unfold ListBooks. rewrite Hb. cbn [books].
  rewrite <- (insert_delete_eq (books (store w))).
  rewrite map_to_list_insert by apply lookup_delete_eq.
  reflexivity.
Qed.

End Reads.

(* ================================================================== *)
(** * Text without markup *)
(* ================================================================== *)

Module TextFacts.
Import GoStrings NavSpec.

Lemma text_outside_no_markup b rs :
  Forall (λ r, r ≠ lt_rune ∧ r ≠ gt_rune) (text_outside b rs).
Proof.
  revert b. induction rs as [|r rest IH]; intros b; cbn [text_outside].
  - constructor.
  - destruct (r =? lt_rune)%N eqn:E1; [apply IH|].
    destruct (r =? gt_rune)%N eqn:E2; [apply IH|].
    destruct b; [apply IH|].
    constructor; [|apply IH].
    split; apply N.eqb_neq; assumption.
Qed.

Lemma N_of_byte n : N_of_ascii (utf8.byte n) = (n mod 256)%N.
Proof.
  unfold utf8.byte. apply N_ascii_embedding.
  apply N.mod_upper_bound. discriminate.
Qed.

(** A byte with its high bit set is not an angle bracket. *)
Lemma byte_high hi x :
  N.testbit hi 7 = true → not_angle (utf8.byte (N.lor hi x)) = true.
Proof.
  intros Hhi.
  assert (T : N.testbit (N_of_ascii (utf8.byte (N.lor hi x))) 7 = true).
  { rewrite N_of_byte. change 256%N with (2 ^ 8)%N.
    rewrite N.mod_pow2_bits_low by reflexivity.
    rewrite N.lor_spec, Hhi. reflexivity. }
  unfold not_angle.
  destruct (Ascii.eqb _ "<") eqn:E1.
  { apply Ascii.eqb_eq in E1. rewrite E1 in T. discriminate T. }
  destruct (Ascii.eqb _ ">") eqn:E2.
  { apply Ascii.eqb_eq in E2. rewrite E2 in T. discriminate T. }
  reflexivity.
Qed.

Lemma byte_low r :
  (r <= 0x7F)%N → r ≠ lt_rune → r ≠ gt_rune → not_angle (utf8.byte r) = true.
Proof.
  intros Hr H1 H2.
  assert (E : N_of_ascii (utf8.byte r) = r).
  { rewrite N_of_byte. apply N.mod_small. lia. }
  unfold not_angle.
  destruct (Ascii.eqb _ "<") eqn:E1.
  { apply Ascii.eqb_eq in E1. rewrite E1 in E. exfalso. apply H1.
    rewrite <- E. reflexivity. }
  destruct (Ascii.eqb _ ">") eqn:E2.
  { apply Ascii.eqb_eq in E2. rewrite E2 in E. exfalso. apply H2.
    rewrite <- E. reflexivity. }
  reflexivity.
Qed.

Lemma EncodeRune_no_angle r :
  r ≠ lt_rune → r ≠ gt_rune → all_chars not_angle (utf8.EncodeRune r) = true.
Proof.
  intros H1 H2. unfold utf8.EncodeRune.
  destruct (r <=? 0x7F)%N eqn:E.
  { apply N.leb_le in E. cbn [all_chars]. rewrite byte_low by assumption.
    reflexivity. }
  destruct (r <=? 0x7FF)%N.
  { cbn [all_chars]. rewrite !byte_high by reflexivity. reflexivity. }
  destruct ((0x10FFFF <? r)%N || utf8.in_range 0xD800 0xDFFF r); [reflexivity|].
  destruct (r <=? 0xFFFF)%N; cbn [all_chars];
    rewrite !byte_high by reflexivity; reflexivity.
Qed.

Lemma string_of_runes_no_angle rs :
  Forall (λ r, r ≠ lt_rune ∧ r ≠ gt_rune) rs →
  all_chars not_angle (utf8.string_of_runes rs) = true.
Proof.
  induction 1 as [|r rs [H1 H2] _ IH]; [reflexivity|].
  unfold utf8.string_of_runes. cbn [map Str.concat_all fold_right].
  rewrite all_chars_app, EncodeRune_no_angle by assumption. exact IH.
Qed.

(** Replacement writes only bytes of the text and of the new part. *)
Lemma Replace_from_all f k s old new :
  all_chars f s = true → all_chars f new = true →
  all_chars f (Replace_from k s old new) = true.
Proof.
  intros Hs Hn. revert k Hs.
  induction s as [|c r IH]; intros k Hs; [reflexivity|].
  cbn [all_chars] in Hs. apply andb_true_iff in Hs as [Hc Hr].
  cbn [Replace_from]. destruct k as [|k]; [|apply IH, Hr].
  destruct (HasPrefix (String c r) old).
  - rewrite all_chars_app, Hn. apply IH, Hr.
  - cbn [all_chars]. rewrite Hc. apply IH, Hr.
Qed.

(** Trimming writes only bytes of the text. *)
Lemma TrimLeft_from_all f k s :
  all_chars f s = true → all_chars f (TrimLeft_from k s) = true.
Proof.
  revert k. induction s as [|c r IH]; intros k Hs; [reflexivity|].
  pose proof Hs as Hs'.
  cbn [all_chars] in Hs. apply andb_true_iff in Hs as [Hc Hr].
  cbn [TrimLeft_from]. destruct k as [|k]; [|apply IH, Hr].
  destruct (utf8.DecodeRuneInString (String c r)) as [rn w].
  destruct (utf8.IsSpace rn); [apply IH, Hr | exact Hs'].
Qed.

Lemma TrimRight_loop_all f fuel s :
  all_chars f s = true → all_chars f (TrimRight_loop fuel s) = true.
Proof.
  revert s. induction fuel as [|fuel IH]; intros s Hs; [exact Hs|].
  cbn [TrimRight_loop].
  destruct (utf8.DecodeLastRuneInString s) as [rn w].
  destruct (utf8.IsSpace rn); [|exact Hs].
  apply IH, all_chars_take, Hs.
Qed.

Lemma TrimSpace_all f s :
  all_chars f s = true → all_chars f (TrimSpace s) = true.
Proof.
  intros Hs. unfold TrimSpace, TrimRightSpace, TrimLeftSpace.
  apply TrimRight_loop_all, TrimLeft_from_all, Hs.
Qed.

Lemma visible_text_no_angle line :
  all_chars not_angle (visible_text line) = true.
Proof.
  unfold visible_text. apply TrimSpace_all. unfold ReplaceAll.
  apply Replace_from_all; [|reflexivity].
  apply string_of_runes_no_angle, text_outside_no_markup.
Qed.

Lemma upto_without c s v : upto c s = Some v → without c v = true.
Proof.
  unfold without. revert v. induction s as [|d r IH]; intros v; [discriminate|].
  cbn [upto]. destruct (Ascii.eqb c d) eqn:E.
  - intros H. injection H as <-. reflexivity.
  - destruct (upto c r) as [v'|]; [|discriminate].
    cbn [option_map]. intros H. injection H as <-.
    cbn [all_chars]. rewrite Ascii.eqb_sym, E. apply (IH v' eq_refl).
Qed.

Lemma first_href_without line : without dq (first_href line) = true.
Proof.
  unfold first_href.
  destruct (after_first _ line) as [rest|]; [|reflexivity].
  destruct (upto dq rest) as [v|] eqn:E; [|reflexivity].
  apply (upto_without dq rest v E).
Qed.

Lemma toc_of_clean t : Forall entry_clean (toc_of t).
Proof.
  unfold toc_of. apply List.Forall_forall. intros i Hi.
  apply in_map_iff in Hi as (line & <- & Hl).
  apply filter_In in Hl as [_ He].
  unfold emits in He. apply andb_true_iff in He as [He Ht].
  apply andb_true_iff in He as [_ Hh].
  apply negb_true_iff, String.eqb_neq in Hh, Ht.
  unfold entry_clean, toc_entry. cbn [NavItem.Href NavItem.Text].
  split; [exact Hh|]. split; [apply first_href_without|].
  split; [exact Ht | apply visible_text_no_angle].
Qed.

End TextFacts.

Section TocFacts.
Context {codecs : Codecs} {sorter : SortSlice}.

(** ** [stripTags] *)

(** [stripTags] leaves no markup delimiter: whatever the text, and
    whether or not it is well-formed UTF-8, what it returns holds
    neither [<] nor [>]. *)
Theorem stripTags_no_angle (s : string) :
  without "<" (stripTags s) = true ∧ without ">" (stripTags s) = true.
Proof.
  pose proof (TextFacts.visible_text_no_angle s) as H.
  rewrite <- NavFacts.stripTags_visible in H.
  split; unfold without; refine (all_chars_impl _ _ _ _ H);
    intros c Hc; unfold not_angle in Hc;
    apply andb_true_iff in Hc as [H1 H2]; assumption.
Qed.

(** ** The entries of a cataloged table of contents *)

(** Every entry of the table of contents of a cataloged book has an
    href that is not empty and holds no double quote, and a text that
    is not empty and holds no angle bracket; and a candidate for the
    navigation document that cannot be read leaves the table empty. *)
Theorem toc_entries_clean (env : Env) (file : reader) (header : FileHeader)
    (w : World) (id : string) (info : BookInfo.t) :
  res (ingest env file header w) = inr (id, info) →
  let o := ingest env file header w in
  GetTOC (store (final o)) id = Some (BookInfo.TOC info)
  ∧ Forall entry_clean (NavDoc.Items (BookInfo.TOC info))
  ∧ (disk (final o)
       !! nav_path (BookInfo.RootFS info) (BookInfo.RootFile info)
            (findNavItem (BookInfo.OPF info)) = None →
     BookInfo.TOC info = NavDoc.mk []).
Proof.
  intros Hres. cbv zeta.
  destruct (ingest_ok_parse env file header w id info Hres)
    as (root & rootfile & opf & Hp & Hid & Hinfo).
  pose proof Hres as Hres'. apply ingest_ok_inv in Hres' as [_ Hb].
  split; [|split].
  - unfold GetTOC, GetBookByID. rewrite Hb, lookup_insert_eq. reflexivity.
  - rewrite Hinfo. cbn [BookInfo.TOC book_record NavDoc.Items].
    unfold toc_items.
    destruct (String.eqb (findNavItem opf) ""); [constructor|].
    destruct (_ !! _) as [b|]; [|constructor].
    rewrite NavFacts.scanNav_toc_of. apply TextFacts.toc_of_clean.
  - rewrite Hinfo at 1 2 3 4.
    cbn [BookInfo.TOC BookInfo.RootFS BookInfo.RootFile BookInfo.OPF book_record].
    intros Hnone. unfold toc_items.
    destruct (String.eqb (findNavItem opf) ""); [reflexivity|].
    rewrite Hnone. reflexivity.
Qed.

End TocFacts.

(* ================================================================== *)
(** * The reader page: paging through the spine *)
(* ================================================================== *)

Module AppFacts.
Import App.

Lemma fileUrl_inj API id h h' : fileUrl API id h = fileUrl API id h' → h = h'.
Proof.
  unfold fileUrl. intros H.
  do 4 apply String.app_inj in H. exact H.
Qed.

Lemma fileUrl_eqb API id h h' :
  String.eqb (fileUrl API id h) (fileUrl API id h') = String.eqb h h'.
Proof.
  destruct (String.eqb h h') eqn:E.
  - apply String.eqb_eq in E. subst. apply String.eqb_refl.
  - apply String.eqb_neq. intros H. apply fileUrl_inj in H.
    apply String.eqb_neq in E. contradiction.
Qed.

Lemma fileUrl_truthy API id h : truthy (Some (fileUrl API id h)) = true.
Proof.
  unfold fileUrl.
  destruct API as [|c r]; [|reflexivity]. reflexivity.
Qed.

(** [findIndex] finds the first element that passes the test. *)
Lemma findIndex_spec {A} (test : A → bool) l d :
  let i := findIndex test l in
  (i = -1 ∧ Forall (λ x, test x = false) l)
  ∨ (0 ≤ i < Z.of_nat (List.length l)
     ∧ test (nth (Z.to_nat i) l d) = true
     ∧ Forall (λ x, test x = false) (firstn (Z.to_nat i) l)).
Proof.
  cbv zeta. induction l as [|x l IH]; cbn [findIndex].
  - left. split; [reflexivity | constructor].
  - destruct (test x) eqn:E.
    + right. cbn. split; [lia|]. split; [exact E | constructor].
    + destruct IH as [[-> Hall]|(Hi & Ht & Hall)].
      * left. cbn. split; [reflexivity | constructor; assumption].
      * right. destruct (findIndex test l <? 0) eqn:E2;
          [apply Z.ltb_lt in E2; lia|].
        replace (Z.to_nat (findIndex test l + 1))
          with (S (Z.to_nat (findIndex test l))) by lia.
        cbn [nth firstn List.length].
        split; [lia|]. split; [exact Ht | constructor; assumption].
Qed.

(** In a list without repetition an element is first found where it
    is. *)
Lemma findIndex_at (hs : list string) k d :
  NoDup hs → (k < List.length hs)%nat →
  findIndex (λ h, String.eqb h (nth k hs d)) hs = Z.of_nat k.
Proof.
  intros Hnd. revert k. induction Hnd as [|x l Hx Hnd IH]; intros k Hk.
  - cbn in Hk. lia.
  - cbn [findIndex]. destruct k as [|k].
    + cbn [nth]. rewrite String.eqb_refl. reflexivity.
    + cbn [nth]. cbn [List.length] in Hk.
      destruct (String.eqb x (nth k l d)) eqn:E.
      * apply String.eqb_eq in E. exfalso. apply Hx. rewrite E.
        apply list_elem_of_In, nth_In. lia.
      * rewrite IH by lia.
        destruct (Z.of_nat k <? 0) eqn:E2; [apply Z.ltb_lt in E2; lia|].
        lia.
Qed.

Lemma findIndex_ext {A} (f g : A → bool) l :
  (∀ x, f x = g x) → findIndex f l = findIndex g l.
Proof.
  intros H. induction l as [|x l IH]; [reflexivity|]. cbn [findIndex].
  rewrite H, IH. reflexivity.
Qed.

Lemma findIndex_map {A B} (f : A → B) (test : B → bool) l :
  findIndex (λ x, test (f x)) l = findIndex test (map f l).
Proof.
  induction l as [|x l IH]; [reflexivity|]. cbn [findIndex map].
  rewrite IH. reflexivity.
Qed.

Lemma href_at_nth sp k :
  href_at sp (Z.of_nat k) = nth k (map SpineItem.Href sp) "".
Proof.
  unfold href_at. rewrite Nat2Z.id. symmetry.
  apply (map_nth SpineItem.Href sp (SpineItem.mk "" "" "" "") k).
Qed.

(** The chapter shown, when the page shows chapter [k] of a spine
    without repeated hrefs. *)
Lemma shown_at API st id k :
  activeId st = Some id →
  NoDup (map SpineItem.Href (spine st)) →
  (k < List.length (spine st))%nat →
  chapterUrl st = Some (fileUrl API id (href_at (spine st) (Z.of_nat k))) →
  shown API st = Z.of_nat k.
Proof.
  intros Ha Hnd Hk Hc. unfold shown. rewrite Ha, Hc. cbn [default].
  rewrite (findIndex_ext _ (λ s, String.eqb (SpineItem.Href s)
                                   (href_at (spine st) (Z.of_nat k)))).
  - rewrite (findIndex_map SpineItem.Href
               (λ h, String.eqb h (href_at (spine st) (Z.of_nat k)))).
    rewrite href_at_nth. apply findIndex_at; [exact Hnd|].
    rewrite length_map. exact Hk.
  - intros s. apply fileUrl_eqb.
Qed.

Lemma truthy_Some id : truthy (Some id) = true ↔ id ≠ "".
Proof. destruct id; cbn; split; congruence. Qed.

Lemma set_set st a b : setChapterUrl (setChapterUrl st a) b = setChapterUrl st b.
Proof. reflexivity. Qed.

Lemma spine_set st u : spine (setChapterUrl st u) = spine st.
Proof. reflexivity. Qed.

Lemma set_same st u : chapterUrl st = Some u → setChapterUrl st u = st.
Proof. destruct st. cbn. intros ->. reflexivity. Qed.

(** Next and Prev from chapter [k] of a spine without repeated hrefs. *)
Lemma next_at API st id k :
  activeId st = Some id → id ≠ "" →
  NoDup (map SpineItem.Href (spine st)) →
  (k < List.length (spine st))%nat →
  chapterUrl st = Some (fileUrl API id (href_at (spine st) (Z.of_nat k))) →
  next API st
  = if (S k <? List.length (spine st))%nat
    then setChapterUrl st (fileUrl API id (href_at (spine st) (Z.of_nat (S k))))
    else st.
Proof.
  intros Ha Hid Hnd Hk Hc. unfold next, has_buttons.
  rewrite (shown_at API st id k Ha Hnd Hk Hc), Ha, Hc.
  rewrite (proj2 (truthy_Some id) Hid), fileUrl_truthy. cbn [andb negb default].
  destruct (S k <? List.length (spine st))%nat eqn:E.
  - apply Nat.ltb_lt in E.
    replace (0 <=? Z.of_nat k) with true by (symmetry; apply Z.leb_le; lia).
    replace (Z.of_nat k <? Z.of_nat (List.length (spine st)) - 1) with true
      by (symmetry; apply Z.ltb_lt; lia).
    cbn [andb]. replace (Z.of_nat k + 1) with (Z.of_nat (S k)) by lia.
    reflexivity.
  - apply Nat.ltb_ge in E.
    replace (Z.of_nat k <? Z.of_nat (List.length (spine st)) - 1) with false
      by (symmetry; apply Z.ltb_ge; lia).
    rewrite andb_false_r. reflexivity.
Qed.

Lemma prev_at API st id k :
  activeId st = Some id → id ≠ "" →
  NoDup (map SpineItem.Href (spine st)) →
  (k < List.length (spine st))%nat →
  chapterUrl st = Some (fileUrl API id (href_at (spine st) (Z.of_nat k))) →
  prev API st
  = match k with
    | O => st
    | S j => setChapterUrl st (fileUrl API id (href_at (spine st) (Z.of_nat j)))
    end.
Proof.
  intros Ha Hid Hnd Hk Hc. unfold prev, has_buttons.
  rewrite (shown_at API st id k Ha Hnd Hk Hc), Ha, Hc.
  rewrite (proj2 (truthy_Some id) Hid), fileUrl_truthy. cbn [andb negb default].
  destruct k as [|j]; [reflexivity|].
  replace (0 <? Z.of_nat (S j)) with true by (symmetry; apply Z.ltb_lt; lia).
  replace (Z.of_nat (S j) - 1) with (Z.of_nat j) by lia. reflexivity.
Qed.

(** What the buttons find: the page shows a chapter of the spine, the
    first with its href. *)
Lemma shown_found API st :
  has_buttons st = true → 0 ≤ shown API st →
  ∃ id k,
    activeId st = Some id ∧ id ≠ ""
    ∧ shown API st = Z.of_nat k ∧ (k < List.length (spine st))%nat
    ∧ chapterUrl st = Some (fileUrl API id (href_at (spine st) (Z.of_nat k))).
Proof.
  unfold has_buttons. intros Hb Hi. apply andb_true_iff in Hb as [Ha Hc].
  destruct (activeId st) as [id|] eqn:Ea; [|discriminate].
  destruct (chapterUrl st) as [u|] eqn:Ec; [|discriminate].
  apply truthy_Some in Ha.
  pose proof (findIndex_spec
                (λ s, String.eqb (fileUrl API id (SpineItem.Href s)) u)
                (spine st) (SpineItem.mk "" "" "" "")) as F.
  cbv zeta in F. unfold shown in Hi |- *. rewrite Ea, Ec in Hi |- *.
  change (default "" (Some id)) with id in Hi |- *.
  change (default "" (Some u)) with u in Hi |- *.
  destruct F as [[F _]|(Fi & Ft & _)]; [lia|].
  exists id, (Z.to_nat (findIndex
                (λ s, String.eqb (fileUrl API id (SpineItem.Href s)) u)
                (spine st))).
  rewrite Z2Nat.id by lia.
  apply String.eqb_eq in Ft. unfold href_at. rewrite Ft.
  repeat split; auto. lia.
Qed.

End AppFacts.

(** ** Next and Prev *)

(** Next and Prev undo each other.  On a page whose spine has no
    repeated href, when Next changes the chapter shown, Prev brings the
    page back to what it was, and when Prev changes it, Next does. *)
Theorem next_prev_undo (API : string) (st : App.state) :
  NoDup (map SpineItem.Href (App.spine st)) →
  (App.next API st ≠ st → App.prev API (App.next API st) = st)
  ∧ (App.prev API st ≠ st → App.next API (App.prev API st) = st).
Proof.
  intros Hnd. split.
  - intros Hch.
    destruct (App.has_buttons st) eqn:Hb;
      [|exfalso; apply Hch; unfold App.next; rewrite Hb; reflexivity].
    destruct (Z.leb_spec 0 (App.shown API st)) as [Hi|Hi].
    + destruct (AppFacts.shown_found API st Hb Hi)
        as (id & k & Ha & Hid & _ & Hk & Hc).
      rewrite (AppFacts.next_at API st id k Ha Hid Hnd Hk Hc) in Hch |- *.
      destruct (S k <? List.length (App.spine st))%nat eqn:E; [|congruence].
      apply Nat.ltb_lt in E.
      rewrite (AppFacts.prev_at API
                 (App.setChapterUrl st
                    (App.fileUrl API id
                       (App.href_at (App.spine st) (Z.of_nat (S k)))))
                 id (S k) Ha Hid Hnd E eq_refl).
      rewrite AppFacts.spine_set, AppFacts.set_set.
      apply AppFacts.set_same, Hc.
    + exfalso. apply Hch. unfold App.next. rewrite Hb. cbn [negb].
      replace (0 <=? App.shown API st) with false
        by (symmetry; apply Z.leb_gt; lia).
      reflexivity.
  - intros Hch.
    destruct (App.has_buttons st) eqn:Hb;
      [|exfalso; apply Hch; unfold App.prev; rewrite Hb; reflexivity].
    destruct (Z.leb_spec 0 (App.shown API st)) as [Hi|Hi].
    + destruct (AppFacts.shown_found API st Hb Hi)
        as (id & k & Ha & Hid & _ & Hk & Hc).
      rewrite (AppFacts.prev_at API st id k Ha Hid Hnd Hk Hc) in Hch |- *.
      destruct k as [|j]; [congruence|].
      assert (Hj : (j < List.length (App.spine st))%nat) by lia.
      rewrite (AppFacts.next_at API
                 (App.setChapterUrl st
                    (App.fileUrl API id
                       (App.href_at (App.spine st) (Z.of_nat j))))
                 id j Ha Hid Hnd Hj eq_refl).
      rewrite !AppFacts.spine_set.
      replace (S j <? List.length (App.spine st))%nat with true
        by (symmetry; apply Nat.ltb_lt; exact Hk).
      rewrite AppFacts.set_set. apply AppFacts.set_same, Hc.
    + exfalso. apply Hch. unfold App.prev. rewrite Hb. cbn [negb].
      replace (0 <? App.shown API st) with false
        by (symmetry; apply Z.ltb_ge; lia).
      reflexivity.
Qed.

(** Next walks the reading order.  On a page with a book chosen whose
    spine has no repeated href, opening the first chapter and pressing
    Next [k] times shows chapter [k] of the spine, for every [k] within
    the spine; at the last chapter Next changes nothing, and at the
    first Prev changes nothing. *)
Theorem next_walks_spine (API id : string) (st : App.state) (k : nat) :
  App.activeId st = Some id → id ≠ "" →
  NoDup (map SpineItem.Href (App.spine st)) →
  (k < List.length (App.spine st))%nat →
  let url j := App.fileUrl API id (App.href_at (App.spine st) (Z.of_nat j)) in
  let last := Nat.pred (List.length (App.spine st)) in
  Nat.iter k (App.next API) (App.openFirst API st)
  = App.setChapterUrl st (url k)
  ∧ App.next API (App.setChapterUrl st (url last))
    = App.setChapterUrl st (url last)
  ∧ App.prev API (App.openFirst API st) = App.openFirst API st.
Proof.
  intros Ha Hid Hnd Hk. cbv zeta.
  assert (Hopen : App.openFirst API st
                  = App.setChapterUrl st
                      (App.fileUrl API id (App.href_at (App.spine st) 0))).
  { unfold App.openFirst. rewrite Ha, (proj2 (AppFacts.truthy_Some id) Hid).
    cbn [negb orb default].
    destruct (App.spine st); [cbn in Hk; lia | reflexivity]. }
  split; [|split].
  - induction k as [|k IH]; [exact Hopen|].
    rewrite Nat.iter_succ, IH by lia.
    rewrite (AppFacts.next_at API
               (App.setChapterUrl st
                  (App.fileUrl API id (App.href_at (App.spine st) (Z.of_nat k))))
               id k Ha Hid Hnd ltac:(cbn [App.spine App.setChapterUrl]; lia)
               eq_refl).
    rewrite !AppFacts.spine_set.
    replace (S k <? List.length (App.spine st))%nat with true
      by (symmetry; apply Nat.ltb_lt; exact Hk).
    reflexivity.
  - rewrite (AppFacts.next_at API
               (App.setChapterUrl st
                  (App.fileUrl API id
                     (App.href_at (App.spine st)
                        (Z.of_nat (Nat.pred (List.length (App.spine st)))))))
               id (Nat.pred (List.length (App.spine st)))
               Ha Hid Hnd ltac:(cbn [App.spine App.setChapterUrl]; lia) eq_refl).
    rewrite !AppFacts.spine_set.
    replace (S (Nat.pred (List.length (App.spine st)))
             <? List.length (App.spine st))%nat with false
      by (symmetry; apply Nat.ltb_ge; lia).
    reflexivity.
  - rewrite Hopen.
    apply (AppFacts.prev_at API
             (App.setChapterUrl st
                (App.fileUrl API id (App.href_at (App.spine st) 0)))
             id 0 Ha Hid Hnd ltac:(cbn [App.spine App.setChapterUrl]; lia)
             eq_refl).
Qed.

(** An entry of the table of contents that is not in the spine leaves
    the buttons dead.  When the target of an entry (its href, or for an
    href that starts with [#] the href of the first chapter followed by
    it) is the href of no chapter of the spine, choosing the entry shows
    the file of that target, and from there Next and Prev change
    nothing. *)
Theorem entry_outside_spine (API id : string) (st : App.state) (i : NavItem.t) :
  App.activeId st = Some id → id ≠ "" →
  let target :=
    if GoStrings.HasPrefix (NavItem.Href i) "#"
    then App.first_href_plus (App.spine st) (NavItem.Href i)
    else NavItem.Href i in
  ¬ In target (map SpineItem.Href (App.spine st)) →
  let st' := App.openEntry API st i in
  App.chapterUrl st' = Some (App.fileUrl API id target)
  ∧ App.next API st' = st'
  ∧ App.prev API st' = st'.
Proof.
  intros Ha Hid. cbv zeta. intros Hout.
  set (target := if GoStrings.HasPrefix (NavItem.Href i) "#"
                 then App.first_href_plus (App.spine st) (NavItem.Href i)
                 else NavItem.Href i) in *.
  assert (Hst : App.openEntry API st i
                = App.setChapterUrl st (App.fileUrl API id target)).
  { unfold App.openEntry. rewrite Ha, (proj2 (AppFacts.truthy_Some id) Hid).
    reflexivity. }
  rewrite Hst.
  assert (Hshown : App.shown API
                     (App.setChapterUrl st (App.fileUrl API id target)) = -1).
  { unfold App.shown. cbn [App.activeId App.chapterUrl App.spine App.setChapterUrl].
    rewrite Ha. cbn [default].
    destruct (AppFacts.findIndex_spec
                (λ s, String.eqb (App.fileUrl API id (SpineItem.Href s))
                        (App.fileUrl API id target))
                (App.spine st) (SpineItem.mk "" "" "" ""))
      as [[E _]|(Hi & Ht & _)]; [exact E|].
    exfalso. apply Hout. rewrite AppFacts.fileUrl_eqb in Ht.
    apply String.eqb_eq in Ht. rewrite <- Ht.
    apply in_map, nth_In. lia. }
  split; [reflexivity|]. split.
  - unfold App.next. rewrite Hshown.
    destruct (negb _); reflexivity.
  - unfold App.prev. rewrite Hshown.
    destruct (negb _); reflexivity.
Qed.

(* ================================================================== *)
(** * More on the resolver, the package document and the spine *)
(* ================================================================== *)

Section More.
Context {codecs : Codecs} {sorter : SortSlice}.

Lemma normJoin_joined a b :
  b ≠ "" → normJoin a b = GoPath.Clean (JoinSpec.joined a b).
Proof.
  intros Hb. destruct b as [|c r]; [congruence|].
  apply normJoin_nonempty.
Qed.

(** ** [normJoin], step by step *)

(** Resolving in two steps is resolving the joined reference: for
    references that are not empty, [normJoin] of the result of
    [normJoin] and a second reference is [normJoin] of the base and the
    two references joined by a slash.  A result of [normJoin] on a
    reference that is not empty is resolved already: resolving it
    against the empty base gives it back. *)
Theorem normJoin_in_steps (a b c : string) :
  b ≠ "" → c ≠ "" →
  normJoin (normJoin a b) c = normJoin a (b +:+ "/" +:+ c)
  ∧ normJoin "" (normJoin a b) = normJoin a b.
Proof.
  intros Hb Hc.
  assert (Hj : JoinSpec.joined a b ≠ "")
    by (apply JoinFacts.joined_not_empty, Hb).
  assert (Hn : normJoin a b ≠ "").
  { rewrite normJoin_joined by exact Hb. apply PathFacts.Clean_not_empty. }
  split.
  - rewrite (normJoin_joined (normJoin a b) c Hc).
    rewrite (normJoin_joined a (b +:+ "/" +:+ c))
      by (apply JoinFacts.app_not_empty, Hb).
    rewrite (normJoin_joined a b Hb).
    unfold JoinSpec.joined at 1.
    destruct (Str.is_empty (GoPath.Clean (JoinSpec.joined a b))) eqn:E.
    { apply is_empty_true in E. exfalso.
      exact (PathFacts.Clean_not_empty _ E). }
    rewrite (JoinFacts.Clean_join_left _ c Hj).
    unfold JoinSpec.joined. destruct (Str.is_empty a); [reflexivity|].
    rewrite app_assoc_str. reflexivity.
  - rewrite (normJoin_joined "" (normJoin a b) Hn).
    unfold JoinSpec.joined at 1. cbn [Str.is_empty].
    rewrite (normJoin_joined a b Hb). apply PathFacts.Clean_idempotent.
Qed.

(** ** [parseOPF]: manifest and spine *)

(** [parseOPF] changes nothing.  When it succeeds, the file was read
    and decoded to a document whose root is [package]; the manifest it
    returns has one item for each [item] element directly inside a
    [manifest] element directly inside the root, in document order,
    with the values of its [id], [href] and [media-type] attributes
    (the empty string for an attribute that is not there), and the
    spine one entry for each [itemref] element inside a [spine]
    element, likewise.  It fails exactly when the file cannot be read,
    cannot be decoded, or has another root. *)
Theorem parseOPF_manifest_spine (path : string) (w : World) :
  let o := parseOPF path w in
  final o = w
  ∧ is_ok (res o)
    = match disk w !! path with
      | None => false
      | Some data =>
        match xml_Decoder data with
        | None => false
        | Some doc => DocSpec.root_is "package" doc
        end
      end
  ∧ match res o with
    | inr opf =>
      ∃ data doc,
        disk w !! path = Some data
        ∧ xml_Decoder data = Some doc
        ∧ OPFPackage.Manifest opf
          = map PackageSpec.declared_item
              (PackageSpec.at_path "manifest" "item" doc)
        ∧ OPFPackage.Spine opf
          = map PackageSpec.declared_itemref
              (PackageSpec.at_path "spine" "itemref" doc)
    | inl _ => True
    end.
Proof.
  cbv zeta. rewrite run_parseOPF. cbn [res final]. split; [reflexivity|].
  destruct (disk w !! path) as [data|]; [|split; [reflexivity | exact I]].
  unfold xml_Unmarshal_package.
  destruct (xml_Decoder data) as [[name attrs content|d]|] eqn:Ed;
    [|split; [reflexivity | exact I]..].
  cbn [DocSpec.root_is].
  destruct (xml.matches "" "package" name) eqn:E;
    [|split; [reflexivity | exact I]].
  split; [reflexivity|].
  exists data, (xml.Element name attrs content).
  split; [reflexivity|]. split; [exact Ed|].
  cbn [OPFPackage.Manifest OPFPackage.Spine].
  rewrite !DocFacts.path_field_elements.
  unfold PackageSpec.at_path. cbn [content_of]. split.
  - apply map_ext. intros n.
    unfold unmarshal_OPFItem, PackageSpec.declared_item.
    rewrite !DocFacts.attr_field_attribute. reflexivity.
  - apply map_ext. intros n.
    unfold unmarshal_OPFItemref, PackageSpec.declared_itemref.
    rewrite DocFacts.attr_field_attribute. reflexivity.
Qed.

(** ** [GetSpine]: manifest items with one identifier *)

Lemma manifest_item_last p pre it post :
  OPFPackage.Manifest p = pre ++ it :: post →
  (∀ x, In x post → OPFItem.ID x ≠ OPFItem.ID it) →
  manifest_item p (OPFItem.ID it) = it.
Proof.
  intros Hm Hpost. unfold manifest_item.
  rewrite Hm, rev_app_distr. cbn [rev]. rewrite <- app_assoc. cbn [app].
  assert (F : ∀ l, (∀ x, In x l → OPFItem.ID x ≠ OPFItem.ID it) →
              ∀ tl, find (λ x, String.eqb (OPFItem.ID x) (OPFItem.ID it))
                      (l ++ it :: tl) = Some it).
  { intros l Hl tl. induction l as [|x l IH]; cbn [app find].
    - rewrite String.eqb_refl. reflexivity.
    - destruct (String.eqb (OPFItem.ID x) (OPFItem.ID it)) eqn:E.
      + apply String.eqb_eq in E. exfalso. apply (Hl x); [left; reflexivity | exact E].
      + apply IH. intros y Hy. apply Hl. right. exact Hy. }
  rewrite F; [reflexivity|].
  intros x Hx. apply Hpost. apply in_rev. exact Hx.
Qed.

(** [GetSpine] answers with one entry for each entry of the spine of
    the package, in the order of the spine, with its idref and an empty
    title.  Of several manifest items with one identifier the last
    counts: an entry of the spine that refers to that identifier gets
    the resolved href and the media type of the last such item. *)
Theorem spine_later_item_wins (s : Store) (id : string) (b : BookInfo.t)
    (pre : list OPFItem.t) (it : OPFItem.t) (post : list OPFItem.t) :
  GetBookByID s id = Some b →
  OPFPackage.Manifest (BookInfo.OPF b) = pre ++ it :: post →
  (∀ x, In x post → OPFItem.ID x ≠ OPFItem.ID it) →
  ∃ l,
    GetSpine s id = Some l
    ∧ map SpineItem.IDRef l
      = map OPFItemref.IDRef (OPFPackage.Spine (BookInfo.OPF b))
    ∧ Forall (λ e, SpineItem.Title e = "") l
    ∧ ∀ e, In e l → SpineItem.IDRef e = OPFItem.ID it →
        e = SpineItem.mk (OPFItem.ID it)
              (normJoin (GoPath.Dir (BookInfo.RootFile b)) (OPFItem.Href it))
              (OPFItem.MediaType it) "".
Proof.
  intros Hb Hm Hpost. unfold GetSpine. rewrite Hb. cbn [fmap option_fmap option_map].
  eexists. split; [reflexivity|]. rewrite spineOf_map.
  split; [|split].
  - rewrite List.map_map. reflexivity.
  - apply List.Forall_forall. intros e He.
    apply in_map_iff in He as (sp & <- & _). reflexivity.
  - intros e He Hid. apply in_map_iff in He as (sp & <- & _).
    unfold spine_entry in Hid |- *. cbv zeta in Hid |- *.
    cbn [SpineItem.IDRef] in Hid. rewrite Hid.
    rewrite (manifest_item_last _ pre it post Hm Hpost). reflexivity.
Qed.

End More.

(* ================================================================== *)
(** * [between]: what it cuts out *)
(* ================================================================== *)

Module IndexFacts.
Import GoStrings.

Lemma HasPrefix_split s p : HasPrefix s p = true → s = p +:+ Str.drop (String.length p) s.
Proof.
  revert s. induction p as [|c p IH]; intros s H; [reflexivity|].
  destruct s as [|d s]; [discriminate|]. cbn [HasPrefix] in H.
  apply andb_true_iff in H as [Hc Hp]. apply Ascii.eqb_eq in Hc. subst d.
  cbn [String.length Str.drop]. rewrite app_cons_str. f_equal. apply IH, Hp.
Qed.

Lemma drop_drop n m s : Str.drop n (Str.drop m s) = Str.drop (m + n) s.
Proof.
  revert s. induction m as [|m IH]; intros s; [reflexivity|].
  destruct s as [|c r]; [destruct n; reflexivity|]. cbn [Str.drop plus].
  apply IH.
Qed.

Lemma drop_nil n : Str.drop n "" = "".
Proof. destruct n; reflexivity. Qed.

(** [Index] finds the first place at which the pattern starts. *)
Lemma Index_first s sub :
  Index s sub = -1
  ∨ ∃ i, Index s sub = Z.of_nat i
         ∧ (i ≤ String.length s)%nat
         ∧ HasPrefix (Str.drop i s) sub = true
         ∧ ∀ k, (k < i)%nat → HasPrefix (Str.drop k s) sub = false.
Proof.
  induction s as [|d r IH]; rewrite NavFacts.Index_cons.
  - destruct (HasPrefix "" sub) eqn:E; [|left; reflexivity].
    right. exists 0%nat. repeat split; [lia | exact E | lia].
  - destruct (HasPrefix (String d r) sub) eqn:E.
    + right. exists 0%nat. repeat split; [lia | exact E | lia].
    + cbv zeta.
      destruct IH as [->|(i & -> & Hle & Hi & Hmin)]; [left; reflexivity|].
      right. exists (S i).
      destruct (Z.of_nat i <? 0) eqn:E2; [apply Z.ltb_lt in E2; lia|].
      split; [lia|]. split; [cbn [String.length]; lia|]. split; [exact Hi|].
      intros [|k] Hk; [exact E|]. apply Hmin. lia.
Qed.

Lemma drop_all s : Str.drop (String.length s) s = "".
Proof. induction s; [reflexivity | assumption]. Qed.

Lemma Index_none s sub :
  Index s sub = -1 → ∀ k, (k ≤ String.length s)%nat →
  HasPrefix (Str.drop k s) sub = false.
Proof.
  induction s as [|d r IH]; rewrite NavFacts.Index_cons.
  - destruct (HasPrefix "" sub) eqn:E; [discriminate|].
    intros _ k _. rewrite drop_nil. exact E.
  - destruct (HasPrefix (String d r) sub) eqn:E; [discriminate|].
    cbv zeta. destruct (Index r sub <? 0) eqn:E2.
    + intros _ [|k] Hk; [exact E|]. cbn [Str.drop].
      apply IH; [|cbn in Hk; lia].
      destruct (NavFacts.Index_range r sub) as [H|H]; [exact H|].
      apply Z.ltb_lt in E2. lia.
    + apply Z.ltb_ge in E2. lia.
Qed.

(** Where the pattern starts first, there [Index] is. *)
Lemma drop_long n s : (String.length s ≤ n)%nat → Str.drop n s = "".
Proof.
  revert s. induction n as [|n IH]; intros s H.
  - destruct s; [reflexivity | cbn in H; lia].
  - destruct s as [|c r]; [reflexivity|]. cbn [Str.drop]. apply IH.
    cbn in H. lia.
Qed.

Lemma Index_at s sub i :
  HasPrefix (Str.drop i s) sub = true →
  (∀ k, (k < i)%nat → HasPrefix (Str.drop k s) sub = false) →
  Index s sub = Z.of_nat i.
Proof.
  intros Hi Hmin.
  destruct (Index_first s sub) as [E|(j & E & _ & Hj & Hjmin)].
  - destruct (Nat.le_gt_cases i (String.length s)) as [Hle|Hgt].
    + rewrite (Index_none s sub E i Hle) in Hi. discriminate.
    + rewrite drop_long in Hi by lia. rewrite <- (drop_all s) in Hi.
      rewrite (Index_none s sub E (String.length s) (Nat.le_refl _)) in Hi.
      discriminate.
  - rewrite E. f_equal.
    destruct (Nat.lt_trichotomy i j) as [H|[H|H]]; [|auto|].
    + rewrite (Hjmin i H) in Hi. discriminate.
    + rewrite (Hmin j H) in Hj. discriminate.
Qed.

Lemma drop_app_len p s : Str.drop (String.length p) (p +:+ s) = s.
Proof. apply EscapeFacts.drop_app_str. Qed.

Lemma take_app_len p s : Str.take (String.length p) (p +:+ s) = p.
Proof.
  induction p as [|c p IH]; [destruct s; reflexivity|].
  rewrite app_cons_str. cbn [String.length Str.take]. rewrite IH. reflexivity.
Qed.

End IndexFacts.

Section Between.
Context {codecs : Codecs} {sorter : SortSlice}.

(** [between] cuts out what stands between the first [a] and the first
    [b] after it.  When it returns a text [v] that is not empty, the
    string is some [pre], then [a], then [v], then [b], then some
    [post], where [a] starts nowhere before the end of [pre] and [b]
    starts nowhere in what follows [a] before the end of [v].
    Conversely a string cut that way gives [v].  When [a] does not
    occur, or [b] does not occur after the first [a], the result is
    empty, as it is when nothing stands between them. *)
Theorem between_delimits (s a b : string) :
  (between s a b ≠ "" →
   ∃ pre post,
     s = pre +:+ a +:+ between s a b +:+ b +:+ post
     ∧ (∀ k, (k < String.length pre)%nat →
             GoStrings.HasPrefix (Str.drop k s) a = false)
     ∧ (∀ k, (k < String.length (between s a b))%nat →
             GoStrings.HasPrefix
               (Str.drop k (between s a b +:+ b +:+ post)) b = false))
  ∧ (∀ pre v post,
       s = pre +:+ a +:+ v +:+ b +:+ post →
       (∀ k, (k < String.length pre)%nat →
             GoStrings.HasPrefix (Str.drop k s) a = false) →
       (∀ k, (k < String.length v)%nat →
             GoStrings.HasPrefix (Str.drop k (v +:+ b +:+ post)) b = false) →
       between s a b = v)
  ∧ (GoStrings.Contains s a = false → between s a b = "").
Proof.
  split; [|split].
  - unfold between.
    destruct (IndexFacts.Index_first s a) as [E|(i & E & Hli & Hi & Hmin)].
    { rewrite E. cbn. congruence. }
    rewrite E.
    destruct (Z.of_nat i <? 0) eqn:E0; [apply Z.ltb_lt in E0; lia|].
    cbv zeta.
    replace (Z.to_nat (Z.of_nat i + Str.len a)) with (i + String.length a)%nat
      by (unfold Str.len; lia).
    set (rest := Str.drop (i + String.length a) s).
    destruct (IndexFacts.Index_first rest b) as [F|(j & F & Hlj & Hj & Hjmin)].
    { rewrite F. cbn. congruence. }
    rewrite F.
    destruct (Z.of_nat j <? 0) eqn:F0; [apply Z.ltb_lt in F0; lia|].
    rewrite Nat2Z.id. intros _.
    assert (Hs : s = Str.take i s +:+ a +:+ rest).
    { rewrite <- (take_drop_str i s) at 1. f_equal.
      rewrite (IndexFacts.HasPrefix_split _ _ Hi) at 1.
      rewrite IndexFacts.drop_drop. reflexivity. }
    assert (Hr : rest = Str.take j rest +:+ b
                        +:+ Str.drop (j + String.length b) rest).
    { rewrite <- (take_drop_str j rest) at 1. f_equal.
      rewrite (IndexFacts.HasPrefix_split _ _ Hj) at 1.
      rewrite IndexFacts.drop_drop. reflexivity. }
    exists (Str.take i s), (Str.drop (j + String.length b) rest).
    split; [rewrite <- Hr; exact Hs|]. split.
    + rewrite length_take_str, Nat.min_l by exact Hli. exact Hmin.
    + rewrite length_take_str, Nat.min_l by exact Hlj. rewrite <- Hr.
      exact Hjmin.
  - intros pre v post Hs Hpre Hv. unfold between.
    assert (Ha : GoStrings.HasPrefix (Str.drop (String.length pre) s) a = true).
    { rewrite Hs, IndexFacts.drop_app_len. apply EscapeFacts.HasPrefix_app. }
    rewrite (IndexFacts.Index_at s a _ Ha Hpre).
    destruct (Z.of_nat (String.length pre) <? 0) eqn:E0;
      [apply Z.ltb_lt in E0; lia|].
    cbv zeta.
    replace (Z.to_nat (Z.of_nat (String.length pre) + Str.len a))
      with (String.length (pre +:+ a))
      by (rewrite length_app_str; unfold Str.len; lia).
    assert (Hrest : Str.drop (String.length (pre +:+ a)) s = v +:+ b +:+ post).
    { rewrite Hs, <- app_assoc_str. apply IndexFacts.drop_app_len. }
    rewrite Hrest.
    assert (Hb : GoStrings.HasPrefix
                   (Str.drop (String.length v) (v +:+ b +:+ post)) b = true).
    { rewrite IndexFacts.drop_app_len. apply EscapeFacts.HasPrefix_app. }
    rewrite (IndexFacts.Index_at _ b _ Hb Hv).
    destruct (Z.of_nat (String.length v) <? 0) eqn:E1;
      [apply Z.ltb_lt in E1; lia|].
    rewrite Nat2Z.id. apply IndexFacts.take_app_len.
  - unfold GoStrings.Contains, between. intros H.
    apply Z.leb_gt in H.
    replace (GoStrings.Index s a <? 0) with true
      by (symmetry; apply Z.ltb_lt; exact H).
    reflexivity.
Qed.

End Between.

(* ================================================================== *)
(** * [strings.TrimSpace]: what is left has no white space at its ends *)
(* ================================================================== *)

Module TrimFacts.
Import GoStrings TrimSpec.

Lemma TrimLeft_starts k s : starts_with_space (TrimLeft_from k s) = false.
Proof.
  revert k. induction s as [|c r IH]; intros k; [reflexivity|].
  cbn [TrimLeft_from]. destruct k as [|k]; [|apply IH].
  destruct (utf8.DecodeRuneInString (String c r)) as [rn w] eqn:E.
  destruct (utf8.IsSpace rn) eqn:Es; [apply IH|].
  unfold starts_with_space. rewrite E. exact Es.
Qed.

Lemma first_size b sz lo hi : utf8.first b = Some (sz, lo, hi) → (2 ≤ sz)%nat.
Proof.
  unfold utf8.first.
  repeat match goal with
         | |- context [if ?c then _ else _] => destruct c
         end; intros H; inversion H; lia.
Qed.

(** A rune decoded with width zero is the error rune. *)
Lemma decode_width s :
  snd (utf8.DecodeRuneInString s) = 0%nat →
  fst (utf8.DecodeRuneInString s) = utf8.RuneError.
Proof.
  unfold utf8.DecodeRuneInString. destruct s as [|c0 rest]; [reflexivity|].
  cbv zeta.
  repeat match goal with
         | |- context [if ?c then _ else _] => destruct c
         | |- context [match utf8.first ?b with _ => _ end] =>
           destruct (utf8.first b) as [[[? ?] ?]|]
         end; cbn [fst snd]; intros H; try discriminate H; reflexivity.
Qed.

Lemma get_take i n s : (i < n)%nat → String.get i (Str.take n s) = String.get i s.
Proof.
  revert i s. induction n as [|n IH]; intros i s H; [lia|].
  destruct s as [|c r]; [reflexivity|]. cbn [Str.take].
  destruct i as [|i]; [reflexivity|]. cbn [String.get]. apply IH. lia.
Qed.

Lemma byte_at_take i n s :
  (i < n)%nat → Str.byte_at (Str.take n s) i = Str.byte_at s i.
Proof. intros H. unfold Str.byte_at. rewrite get_take by exact H. reflexivity. Qed.

Lemma decode_agree c0 t s :
  (String.length (String c0 t) ≤ String.length (String c0 s))%nat →
  (∀ i, (i < String.length (String c0 t))%nat →
        Str.byte_at (String c0 t) i = Str.byte_at (String c0 s) i) →
  fst (utf8.DecodeRuneInString (String c0 t))
  = fst (utf8.DecodeRuneInString (String c0 s))
  ∨ fst (utf8.DecodeRuneInString (String c0 t)) = utf8.RuneError.
Proof.
  intros Hlen B. unfold utf8.DecodeRuneInString.
  destruct (N_of_ascii c0 <? utf8.RuneSelf)%N; [left; reflexivity|].
  destruct (utf8.first (N_of_ascii c0)) as [[[sz lo] hi]|] eqn:F;
    [|left; reflexivity].
  apply first_size in F.
  destruct (String.length (String c0 t) <? sz)%nat eqn:Et; [right; reflexivity|].
  apply Nat.ltb_ge in Et.
  replace (String.length (String c0 s) <? sz)%nat with false
    by (symmetry; apply Nat.ltb_ge; lia).
  cbv zeta. rewrite (B 1%nat) by lia.
  destruct (negb (utf8.in_range lo hi (Str.byte_at (String c0 s) 1)));
    [left; reflexivity|].
  destruct (sz <=? 2)%nat eqn:E2; [left; reflexivity|].
  apply Nat.leb_gt in E2. rewrite (B 2%nat) by lia.
  destruct (negb (utf8.is_cont (Str.byte_at (String c0 s) 2)));
    [left; reflexivity|].
  destruct (sz <=? 3)%nat eqn:E3; [left; reflexivity|].
  apply Nat.leb_gt in E3. rewrite (B 3%nat) by lia.
  left. reflexivity.
Qed.

(** The first rune of a prefix is the first rune of the text, or the
    error rune. *)
Lemma decode_take n s :
  fst (utf8.DecodeRuneInString (Str.take n s))
  = fst (utf8.DecodeRuneInString s)
  ∨ fst (utf8.DecodeRuneInString (Str.take n s)) = utf8.RuneError.
Proof.
  destruct n as [|n]; [right; destruct s; reflexivity|].
  destruct s as [|c0 rest]; [left; reflexivity|].
  pose proof (length_take_str (S n) (String c0 rest)) as Hlen.
  change (Str.take (S n) (String c0 rest))
    with (String c0 (Str.take n rest)) in *.
  apply decode_agree; [lia|].
  intros i Hi.
  change (String c0 (Str.take n rest))
    with (Str.take (S n) (String c0 rest)).
  apply byte_at_take. lia.
Qed.

Lemma take_starts n s :
  starts_with_space s = false → starts_with_space (Str.take n s) = false.
Proof.
  unfold starts_with_space. intros H.
  destruct (decode_take n s) as [-> | ->]; [exact H | reflexivity].
Qed.

Lemma TrimRight_starts fuel s :
  starts_with_space s = false →
  starts_with_space (TrimRight_loop fuel s) = false.
Proof.
  revert s. induction fuel as [|fuel IH]; intros s H; [exact H|].
  cbn [TrimRight_loop].
  destruct (utf8.DecodeLastRuneInString s) as [rn w].
  destruct (utf8.IsSpace rn); [|exact H].
  apply IH, take_starts, H.
Qed.

(** A last rune that is white space has a width. *)
Lemma last_width s :
  utf8.IsSpace (fst (utf8.DecodeLastRuneInString s)) = true →
  (1 ≤ snd (utf8.DecodeLastRuneInString s))%nat.
Proof.
  unfold utf8.DecodeLastRuneInString. cbv zeta.
  destruct (Str.len s =? 0); [discriminate|].
  destruct (_ <? utf8.RuneSelf)%N; [cbn; lia|].
  match goal with
  | |- context [utf8.DecodeRuneInString ?x] =>
    pose proof (decode_width x) as W;
    destruct (utf8.DecodeRuneInString x) as [r size]
  end.
  destruct (_ =? _); cbn [fst snd] in *; [|lia].
  intros Hs. destruct size as [|size]; [|lia].
  rewrite (W eq_refl) in Hs. discriminate Hs.
Qed.

Lemma TrimRight_ends fuel s :
  (String.length s ≤ fuel)%nat →
  ends_with_space (TrimRight_loop fuel s) = false.
Proof.
  revert s. induction fuel as [|fuel IH]; intros s H.
  - destruct s; [reflexivity | cbn in H; lia].
  - cbn [TrimRight_loop]. pose proof (last_width s) as W.
    destruct (utf8.DecodeLastRuneInString s) as [rn w] eqn:E.
    cbn [fst snd] in W.
    destruct (utf8.IsSpace rn) eqn:Es.
    + apply IH. rewrite length_take_str. specialize (W eq_refl). lia.
    + unfold ends_with_space. rewrite E. exact Es.
Qed.

Lemma TrimSpace_starts s : starts_with_space (TrimSpace s) = false.
Proof. apply TrimRight_starts, TrimLeft_starts. Qed.

Lemma TrimSpace_ends s : ends_with_space (TrimSpace s) = false.
Proof. apply TrimRight_ends. lia. Qed.

Lemma TrimSpace_trimmed s : trimmed (TrimSpace s) = true.
Proof. unfold trimmed. rewrite TrimSpace_starts, TrimSpace_ends. reflexivity. Qed.

(** A trimmed text is left as it is. *)
Lemma TrimSpace_fixed s : trimmed s = true → TrimSpace s = s.
Proof.
  unfold trimmed. intros H. apply andb_true_iff in H as [H1 H2].
  apply negb_true_iff in H1, H2.
  assert (L : TrimLeftSpace s = s).
  { unfold TrimLeftSpace. destruct s as [|c r]; [reflexivity|].
    cbn [TrimLeft_from]. unfold starts_with_space in H1.
    destruct (utf8.DecodeRuneInString (String c r)) as [rn w].
    cbn [fst] in H1. rewrite H1. reflexivity. }
  unfold TrimSpace. rewrite L. unfold TrimRightSpace.
  destruct (String.length s) as [|n]; [reflexivity|].
  cbn [TrimRight_loop]. unfold ends_with_space in H2.
  destruct (utf8.DecodeLastRuneInString s) as [rn w].
  cbn [fst] in H2. rewrite H2. reflexivity.
Qed.

End TrimFacts.

Section Trimmed.
Context {codecs : Codecs} {sorter : SortSlice}.

(** ** Title, author and the texts of the table of contents *)

(** The title and the author of a cataloged record neither begin nor
    end with a white-space rune (as Go decodes the first and the last
    rune of a text, well-formed or not), and trimming them again leaves
    them as they are. *)
Theorem record_title_author_trimmed (env : Env) (file : reader)
    (header : FileHeader) (w : World) (id : string) (info : BookInfo.t) :
  res (ingest env file header w) = inr (id, info) →
  TrimSpec.trimmed (BookInfo.Title info) = true
  ∧ TrimSpec.trimmed (BookInfo.Author info) = true
  ∧ GoStrings.TrimSpace (BookInfo.Title info) = BookInfo.Title info
  ∧ GoStrings.TrimSpace (BookInfo.Author info) = BookInfo.Author info.
Proof.
  intros Hres.
  destruct (ingest_ok_parse env file header w id info Hres)
    as (root & rootfile & opf & _ & _ & ->).
  cbn [BookInfo.Title BookInfo.Author book_record].
  repeat split;
    try apply TrimFacts.TrimSpace_trimmed;
    apply TrimFacts.TrimSpace_fixed, TrimFacts.TrimSpace_trimmed.
Qed.

(** What [stripTags] returns neither begins nor ends with a white-space
    rune, whatever the text; and a line that [extractNav] has trimmed is
    the same line trimmed again. *)
Theorem stripTags_trimmed (s : string) :
  TrimSpec.starts_with_space (stripTags s) = false
  ∧ TrimSpec.ends_with_space (stripTags s) = false
  ∧ GoStrings.TrimSpace (GoStrings.TrimSpace s) = GoStrings.TrimSpace s.
Proof.
  rewrite NavFacts.stripTags_visible. unfold NavSpec.visible_text.
  split; [apply TrimFacts.TrimSpace_starts|].
  split; [apply TrimFacts.TrimSpace_ends|].
  apply TrimFacts.TrimSpace_fixed, TrimFacts.TrimSpace_trimmed.
Qed.

End Trimmed.

(* ================================================================== *)
(** * Decoding what was encoded *)
(* ================================================================== *)

Module Utf8Facts.
Import Utf8Spec.
Local Open Scope N_scope.

Lemma all_below_spec n f :
  all_below n f = true → ∀ x, x < N.of_nat n → f x = true.
Proof.
  induction n as [|k IH]; intros H x Hx; [lia|].
  cbn [all_below] in H. apply andb_true_iff in H as [Hk Hr].
  destruct (N.eq_dec x (N.of_nat k)) as [->|Hne]; [exact Hk|].
  apply IH; [exact Hr | lia].
Qed.

(** ** The parts of a rune *)

Lemma split_low r : r = N.lor (N.shiftl (N.shiftr r 6) 6) (N.land r 0x3F).
Proof.
  apply N.bits_inj. intros n.
  rewrite N.lor_spec, N.land_spec. change 0x3F with (N.ones 6).
  destruct (N.lt_ge_cases n 6) as [H|H].
  - rewrite N.shiftl_spec_low, N.ones_spec_low by exact H.
    rewrite andb_true_r. reflexivity.
  - rewrite N.shiftl_spec_high', N.shiftr_spec', N.ones_spec_high by exact H.
    rewrite andb_false_r, orb_false_r. f_equal. lia.
Qed.

Lemma low_bound x : N.land x 0x3F < 64.
Proof.
  change 0x3F with (N.ones 6). rewrite N.land_ones.
  apply N.mod_upper_bound. discriminate.
Qed.

(** ** The bytes written *)

Lemma N_of_wr x : N_of_ascii (utf8.byte x) = wr x.
Proof. apply TextFacts.N_of_byte. Qed.

(** A continuation byte carries its six bits. *)
Lemma cont_byte c :
  c < 64 →
  utf8.is_cont (wr (N.lor 0x80 c)) = true
  ∧ N.land (wr (N.lor 0x80 c)) 0x3F = c.
Proof.
  intros Hc.
  pose proof (all_below_spec 64
                (λ c, utf8.is_cont (wr (N.lor 0x80 c))
                      && (N.land (wr (N.lor 0x80 c)) 0x3F =? c))
                ltac:(vm_compute; reflexivity) c Hc) as H.
  cbv beta in H. apply andb_true_iff in H as [H1 H2].
  apply N.eqb_eq in H2. auto.
Qed.

(** The leading byte and the second byte, from the bits above the
    last six (two bytes), the last twelve (three bytes) or the last
    eighteen (four bytes). *)
Lemma lead2 m :
  2 ≤ m < 32 →
  leads 2 (wr (N.lor 0xC0 m)) (wr (N.lor 0x80 0)) = true
  ∧ N.land (wr (N.lor 0xC0 m)) 0x1F = m.
Proof.
  intros [Hlo Hhi].
  pose proof (all_below_spec 32
                (λ m, implb (2 <=? m)
                        (leads 2 (wr (N.lor 0xC0 m)) (wr (N.lor 0x80 0))
                         && (N.land (wr (N.lor 0xC0 m)) 0x1F =? m)))
                ltac:(vm_compute; reflexivity) m Hhi) as H.
  cbv beta in H. apply N.leb_le in Hlo. rewrite Hlo in H. cbn [implb] in H.
  apply andb_true_iff in H as [H1 H2]. apply N.eqb_eq in H2. auto.
Qed.

Lemma lead3 m :
  32 ≤ m < 1024 → utf8.in_range 864 895 m = false →
  leads 3 (wr (N.lor 0xE0 (N.shiftr m 6))) (wr (N.lor 0x80 (N.land m 0x3F)))
  = true
  ∧ N.land (wr (N.lor 0xE0 (N.shiftr m 6))) 0x0F = N.shiftr m 6.
Proof.
  intros [Hlo Hhi] Hs.
  pose proof (all_below_spec 1024
                (λ m, implb ((32 <=? m) && negb (utf8.in_range 864 895 m))
                        (leads 3 (wr (N.lor 0xE0 (N.shiftr m 6)))
                           (wr (N.lor 0x80 (N.land m 0x3F)))
                         && (N.land (wr (N.lor 0xE0 (N.shiftr m 6))) 0x0F
                             =? N.shiftr m 6)))
                ltac:(vm_compute; reflexivity) m Hhi) as H.
  cbv beta in H. apply N.leb_le in Hlo. rewrite Hlo, Hs in H.
  cbn [implb andb negb] in H.
  apply andb_true_iff in H as [H1 H2]. apply N.eqb_eq in H2. auto.
Qed.

Lemma lead4 m :
  16 ≤ m < 272 →
  leads 4 (wr (N.lor 0xF0 (N.shiftr m 6))) (wr (N.lor 0x80 (N.land m 0x3F)))
  = true
  ∧ N.land (wr (N.lor 0xF0 (N.shiftr m 6))) 0x07 = N.shiftr m 6.
Proof.
  intros [Hlo Hhi].
  pose proof (all_below_spec 272
                (λ m, implb (16 <=? m)
                        (leads 4 (wr (N.lor 0xF0 (N.shiftr m 6)))
                           (wr (N.lor 0x80 (N.land m 0x3F)))
                         && (N.land (wr (N.lor 0xF0 (N.shiftr m 6))) 0x07
                             =? N.shiftr m 6)))
                ltac:(vm_compute; reflexivity) m Hhi) as H.
  cbv beta in H. apply N.leb_le in Hlo. rewrite Hlo in H. cbn [implb] in H.
  apply andb_true_iff in H as [H1 H2]. apply N.eqb_eq in H2. auto.
Qed.

End Utf8Facts.

(* ================================================================== *)
(** * The worked example *)
(* ================================================================== *)

(** The package document of the example has its title and creator with
    white space around; that of [Demo.no_candidate] has neither element. *)
Lemma demo_documents :
  DocSpec.dc_texts "title" (Demo.package_doc (Demo.package Demo.spine1))
  = ["  Moby-Dick "]
  ∧ DocSpec.dc_texts "creator" (Demo.package_doc (Demo.package Demo.spine1))
    = [" Herman Melville"]
  ∧ DocSpec.dc_texts "title" (Demo.package_doc Demo.no_candidate) = []
  ∧ DocSpec.dc_texts "creator" (Demo.package_doc Demo.no_candidate) = []
  ∧ GetMetadata
      (store (final (@Demo.run insertion_sorter Demo.no_candidate Demo.t1
                       Demo.world0)))
      Demo.id1
    = Some ("", "").
Proof. repeat split; vm_compute; reflexivity. Qed.

(** C5, at the example: title and author are served trimmed. *)
Lemma ingest_title_author_witness :
  res (@ingest_parse (Demo.codecs (Demo.package Demo.spine1))
         (Demo.env Demo.t1) Demo.upload Demo.header Demo.world0)
  = inr ("data/books/41983bc5e4c8/unpacked", "OEBPS/content.opf",
         Demo.package Demo.spine1)
  ∧ GetBook
      (store (final (@Demo.run insertion_sorter (Demo.package Demo.spine1)
                       Demo.t1 Demo.world0)))
      Demo.id1
    = Some (Demo.id1, "Moby-Dick", "Herman Melville", "OEBPS/content.opf").
Proof.
  assert (Hp :
    res (@ingest_parse (Demo.codecs (Demo.package Demo.spine1))
           (Demo.env Demo.t1) Demo.upload Demo.header Demo.world0)
    = inr ("data/books/41983bc5e4c8/unpacked", "OEBPS/content.opf",
           Demo.package Demo.spine1))
    by (vm_compute; reflexivity).
  split; [exact Hp|].
  destruct (@ingest_title_author (Demo.codecs (Demo.package Demo.spine1))
              insertion_sorter _ _ _ _ _ _ _ Hp)
    as (data & doc & Hdata & Hdoc & _ & H & _).
  vm_compute in Hdata. injection Hdata as <-.
  vm_compute in Hdoc. injection Hdoc as <-.
  vm_compute in H. vm_compute. exact H.
Defined.

(** C1, at the example: the spine entry is resolved and the table of
    contents has the one entry. *)
Lemma spine_resolved_on_read_witness :
  res (@ingest_parse (Demo.codecs (Demo.package Demo.spine1))
         (Demo.env Demo.t1) Demo.upload Demo.header Demo.world0)
  = inr ("data/books/41983bc5e4c8/unpacked", "OEBPS/content.opf",
         Demo.package Demo.spine1)
  ∧ GetSpine
      (store (final (@Demo.run insertion_sorter (Demo.package Demo.spine1)
                       Demo.t1 Demo.world0)))
      Demo.id1
    = Some [SpineItem.mk "c1" "OEBPS/chap1.xhtml" "application/xhtml+xml" ""]
  ∧ ∃ href,
      GetTOC
        (store (final (@Demo.run insertion_sorter (Demo.package Demo.spine1)
                         Demo.t1 Demo.world0)))
        Demo.id1
      = Some (NavDoc.mk [NavItem.mk href "Chapter 1"]).
Proof.
  assert (Hp :
    res (@ingest_parse (Demo.codecs (Demo.package Demo.spine1))
           (Demo.env Demo.t1) Demo.upload Demo.header Demo.world0)
    = inr ("data/books/41983bc5e4c8/unpacked", "OEBPS/content.opf",
           Demo.package Demo.spine1))
    by (vm_compute; reflexivity).
  split; [exact Hp|].
  destruct (@spine_resolved_on_read (Demo.codecs (Demo.package Demo.spine1))
              insertion_sorter _ _ _ _ _ _ _ Hp) as (_ & _ & _ & H).
  assert (Hid : deriveID Demo.header (now (Demo.env Demo.t1)) = Demo.id1)
    by (vm_compute; reflexivity).
  rewrite Hid in H.
  apply (H eq_refl Demo.chapter_type Demo.nav_xhtml ["<nav>"] ["</nav>"]).
  - reflexivity.
  - reflexivity.
  - vm_compute. reflexivity.
  - vm_compute. reflexivity.
  - repeat constructor.
Defined.

(** C1, as stated, fails at its own example: the record keeps the
    manifest hrefs as authored (nothing is resolved at ingestion), and the
    entry of the table of contents has the href authored in the
    navigation document, not the one resolved against the archive root. *)
Lemma toc_href_as_authored :
  (BookInfo.OPF
     <$> GetBookByID
           (store (final (@Demo.run insertion_sorter (Demo.package Demo.spine1)
                            Demo.t1 Demo.world0)))
           Demo.id1)
  = Some (Demo.package Demo.spine1)
  ∧ GetTOC
      (store (final (@Demo.run insertion_sorter (Demo.package Demo.spine1)
                       Demo.t1 Demo.world0)))
      Demo.id1
    = Some (NavDoc.mk [NavItem.mk "chap1.xhtml" "Chapter 1"])
  ∧ GetTOC
      (store (final (@Demo.run insertion_sorter (Demo.package Demo.spine1)
                       Demo.t1 Demo.world0)))
      Demo.id1
    ≠ Some (NavDoc.mk [NavItem.mk "OEBPS/chap1.xhtml" "Chapter 1"]).
Proof.
  split; [vm_compute; reflexivity|].
  split; [vm_compute; reflexivity|].
  vm_compute. discriminate.
Qed.

Lemma ghost_dangling :
  dangling (Demo.package Demo.spine_ghost) (OPFItemref.mk "ghost").
Proof. intros it [<-|[<-|[]]]; discriminate. Qed.

(** C2, at the example with a spine entry [ghost] that matches no
    manifest item. *)
Lemma spine_dangling_entry_witness :
  res (@ingest_parse (Demo.codecs (Demo.package Demo.spine_ghost))
         (Demo.env Demo.t1) Demo.upload Demo.header Demo.world0)
  = inr ("data/books/41983bc5e4c8/unpacked", "OEBPS/content.opf",
         Demo.package Demo.spine_ghost)
  ∧ spine_entry "OEBPS/content.opf" (Demo.package Demo.spine_ghost)
      (OPFItemref.mk "ghost")
    = SpineItem.mk "ghost" "OEBPS" "" "".
Proof.
  assert (Hp :
    res (@ingest_parse (Demo.codecs (Demo.package Demo.spine_ghost))
           (Demo.env Demo.t1) Demo.upload Demo.header Demo.world0)
    = inr ("data/books/41983bc5e4c8/unpacked", "OEBPS/content.opf",
           Demo.package Demo.spine_ghost))
    by (vm_compute; reflexivity).
  split; [exact Hp|].
  destruct (@spine_dangling_entry (Demo.codecs (Demo.package Demo.spine_ghost))
              insertion_sorter _ _ _ _ _ _ _ Hp) as (_ & _ & H).
  destruct (H (OPFItemref.mk "ghost")) as [E _].
  - right. left. reflexivity.
  - exact ghost_dangling.
  - exact E.
Defined.

(** C2, as stated, fails: the entry served for the dangling idref has the
    directory of the package document as its href, not the empty string. *)
Lemma spine_dangling_href_not_empty :
  dangling (Demo.package Demo.spine_ghost) (OPFItemref.mk "ghost")
  ∧ GetSpine
      (store (final (@Demo.run insertion_sorter (Demo.package Demo.spine_ghost)
                       Demo.t1 Demo.world0)))
      Demo.id1
    = Some [SpineItem.mk "c1" "OEBPS/chap1.xhtml" Demo.chapter_type "";
            SpineItem.mk "ghost" "OEBPS" "" ""]
  ∧ SpineItem.Href (SpineItem.mk "ghost" "OEBPS" "" "") ≠ "".
Proof.
  split; [exact ghost_dangling|].
  split; [vm_compute; reflexivity | discriminate].
Qed.

(** C4, at two manifests: of three candidates the shortest is chosen, and
    names that differ in case are no candidates. *)
Lemma findNavItem_shortest_candidate_witness :
  nav_candidates Demo.three_candidates
  = ["text/toc-extra.xhtml"; "nav.xhtml"; "toc.ncx"]
  ∧ @findNavItem insertion_sorter Demo.three_candidates = "toc.ncx"
  ∧ (∀ c, In c (nav_candidates Demo.three_candidates) →
          (String.length (@findNavItem insertion_sorter Demo.three_candidates)
           ≤ String.length c)%nat)
  ∧ nav_candidates Demo.no_candidate = []
  ∧ @findNavItem insertion_sorter Demo.no_candidate = "".
Proof.
  split; [reflexivity|]. split; [reflexivity|]. split.
  - destruct (@findNavItem_shortest_candidate (Demo.codecs Demo.three_candidates)
                insertion_sorter Demo.three_candidates) as (_ & H & _).
    change (nav_candidates Demo.three_candidates)
      with ["text/toc-extra.xhtml"; "nav.xhtml"; "toc.ncx"] in H.
    apply H.
  - split; [reflexivity|].
    destruct (@findNavItem_shortest_candidate (Demo.codecs Demo.no_candidate)
                insertion_sorter Demo.no_candidate) as (_ & H & _).
    exact H.
Defined.

(** C9, at two uploads of the example one nanosecond apart: the
    identifiers differ and both books are retrievable. *)
Lemma ingest_twice_witness :
  GetBookByID
    (store (final (@Demo.run insertion_sorter (Demo.package Demo.spine1)
                     (Demo.t1 + 1)
                     (final (@Demo.run insertion_sorter
                               (Demo.package Demo.spine1) Demo.t1
                               Demo.world0)))))
    Demo.id1
  = Some (Demo.record Demo.id1 (Demo.package Demo.spine1))
  ∧ GetBookByID
      (store (final (@Demo.run insertion_sorter (Demo.package Demo.spine1)
                       (Demo.t1 + 1)
                       (final (@Demo.run insertion_sorter
                                 (Demo.package Demo.spine1) Demo.t1
                                 Demo.world0)))))
      Demo.id1'
    = Some (Demo.record Demo.id1' (Demo.package Demo.spine1)).
Proof.
  assert (H1 :
    res (@ingest (Demo.codecs (Demo.package Demo.spine1)) insertion_sorter
           (Demo.env Demo.t1) Demo.upload Demo.header Demo.world0)
    = inr (Demo.id1, Demo.record Demo.id1 (Demo.package Demo.spine1)))
    by (vm_compute; reflexivity).
  assert (H2 :
    res (@ingest (Demo.codecs (Demo.package Demo.spine1)) insertion_sorter
           (Demo.env (Demo.t1 + 1)) Demo.upload Demo.header
           (final (@ingest (Demo.codecs (Demo.package Demo.spine1))
                     insertion_sorter (Demo.env Demo.t1) Demo.upload
                     Demo.header Demo.world0)))
    = inr (Demo.id1', Demo.record Demo.id1' (Demo.package Demo.spine1)))
    by (vm_compute; reflexivity).
  destruct (@ingest_twice (Demo.codecs (Demo.package Demo.spine1))
              insertion_sorter _ _ _ _ _ _ _ _ _ _ _ H1 H2)
    as (_ & _ & Hsecond & Hfirst & _).
  split; [apply Hfirst; discriminate | exact Hsecond].
Defined.

(** C9, as stated, fails: two uploads of the same bytes under the same
    name, about nine seconds apart, get the same identifier, and the
    catalog holds one book after both. *)
Lemma identical_uploads_share_identifier :
  Demo.t1 < Demo.t2
  ∧ ok_id (@Demo.run insertion_sorter (Demo.package Demo.spine1) Demo.t1
             Demo.world0)
    = Some Demo.id1
  ∧ ok_id (@Demo.run insertion_sorter (Demo.package Demo.spine1) Demo.t2
             (final (@Demo.run insertion_sorter (Demo.package Demo.spine1)
                       Demo.t1 Demo.world0)))
    = Some Demo.id1
  ∧ size (books (store (final
            (@Demo.run insertion_sorter (Demo.package Demo.spine1) Demo.t2
               (final (@Demo.run insertion_sorter (Demo.package Demo.spine1)
                         Demo.t1 Demo.world0))))))
    = 1%nat.
Proof.
  split; [reflexivity|].
  split; [vm_compute; reflexivity|].
  split; vm_compute; reflexivity.
Qed.

(* ================================================================== *)
(** * The worked example, continued *)
(* ================================================================== *)

(** Extraction of the archive of the example into [out]. *)
Lemma unzipFile_extracts_witness :
  let o := @unzipFile (Demo.codecs Demo2.pkg) (Demo.env 0) "in.zip" "out"
             Demo2.stored in
  res o = inr tt
  ∧ disk (final o) !! "out/OEBPS/nav.xhtml" = Some Demo.nav_xhtml
  ∧ disk (final o) !! "in.zip" = Some "book.epub bytes".
Proof.
  cbv zeta.
  assert (Hd : disk Demo2.stored !! "in.zip" = Some "book.epub bytes")
    by (vm_compute; reflexivity).
  assert (Hz : @zip_Reader (Demo.codecs Demo2.pkg) "book.epub bytes"
               = Some Demo.archive) by reflexivity.
  assert (Hall : forallb (entry_ok (Demo.env 0) "out") Demo.archive = true)
    by (vm_compute; reflexivity).
  destruct (@unzipFile_extracts (Demo.codecs Demo2.pkg) (Demo.env 0)
              "in.zip" "out" Demo2.stored _ _ Hd Hz) as (_ & _ & H).
  destruct (H Hall) as [Hres Hl].
  split; [exact Hres|]. rewrite !Hl. split; vm_compute; reflexivity.
Defined.

(** Extraction of an archive whose third entry does not open: the first
    entry stays extracted and the last is not reached. *)
Lemma unzipFile_keeps_partial_witness :
  let o := @unzipFile
             (Demo2.codecs
                (Demo2.first_entries ++ Demo2.unreadable :: Demo2.last_entries)
                Demo2.pkg)
             (Demo.env 0) "in.zip" "out" Demo2.stored in
  is_ok (res o) = false
  ∧ disk (final o) !! "out/mimetype" = Some "application/epub+zip"
  ∧ disk (final o) !! "out/OEBPS/late.xhtml" = None.
Proof.
  cbv zeta.
  assert (Hd : disk Demo2.stored !! "in.zip" = Some "book.epub bytes")
    by (vm_compute; reflexivity).
  assert (Hpre : forallb (entry_ok (Demo.env 0) "out") Demo2.first_entries
                 = true) by (vm_compute; reflexivity).
  assert (Hf : entry_ok (Demo.env 0) "out" Demo2.unreadable = false)
    by (vm_compute; reflexivity).
  destruct (@unzipFile_keeps_partial
              (Demo2.codecs
                 (Demo2.first_entries ++ Demo2.unreadable :: Demo2.last_entries)
                 Demo2.pkg)
              (Demo.env 0) "in.zip" "out" Demo2.stored "book.epub bytes"
              Demo2.first_entries Demo2.unreadable Demo2.last_entries
              Hd eq_refl Hpre Hf) as [Hres Hl].
  split; [exact Hres|].
  rewrite !Hl by (vm_compute; discriminate).
  split; vm_compute; reflexivity.
Defined.

(** The tree the upload of the example leaves. *)
Lemma ingest_extracted_tree_witness :
  let o := @Demo.run insertion_sorter Demo2.pkg Demo.t1 Demo.world0 in
  disk (final o) !! "data/books/41983bc5e4c8/book.epub" = Some "book.epub bytes"
  ∧ disk (final o) !! "data/books/41983bc5e4c8/unpacked/OEBPS/chap1.xhtml"
    = Some Demo2.chapter
  ∧ disk (final o) !! "data/books/41983bc5e4c8/unpacked/cover.png" = None.
Proof.
  cbv zeta. unfold Demo.run.
  assert (Hres :
    res (@ingest (Demo.codecs Demo2.pkg) insertion_sorter (Demo.env Demo.t1)
           Demo.upload Demo.header Demo.world0)
    = inr (Demo.id1, Demo.record Demo.id1 Demo2.pkg))
    by (vm_compute; reflexivity).
  destruct (@ingest_extracted_tree (Demo.codecs Demo2.pkg) insertion_sorter
              _ _ _ _ _ _ Demo.archive Hres eq_refl) as (_ & _ & Hl).
  rewrite !Hl. repeat split; vm_compute; reflexivity.
Defined.

(** The first chapter of the example is served as the archive holds it. *)
Lemma file_handler_serves_archive_witness :
  let o := @Demo.run insertion_sorter Demo2.pkg Demo.t1 Demo.world0 in
  ∃ p,
    file_handler (store (final o)) Demo.id1
      ("/api/books/" +:+ Demo.id1 +:+ "/file/" +:+ "OEBPS/chap1.xhtml")
    = ServeFile p
    ∧ disk (final o) !! p = Some Demo2.chapter.
Proof.
  assert (Hres :
    res (@ingest (Demo.codecs Demo2.pkg) insertion_sorter (Demo.env Demo.t1)
           Demo.upload Demo.header Demo.world0)
    = inr (Demo.id1, Demo.record Demo.id1 Demo2.pkg))
    by (vm_compute; reflexivity).
  assert (Hw :
    written (BookInfo.RootFS (Demo.record Demo.id1 Demo2.pkg)) Demo.archive
      (filepath_Join [BookInfo.RootFS (Demo.record Demo.id1 Demo2.pkg);
                      "OEBPS/chap1.xhtml"])
    = Some Demo2.chapter) by (vm_compute; reflexivity).
  exact (@file_handler_serves_archive (Demo.codecs Demo2.pkg) insertion_sorter
           _ _ _ _ _ _ Demo.archive "OEBPS/chap1.xhtml" Demo2.chapter
           Hres eq_refl Hw).
Defined.

(** The place of the first chapter of the example. *)
Lemma ordinary_names_below_root_witness :
  let o := @Demo.run insertion_sorter Demo2.pkg Demo.t1 Demo.world0 in
  file_handler (store (final o)) Demo.id1
    ("/api/books/" +:+ Demo.id1 +:+ "/file/" +:+ "OEBPS/chap1.xhtml")
  = ServeFile "data/books/41983bc5e4c8/unpacked/OEBPS/chap1.xhtml".
Proof.
  assert (Hres :
    res (@ingest (Demo.codecs Demo2.pkg) insertion_sorter (Demo.env Demo.t1)
           Demo.upload Demo.header Demo.world0)
    = inr (Demo.id1, Demo.record Demo.id1 Demo2.pkg))
    by (vm_compute; reflexivity).
  destruct (@ordinary_names_below_root (Demo.codecs Demo2.pkg) insertion_sorter
              _ _ _ _ _ _ "OEBPS/chap1.xhtml" Hres eq_refl) as [_ H].
  exact H.
Defined.


(** The world after the upload of the example can be reached, and its
    record is filed under its identifier. *)
Lemma catalog_records_filed_witness :
  let w := final (@Demo.run insertion_sorter Demo2.pkg Demo.t1 Demo.world0) in
  rootDir (store w) = "data/books"
  ∧ BookInfo.RootFS (Demo.record Demo.id1 Demo2.pkg)
    = filepath_Join [filepath_Join ["data/books"; Demo.id1]; "unpacked"].
Proof.
  cbv zeta.
  assert (Hr : @reachable (Demo.codecs Demo2.pkg) insertion_sorter "data/books"
                 (final (@Demo.run insertion_sorter Demo2.pkg Demo.t1
                           Demo.world0))).
  { apply reach_ingest. apply (reach_new "data/books" ∅). }
  destruct (@catalog_records_filed (Demo.codecs Demo2.pkg) insertion_sorter
              _ _ Hr) as [H1 H2].
  split; [exact H1|].
  assert (Hb : GetBookByID
                 (store (final (@Demo.run insertion_sorter Demo2.pkg Demo.t1
                                  Demo.world0))) Demo.id1
               = Some (Demo.record Demo.id1 Demo2.pkg))
    by (vm_compute; reflexivity).
  destruct (H2 _ _ Hb) as (_ & _ & _ & H). exact H.
Defined.

(** After the upload of the example the list has one record, which
    [GetBook] finds under its identifier. *)
Lemma listed_books_open_witness :
  let s := store (final (@Demo.run insertion_sorter Demo2.pkg Demo.t1
                           Demo.world0)) in
  ListBooks s = [(Demo.id1, "Moby-Dick", "Herman Melville", "OEBPS/content.opf")]
  ∧ GetBook s Demo.id1
    = Some (Demo.id1, "Moby-Dick", "Herman Melville", "OEBPS/content.opf").
Proof.
  cbv zeta.
  assert (Hr : @reachable (Demo.codecs Demo2.pkg) insertion_sorter "data/books"
                 (final (@Demo.run insertion_sorter Demo2.pkg Demo.t1
                           Demo.world0))).
  { apply reach_ingest. apply (reach_new "data/books" ∅). }
  assert (Hl : ListBooks
                 (store (final (@Demo.run insertion_sorter Demo2.pkg Demo.t1
                                  Demo.world0)))
               = [(Demo.id1, "Moby-Dick", "Herman Melville", "OEBPS/content.opf")])
    by (vm_compute; reflexivity).
  split; [exact Hl|].
  destruct (@listed_books_open (Demo.codecs Demo2.pkg) insertion_sorter
              _ _ Hr) as (H & _ & _).
  apply H. rewrite Hl. split; [left; reflexivity | reflexivity].
Defined.

(** The list after the upload of the example into the empty store. *)
Lemma ListBooks_after_ingest_witness :
  Permutation
    (ListBooks (store (final (@Demo.run insertion_sorter Demo2.pkg Demo.t1
                                Demo.world0))))
    [(Demo.id1, "Moby-Dick", "Herman Melville", "OEBPS/content.opf")].
Proof.
  assert (Hres :
    res (@ingest (Demo.codecs Demo2.pkg) insertion_sorter (Demo.env Demo.t1)
           Demo.upload Demo.header Demo.world0)
    = inr (Demo.id1, Demo.record Demo.id1 Demo2.pkg))
    by (vm_compute; reflexivity).
  pose proof (@ListBooks_after_ingest (Demo.codecs Demo2.pkg) insertion_sorter
                _ _ _ _ _ _ Hres) as H.
  exact H.
Defined.

(** The table of contents of the example has one entry, which is clean. *)
Lemma toc_entries_clean_witness :
  Forall entry_clean [NavItem.mk "chap1.xhtml" "Chapter 1"].
Proof.
  assert (Hres :
    res (@ingest (Demo.codecs Demo2.pkg) insertion_sorter (Demo.env Demo.t1)
           Demo.upload Demo.header Demo.world0)
    = inr (Demo.id1, Demo.record Demo.id1 Demo2.pkg))
    by (vm_compute; reflexivity).
  destruct (@toc_entries_clean (Demo.codecs Demo2.pkg) insertion_sorter
              _ _ _ _ _ _ Hres) as (_ & H & _).
  exact H.
Defined.

Lemma page_hrefs :
  NoDup (map SpineItem.Href (App.spine Demo2.page)).
Proof.
  repeat constructor; cbn; rewrite ?list_elem_of_In; cbn; intuition discriminate.
Qed.

(** On the page of the example at its second chapter, Next and then Prev
    come back to it. *)
Lemma next_prev_undo_witness :
  let st := App.setChapterUrl Demo2.page
              (App.fileUrl Demo2.API Demo.id1 "OEBPS/chap2.xhtml") in
  App.chapterUrl (App.next Demo2.API st)
  = Some (App.fileUrl Demo2.API Demo.id1 "OEBPS/chap3.xhtml")
  ∧ App.prev Demo2.API (App.next Demo2.API st) = st.
Proof.
  cbv zeta. split; [vm_compute; reflexivity|].
  destruct (next_prev_undo Demo2.API
              (App.setChapterUrl Demo2.page
                 (App.fileUrl Demo2.API Demo.id1 "OEBPS/chap2.xhtml"))
              page_hrefs) as [H _].
  apply H. vm_compute. discriminate.
Defined.

(** On the page of the example, opening the first chapter and pressing
    Next twice shows the third. *)
Lemma next_walks_spine_witness :
  App.chapterUrl
    (Nat.iter 2 (App.next Demo2.API) (App.openFirst Demo2.API Demo2.page))
  = Some (App.fileUrl Demo2.API Demo.id1 "OEBPS/chap3.xhtml").
Proof.
  destruct (next_walks_spine Demo2.API Demo.id1 Demo2.page 2 eq_refl
              ltac:(discriminate) page_hrefs ltac:(cbn; lia)) as [H _].
  rewrite H. reflexivity.
Defined.

(** On the page of the example, the entry of the table of contents has
    the href as authored, which is the href of no chapter of the spine:
    after choosing it Next changes nothing. *)
Lemma entry_outside_spine_witness :
  let st' := App.openEntry Demo2.API Demo2.page
               (NavItem.mk "chap1.xhtml" "Chapter 1") in
  App.chapterUrl st' = Some (App.fileUrl Demo2.API Demo.id1 "chap1.xhtml")
  ∧ App.next Demo2.API st' = st'.
Proof.
  destruct (entry_outside_spine Demo2.API Demo.id1 Demo2.page
              (NavItem.mk "chap1.xhtml" "Chapter 1") eq_refl
              ltac:(discriminate)) as (H1 & H2 & _).
  - cbn. intuition discriminate.
  - split; [exact H1 | exact H2].
Defined.

(** A reference resolved in two steps. *)
Lemma normJoin_in_steps_witness :
  normJoin (normJoin "OEBPS" "text") "../nav.xhtml" = "OEBPS/nav.xhtml"
  ∧ normJoin "" (normJoin "OEBPS" "text") = "OEBPS/text".
Proof.
  destruct (normJoin_in_steps "OEBPS" "text" "../nav.xhtml"
              ltac:(discriminate) ltac:(discriminate)) as [H1 H2].
  rewrite H1, H2. split; vm_compute; reflexivity.
Defined.

(** Of the two items [c1] of the manifest, the spine entry is that of
    the second. *)
Lemma spine_later_item_wins_witness :
  GetSpine Demo2.shelf "0123456789ab"
  = Some [SpineItem.mk "c1" "OEBPS/new.xhtml" Demo.chapter_type ""].
Proof.
  destruct (spine_later_item_wins Demo2.shelf "0123456789ab" Demo2.twice
              [OPFItem.mk "c1" "old.xhtml" Demo.chapter_type]
              (OPFItem.mk "c1" "new.xhtml" Demo.chapter_type)
              [Demo.nav])
    as (l & Hl & _ & _ & _).
  - vm_compute. reflexivity.
  - reflexivity.
  - intros x [<-|[]]. discriminate.
  - rewrite Hl. f_equal. vm_compute in Hl. injection Hl as <-. reflexivity.
Defined.
